(** * IMU / ground-truth preparation pipeline: a shallow embedding

    The development follows [data/euroc_utils.py] and
    [data/inertial_ABCs.py].  Python exceptions are results of an error
    monad, numpy arrays are lists indexed with stdpp's lookup and insert,
    timestamps and the sensor readings that are filtered and scaled are
    rationals, and the quantities that go through a square root or a
    trigonometric function are real numbers.  The window builder is
    polymorphic in the type of the readings.  Linear interpolation, the IIR
    difference equation, the min-max scaler, the range check of the
    Butterworth design and the shuffle behind numpy's draw without
    replacement are written out; the coefficients of the design, the
    integers the generator draws, the dataset shuffle, double-precision
    arithmetic where a statement does not depend on it and the two helpers
    of [data/utils/data_utils.py] are parameters of the sections that use
    them. *)

From Stdlib Require Import QArith Qabs Qround Qminmax Reals Lra Lia.
From stdpp Require Import base list strings gmap.

Set Default Proof Using "Type".

(** ** Exceptions and the error monad *)

(** The exceptions a run of the Python code can end in, and the two error
    kinds of the specification that the statements below mention. *)
Inductive exn : Set :=
  | AssertionError
  | IndexError
  | ValueError
  | ZeroDivisionError
  | TypeError
  | ConfigError
  | RangeError
  | AxisError.

Inductive result (A : Type) : Type :=
  | Ok (a : A)
  | Raise (e : exn).
Arguments Ok {A} a.
Arguments Raise {A} e.

#[global] Instance result_ret : MRet result := @Ok.
#[global] Instance result_bind : MBind result :=
  fun A B f m => match m with Ok a => f a | Raise e => Raise e end.
#[global] Instance result_fmap : FMap result :=
  fun A B f m => match m with Ok a => Ok (f a) | Raise e => Raise e end.

Definition returns {A} (m : result A) : Prop := exists a, m = Ok a.

(** [l[i]] on a Python list or a numpy axis. *)
Definition getitem {A} (l : list A) (i : nat) : result A :=
  match l !! i with
  | Some x => Ok x
  | None => Raise IndexError
  end.

(** ** numpy on lists *)
Module Np.

(** [np.zeros(n)] along the leading axis, [z] being the zero sub-array. *)
Definition zeros {A} (n : nat) (z : A) : list A := replicate n z.

(** [a[lo:hi]]; the bounds are clipped as numpy does. *)
Definition slice {A} (lo hi : nat) (a : list A) : list A :=
  take (hi - lo) (drop lo a).

(** [a[lo:hi] = v].  numpy refuses a right-hand side whose leading
    dimension differs from the one of the slice (a single row would be
    broadcast; the callers below never produce that mismatch). *)
Definition slice_assign {A} (lo hi : nat) (a v : list A) : result (list A) :=
  if length v =? length (slice lo hi a)
  then Ok (take lo a ++ v ++ drop hi a)
  else Raise ValueError.

(** [a[idx]] with an index array. *)
Fixpoint take_idx {A} (a : list A) (idx : list nat) : result (list A) :=
  match idx with
  | [] => Ok []
  | i :: idx' =>
      x ← getitem a i;
      xs ← take_idx a idx';
      Ok (x :: xs)
  end.

(** The rows of [a] from position [i] on whose position is not in [idx]. *)
Fixpoint delete_from {A} (i : nat) (a : list A) (idx : list nat) : list A :=
  match a with
  | [] => []
  | x :: a' =>
      if bool_decide (i ∈ idx) then delete_from (S i) a' idx
      else x :: delete_from (S i) a' idx
  end.

(** [np.delete(a, idx, 0)]: an index out of bounds is an [IndexError]. *)
Definition delete {A} (a : list A) (idx : list nat) : result (list A) :=
  if forallb (fun i => i <? length a) idx
  then Ok (delete_from 0 a idx)
  else Raise IndexError.

(** *** The legacy generator: [shuffle], [permutation] and [choice] *)
Section Generator.
(** The state of the generator and [rk_interval(max, state)], its draw of
    an integer from [0] to [max], both ends included. *)
Variable rng : Type.
Variable rk_interval : nat -> rng -> nat * rng.

(** [x[i], x[j] = x[j], x[i]] *)
Definition swap (i j : nat) (x : list nat) : list nat :=
  match x !! i, x !! j with
  | Some a, Some b => <[j := a]> (<[i := b]> x)
  | _, _ => x
  end.

Definition shuffle_step (st : list nat * rng) (i : nat) : list nat * rng :=
  let '(x, g) := st in
  let '(j, g) := rk_interval i g in
  (swap i j x, g).

(** [shuffle(x)]: [for i in reversed(range(1, n))], one draw
    [j = rk_interval(i)] and the swap of [x[i]] and [x[j]]. *)
Definition shuffle (x : list nat) (g : rng) : list nat * rng :=
  foldl shuffle_step (x, g) (rev (seq 1 (length x - 1))).

(** [permutation(n)]: [arange(n)], shuffled. *)
Definition permutation (n : nat) (g : rng) : list nat * rng :=
  shuffle (seq 0 n) g.

(** The draw of [choice(n, k, replace=False)] once its arguments are
    accepted: [permutation(n)[:k]]. *)
Definition choice_without_replacement (n k : nat) (g : rng) : list nat * rng :=
  let '(p, g) := permutation n g in (take k p, g).
End Generator.

End Np.

(** ** Samples *)

Record vec3 (A : Type) : Type := V3 { vx : A; vy : A; vz : A }.
Arguments V3 {A} vx vy vz.
Arguments vx {A} v.
Arguments vy {A} v.
Arguments vz {A} v.

(** One row of the [n x 2 x 3] array: the gyroscope group, then the
    accelerometer group. *)
Definition imu_vec (A : Type) : Type := (vec3 A * vec3 A)%type.

Definition vec3_list {A} (v : vec3 A) : list A := [vx v; vy v; vz v].

Record quat (A : Type) : Type := Quat { qw : A; qx : A; qy : A; qz : A }.
Arguments Quat {A} qw qx qy qz.
Arguments qw {A} q.
Arguments qx {A} q.
Arguments qy {A} q.
Arguments qz {A} q.

(** The classes [IMU] and [GT]; both source files declare them with the same
    fields.  Timestamps are compared, never computed with. *)
Module IMU.
Record t (A : Type) : Type :=
  Build { timestamp : Q; gyro : vec3 A; acc : vec3 A }.
Arguments Build {A} timestamp gyro acc.
Arguments timestamp {A} _.
Arguments gyro {A} _.
Arguments acc {A} _.

(** [IMU.unroll] *)
Definition unroll {A} (s : t A) : vec3 A * vec3 A * Q :=
  (gyro s, acc s, timestamp s).
End IMU.

Module GT.
Record t (A : Type) : Type :=
  Build { timestamp : Q; pos : vec3 A; att : quat A; vel : vec3 A;
          ang_vel : vec3 A; acc : vec3 A }.
Arguments Build {A} timestamp pos att vel ang_vel acc.
Arguments timestamp {A} _.
Arguments pos {A} _.
Arguments att {A} _.
Arguments vel {A} _.
Arguments ang_vel {A} _.
Arguments acc {A} _.

(** [GT.unroll] and [GT.read_from_tuple] *)
Definition unroll {A} (g : t A)
  : vec3 A * vec3 A * quat A * vec3 A * vec3 A * Q :=
  (pos g, vel g, att g, ang_vel g, acc g, timestamp g).

Definition read_from_tuple {A}
    (data : vec3 A * vec3 A * quat A * vec3 A * vec3 A * Q) : t A :=
  let '(p, v, q, w, a, ts) := data in Build ts p q v w a.

(** [GT.integrate], the one method that computes with timestamps.  The
    double-precision arithmetic is left abstract: [elapsed t t_old] is
    [(t - t_old) * 10e-6], and [sub] and [div] are the subtraction and the
    division of two doubles (a division by zero gives [inf] or [nan], it
    does not raise).  The velocity is the position difference over [dt],
    axis by axis, and the branch for the attitude assigns [ang_vel] to
    itself. *)
Section Integrate.
Context {A : Type}.
Variable elapsed : Q -> Q -> A.
Variable sub div : A -> A -> A.

Definition integrate (self gt_old : t A) (int_pos int_att : bool) : t A :=
  let dt := elapsed (timestamp self) (timestamp gt_old) in
  let vel :=
    if int_pos then
      V3 (div (sub (vx (pos self)) (vx (pos gt_old))) dt)
         (div (sub (vy (pos self)) (vy (pos gt_old))) dt)
         (div (sub (vz (pos self)) (vz (pos gt_old))) dt)
    else vel self in
  let ang_vel := if int_att then ang_vel self else ang_vel self in
  Build (timestamp self) (pos self) (att self) vel ang_vel (acc self).
End Integrate.
End GT.

(** Strict comparison of two timestamps, as a boolean. *)
Definition Qltb (x y : Q) : bool :=
  (Qnum x * QDen y <? Qnum y * QDen x)%Z.

(** The mask [(ts > lo) * (ts < hi)] of both alignment routines. *)
Definition in_span (lo hi ts : Q) : bool := Qltb lo ts && Qltb ts hi.

(** [a[0]] and [a[-1]] on a numpy array. *)
Definition first_item {A} (a : list A) : result A := getitem a 0.
Definition last_item {A} (a : list A) : result A :=
  match last a with Some x => Ok x | None => Raise IndexError end.

(** [mapM] in the error monad: a list comprehension whose body can raise. *)
Fixpoint traverse {A B} (f : A -> result B) (l : list A) : result (list B) :=
  match l with
  | [] => Ok []
  | x :: l' => y ← f x; ys ← traverse f l'; Ok (y :: ys)
  end.

(** ** scipy and sklearn routines with an exact meaning *)
Module Scipy.

(** [interp1d(x, y)] then a call at [x_new]: linear interpolation inside
    the bracketing pair, [ValueError] outside the range of [x] (the
    default [bounds_error]) and for fewer than two knots.  The knots are
    taken in the order given: the series are sorted by timestamp, so the
    sort that scipy applies first leaves them as they are. *)
Fixpoint interp_at (xs ys : list Q) (x_new : Q) : result Q :=
  match xs, ys with
  | x_lo :: ((x_hi :: _) as xs'), y_lo :: ((y_hi :: _) as ys') =>
      if Qle_bool x_lo x_new && Qle_bool x_new x_hi
      then Ok (((y_hi - y_lo) / (x_hi - x_lo)) * (x_new - x_lo) + y_lo)%Q
      else interp_at xs' ys' x_new
  | _, _ => Raise ValueError
  end.

Definition interp1d (xs ys : list Q) : result (Q -> result Q) :=
  if (length xs <? 2) || negb (length xs =? length ys)
  then Raise ValueError
  else Ok (interp_at xs ys).

Definition dot (c h : list Q) : Q :=
  foldr Qplus 0%Q (zip_with Qmult c h).

(** The difference equation of [lfilter(b, a, x)] on one channel:
    [a0 y_n = sum_k b_k x_(n-k) - sum_(k>=1) a_k y_(n-k)];
    [xh] and [yh] hold the past inputs and outputs, most recent first. *)
Fixpoint lfilter_run (b a_tail : list Q) (a0 : Q) (xh yh x : list Q) : list Q :=
  match x with
  | [] => []
  | x_n :: x' =>
      let y_n := ((dot b (x_n :: xh) - dot a_tail yh) / a0)%Q in
      y_n :: lfilter_run b a_tail a0 (x_n :: xh) (y_n :: yh) x'
  end.

Definition lfilter1 (b a x : list Q) : result (list Q) :=
  match a with
  | [] => Raise ValueError
  | a0 :: a_tail =>
      if Qeq_bool a0 0 then Raise ValueError
      else Ok (lfilter_run b a_tail a0 [] [] x)
  end.

(** [lfilter(b, a, x, axis=0)] on an [n x 3] array: every column is
    filtered along the time axis on its own. *)
Definition lfilter (b a : list Q) (x : list (vec3 Q)) : result (list (vec3 Q)) :=
  fx ← lfilter1 b a (map vx x);
  fy ← lfilter1 b a (map vy x);
  fz ← lfilter1 b a (map vz x);
  Ok (zip_with (fun p z => V3 (fst p) (snd p) z) (zip fx fy) fz).

(** [butter(N, Wn, output='ba')]: the critical frequency of a digital
    filter must lie strictly between 0 and 1, or [iirfilter] raises
    [ValueError]; the coefficients [(b, a)] of the design itself are those
    of [coeffs]. *)
Definition butter (coeffs : nat -> Q -> list Q * list Q) (N : nat) (Wn : Q)
  : result (list Q * list Q) :=
  if Qltb 0 Wn && Qltb Wn 1 then Ok (coeffs N Wn) else Raise ValueError.

End Scipy.

Module Sklearn.

(** The state [MinMaxScaler.fit] leaves behind: one minimum and one
    maximum per feature, that is, per column of the fitted matrix. *)
Record MinMaxScaler : Type :=
  Scaler { data_min_ : list Q; data_max_ : list Q }.

Definition fit (X : list (list Q)) : result MinMaxScaler :=
  match X with
  | [] => Raise ValueError
  | r :: rs =>
      Ok {| data_min_ := foldl (zip_with Qmin) r rs;
            data_max_ := foldl (zip_with Qmax) r rs |}
  end.

(** [transform] with the default feature range [(0, 1)]; a feature whose
    range is zero is scaled by one. *)
Definition scale_of (lo hi : Q) : Q :=
  if Qeq_bool (hi - lo) 0 then 1%Q else (1 / (hi - lo))%Q.

Definition transform_row (s : MinMaxScaler) (row : list Q) : list Q :=
  zip_with (fun x mm => (x * scale_of (fst mm) (snd mm)
                         - fst mm * scale_of (fst mm) (snd mm))%Q)
    row (zip (data_min_ s) (data_max_ s)).

End Sklearn.

(** ** [data/euroc_utils.py] *)
Module euroc_utils.

(** *** [interpolate_ground_truth] *)

Definition interpolate_ground_truth
    (raw_imu_data : list (IMU.t Q)) (ground_truth_data : list (GT.t Q))
  : result (list (IMU.t Q) * list (vec3 Q)) :=
  let imu_timestamps := map IMU.timestamp raw_imu_data in
  let gt_timestamps := map GT.timestamp ground_truth_data in
  let gt_velocity := map GT.vel ground_truth_data in
  (* Only keep imu data that is within the ground truth time span *)
  t_first ← first_item gt_timestamps;
  t_last ← last_item gt_timestamps;
  let raw_imu_data :=
    List.filter (fun s => in_span t_first t_last (IMU.timestamp s)) raw_imu_data in
  let imu_timestamps := map IMU.timestamp raw_imu_data in
  v_x_interp ← Scipy.interp1d gt_timestamps (map vx gt_velocity);
  v_y_interp ← Scipy.interp1d gt_timestamps (map vy gt_velocity);
  v_z_interp ← Scipy.interp1d gt_timestamps (map vz gt_velocity);
  v_interp ← traverse (fun imu_timestamp =>
                x ← v_x_interp imu_timestamp;
                y ← v_y_interp imu_timestamp;
                z ← v_z_interp imu_timestamp;
                Ok (V3 x y z)) imu_timestamps;
  Ok (raw_imu_data, v_interp).

(** *** [pre_process_data] *)

(** [x.reshape(-1, 1)] for [x] of shape [n x 3]: one column holding every
    axis of every timestep, in row-major order. *)
Definition reshape_column (x : list (vec3 Q)) : list (list Q) :=
  map (fun v => [v]) (concat (map vec3_list x)).

Definition fs : Q := 200.   (* Sample frequency (Hz) *)
Definition f0 : Q := 10.    (* Frequency to be removed from signal (Hz) *)
Definition w0 : Q := f0 / (fs / 2).   (* Normalized Frequency *)

Section PreProcess.
(** [signal.butter(N, Wn, output='ba')], giving [(b, a)]. *)
Variable butter : nat -> Q -> result (list Q * list Q).

(** The function returns what it returns in the source together with the
    two scalers it dumps to disk.  On an empty series [np.array] gives a
    one-dimensional array and the indexing [[:, 1, :]] raises.  Of the
    figures only the step that can raise is kept: the speed curve is
    [np.linalg.norm(np.squeeze(gt_v_interp), axis=1)], and fewer than two
    velocities squeeze to an array without axis 1. *)
Definition pre_process_data
    (raw_imu_data : list (IMU.t Q)) (gt_v_interp : list (vec3 Q))
  : result (list (imu_vec Q) * list (vec3 Q)
            * (Sklearn.MinMaxScaler * Sklearn.MinMaxScaler)) :=
  let imu_vec := map (fun imu_s => (IMU.gyro imu_s, IMU.acc imu_s)) raw_imu_data in
  let filt_imu_vec := imu_vec in
  (* Design butterworth filter *)
  '(b_bw, a_bw) ← butter 10 w0;
  if decide (imu_vec = []) is left _ then Raise IndexError else
  filt_acc ← Scipy.lfilter b_bw a_bw (map snd filt_imu_vec);
  let filt_imu_vec := zip (map fst filt_imu_vec) filt_acc in
  let y := gt_v_interp in
  if length y <? 2 then Raise AxisError else
  scale_g ← Sklearn.fit (reshape_column (map fst filt_imu_vec));
  scale_a ← Sklearn.fit (reshape_column (map snd filt_imu_vec));
  Ok (filt_imu_vec, gt_v_interp, (scale_g, scale_a)).
End PreProcess.

(** *** The window builder of [generate_euroc_imu_dataset] *)
Section WindowBuilder.
Context {A : Type}.
Variable zero : A.
(** [np.linalg.norm] on a 3-vector. *)
Variable norm : vec3 A -> A.

(** A row of [x.reshape(k, 6)]. *)
Definition row6 (s : imu_vec A) : list A :=
  vec3_list (fst s) ++ vec3_list (snd s).

(** [x.reshape(k, 6)] for [x] of shape [m x 2 x 3]: the element count must
    agree. *)
Definition reshape (k : nat) (x : list (imu_vec A)) : result (list (list A)) :=
  if length x =? k then Ok (map row6 x) else Raise ValueError.

Definition zero_row : list A := replicate 6 zero.

(** The window built at index [i] (the body of the loop up to the TODO). *)
Definition imu_img_at (imu_len : nat) (raw_imu : list (imu_vec A)) (i : nat)
  : result (list (list A)) :=
  let imu_img := Np.zeros imu_len zero_row in
  (* The first imu_x_len data vectors will not be full of data *)
  if i <? imu_len then
    rows ← reshape (i + 1) (Np.slice 0 (i + 1) raw_imu);
    Np.slice_assign (imu_len - i - 1) imu_len imu_img rows
  else
    reshape imu_len (Np.slice i (i + imu_len) raw_imu).

(** State of the loop: [imu_img_tensor] and [gt_v_tensor].  The trailing
    axis of length one that [np.expand_dims] adds to every window is left
    out. *)
Definition tensors : Type := (list (list (list A)) * list A)%type.

Definition window_step (imu_len : nat) (raw_imu : list (imu_vec A))
    (gt_v : list (vec3 A)) (st : result tensors) (i : nat) : result tensors :=
  '(imu_img_tensor, gt_v_tensor) ← st;
  imu_img ← imu_img_at imu_len raw_imu i;
  v ← getitem gt_v i;
  Ok (<[i := imu_img]> imu_img_tensor, <[i := norm v]> gt_v_tensor).

(** Lines 234-250: both tensors are allocated with [len(raw_imu)] entries
    and the loop runs over [range(len(raw_imu) - imu_len)]. *)
Definition build_windows (imu_len : nat) (raw_imu : list (imu_vec A))
    (gt_v : list (vec3 A)) : result tensors :=
  let n := length raw_imu in
  foldl (window_step imu_len raw_imu gt_v)
    (Ok (Np.zeros n (Np.zeros imu_len zero_row), Np.zeros n zero))
    (seq 0 (n - imu_len)).

End WindowBuilder.

(** *** The train/test split of [generate_euroc_imu_dataset] *)

(** [int(np.ceil(n * 0.1))].  The product is taken exactly here; in double
    precision [n * 0.1] rounds to the integer [n / 10] when [n] is a
    multiple of ten and stays strictly between two integers otherwise, so
    the ceiling is the same. *)
Definition ceil_tenth (n : nat) : nat :=
  Z.to_nat (Qceiling (inject_Z (Z.of_nat n) * (1 # 10))).

(** What [scipy.io.savemat] receives: the dictionary [{'imu': .., 'y': ..}]. *)
Record mat (A : Type) : Type :=
  Mat { mat_imu : list (list (list A)); mat_y : list A }.
Arguments Mat {A} mat_imu mat_y.
Arguments mat_imu {A} _.
Arguments mat_y {A} _.

Section RandomState.
(** The state of numpy's global generator and the draw
    [np.random.choice(n, k, replace=False)] made from it.  The draw is a
    parameter for what holds of every draw; numpy's own is
    [Np.choice_without_replacement]. *)
Variable rng : Type.
Variable choice : nat -> nat -> rng -> list nat * rng.

(** numpy refuses a sample larger than the population. *)
Definition random_choice (n k : nat) (g : rng) : result (list nat * rng) :=
  if n <? k then Raise ValueError else Ok (choice n k g).

Section Generate.
Context {A : Type}.
Variable zero : A.
Variable norm : vec3 A -> A.

(** The two files are returned instead of written, with the generator
    state the call leaves behind. *)
Definition generate_euroc_imu_dataset (imu_len : nat)
    (raw_imu : list (imu_vec A)) (gt_v : list (vec3 A)) (g : rng)
  : result (mat A * mat A * rng) :=
  '(imu_img_tensor, gt_v_tensor) ← build_windows zero norm imu_len raw_imu gt_v;
  let total_ds_len := length gt_v_tensor in
  let test_ds_len := ceil_tenth total_ds_len in
  (* Choose some entries to separate for the test set *)
  '(test_indexes, g) ← random_choice total_ds_len test_ds_len g;
  test_set_x ← Np.take_idx imu_img_tensor test_indexes;
  test_set_y ← Np.take_idx gt_v_tensor test_indexes;
  imu_img_tensor ← Np.delete imu_img_tensor test_indexes;
  gt_v_tensor ← Np.delete gt_v_tensor test_indexes;
  Ok (Mat imu_img_tensor gt_v_tensor, Mat test_set_x test_set_y, g).
End Generate.

(** *** [generate_cnn_training_dataset] *)

(** A [tf.data.Dataset] after [batch]: its batches in order, and whether
    [repeat] was applied. *)
Record dataset (X : Type) : Type :=
  Dataset { batches : list (list X); repeated : bool }.
Arguments Dataset {X} batches repeated.
Arguments batches {X} _.
Arguments repeated {X} _.

(** [ds.batch(batch_s)]: consecutive groups of [batch_s] elements, the last
    one possibly shorter.  [room] counts the places left in [cur]. *)
Fixpoint batch_go {X} (batch_s room : nat) (cur : list X) (l : list X)
  : list (list X) :=
  match l with
  | [] => match cur with [] => [] | _ => [rev cur] end
  | x :: l' =>
      match room with
      | 0 | 1 => rev (x :: cur) :: batch_go batch_s batch_s [] l'
      | S room' => batch_go batch_s room' (x :: cur) l'
      end
  end.

Definition batch {X} (batch_s : nat) (l : list X) : result (list (list X)) :=
  if batch_s =? 0 then Raise ValueError else Ok (batch_go batch_s batch_s [] l).

(** [scaler.transform(tensor[:, :, c, 0])] written back in place: channel
    [c] of every row of every window.  The matrix handed to the scaler has
    one row per window and one column per window position: [transform]
    refuses it with [ValueError] when it has no row or no column; a scaler
    with one feature is broadcast and any other must have [imu_len]
    features. *)
Definition transform_channel (s : Sklearn.MinMaxScaler) (c : nat)
    (tensor : list (list (list Q))) : result (list (list (list Q))) :=
  if length tensor =? 0 then Raise ValueError else
  traverse (fun window =>
    col ← traverse (fun row => getitem row c) window;
    if length col =? 0 then Raise ValueError else
    let features := length (Sklearn.data_min_ s) in
    scaled ←
      (if features =? 1 then
         Ok (concat (map (fun x => Sklearn.transform_row s [x]) col))
       else if features =? length col then Ok (Sklearn.transform_row s col)
       else Raise ValueError);
    Ok (zip_with (fun row x => <[c := x]> row) window scaled)) tensor.

Section Training.
(** [Dataset.shuffle(buffer_size, seed)]. *)
Variable shuffle : nat -> Z -> list (list (list Q) * Q) -> list (list (list Q) * Q).

Definition seed : Z := 8901.

(** The arguments are what the source reads from disk: the training file
    and the two scalers. *)
Definition generate_cnn_training_dataset
    (train_file : mat Q) (scale_g scale_a : Sklearn.MinMaxScaler)
    (batch_s : nat) (g : rng)
  : result (dataset (list (list Q) * Q) * dataset (list (list Q) * Q)
            * (nat * nat) * rng) :=
  let imu_img_tensor := mat_imu train_file in
  let gt_v_tensor := mat_y train_file in
  imu_img_tensor ←
    foldl (fun acc i =>
             t ← acc;
             t ← transform_channel scale_g i t;
             transform_channel scale_a (i + 3) t)
      (Ok imu_img_tensor) (seq 0 3);
  let full_ds_len := length gt_v_tensor in
  let val_ds_len := ceil_tenth full_ds_len in
  let train_ds_len := full_ds_len - val_ds_len in
  '(val_ds_indexes, g) ← random_choice full_ds_len val_ds_len g;
  val_ds_imu_vec ← Np.take_idx imu_img_tensor val_ds_indexes;
  val_ds_v_vec ← Np.take_idx gt_v_tensor val_ds_indexes;
  imu_img_tensor ← Np.delete imu_img_tensor val_ds_indexes;
  gt_v_tensor ← Np.delete gt_v_tensor val_ds_indexes;
  let full_train_ds := shuffle batch_s seed (zip imu_img_tensor gt_v_tensor) in
  val_batches ← batch batch_s (zip val_ds_imu_vec val_ds_v_vec);
  train_batches ← batch batch_s full_train_ds;
  Ok (Dataset train_batches true, Dataset val_batches false,
      (train_ds_len, val_ds_len), g).
End Training.
End RandomState.

(** *** The scaling loop and [generate_cnn_testing_dataset] *)
(** The scaling loop of lines 305-307 and 347-349: for [i] in [range(3)],
    channel [i] goes through the gyroscope scaler and channel [i + 3]
    through the accelerometer scaler. *)
Definition scale_channels (scale_g scale_a : Sklearn.MinMaxScaler)
    (imu_img_tensor : list (list (list Q))) : result (list (list (list Q))) :=
  foldl (fun acc i =>
           t ← acc;
           t ← transform_channel scale_g i t;
           transform_channel scale_a (i + 3) t)
    (Ok imu_img_tensor) (seq 0 3).

(** [tf.data.Dataset.from_tensor_slices((x, y))]: the two tensors must have
    the same leading dimension. *)
Definition from_tensor_slices {X Y} (x : list X) (y : list Y) : result (list (X * Y)) :=
  if length x =? length y then Ok (zip x y) else Raise ValueError.

(** As for the training set, the arguments are what the source reads from
    disk: the testing file and the two scalers. *)
Definition generate_cnn_testing_dataset
    (test_file : mat Q) (scale_g scale_a : Sklearn.MinMaxScaler) (batch_s : nat)
  : result (dataset (list (list Q) * Q) * nat) :=
  let imu_img_tensor := mat_imu test_file in
  let gt_v_tensor := mat_y test_file in
  imu_img_tensor ← scale_channels scale_g scale_a imu_img_tensor;
  let ds_len := length gt_v_tensor in
  test_ds ← from_tensor_slices imu_img_tensor gt_v_tensor;
  test_ds ← batch batch_s test_ds;
  Ok (Dataset _ test_ds false, ds_len).

End euroc_utils.

(** ** The scaler files of [data/euroc_utils.py] *)
Module euroc_files.

(** What a path of the file system holds, as far as the scaler files are
    concerned.  Paths are keys of a finite map: a path exists when it is a
    key, creating an entry needs no parent directory, and two spellings of
    one path are two keys. *)
Inductive content : Type :=
  | Directory
  | Text (s : string)
  | Pickle (s : Sklearn.MinMaxScaler)
  | Other.

Definition SCALER_GYRO_FILE : string := "scaler_gyro.save".
Definition SCALER_ACC_FILE : string := "scaler_acc.save".
Definition SCALER_DIR_FILE : string := "/scaler_files_dir.txt".

(** [os.path.exists] *)
Definition exists_ (st : gmap string content) (path : string) : bool :=
  bool_decide (is_Some (st !! path)).


(** [add_scalers_to_training_dir]: [os.mkdir] when the directory is
    missing; [os.mknod], [open(.., 'w')] and [write(root)] when the pointer
    file is missing. *)
Definition add_scalers_to_training_dir (root destiny : string)
    (st : gmap string content) : gmap string content :=
  let st := if exists_ st destiny then st else <[destiny := Directory]> st in
  if exists_ st (destiny +:+ SCALER_DIR_FILE) then st
  else <[destiny +:+ SCALER_DIR_FILE := Text root]> st.


End euroc_files.

(** ** [data/inertial_ABCs.py] *)
Module inertial_ABCs.

(** The attributes of [InertialDataset]; [None] until the overriding class
    sets them. *)
Record InertialDataset (A : Type) : Type :=
  Build_dataset {
    imu_data : option (list (IMU.t A));
    gt_data : option (list (GT.t A));
    sampling_freq : option Q;
    ds_local_dir : option string;
    plot_stft : bool }.
Arguments Build_dataset {A} imu_data gt_data sampling_freq ds_local_dir plot_stft.
Arguments imu_data {A} _.
Arguments gt_data {A} _.
Arguments sampling_freq {A} _.
Arguments ds_local_dir {A} _.
Arguments plot_stft {A} _.

Definition get_ds_directory {A} (self : InertialDataset A) : result string :=
  match ds_local_dir self with
  | Some d => Ok d
  | None => Raise AssertionError
  end.

(** Python's [x / y] on floats. *)
Definition py_div (x y : Q) : result Q :=
  if Qeq_bool y 0 then Raise ZeroDivisionError else Ok (x / y)%Q.

(** A row of [imu_unroll]: the gyroscope group, the accelerometer group and
    the timestamp. *)
Definition imu_row : Type := (vec3 Q * vec3 Q * Q)%type.

Definition gt_row (A : Type) : Type :=
  (vec3 A * vec3 A * quat A * vec3 A * vec3 A * Q)%type.

(** Column [i] of [imu_unroll] for the two channel groups, read and
    assigned.  The right-hand side of the assignment must have one entry
    per row. *)
Definition imu_column (i : nat) (m : list imu_row) : list (vec3 Q) :=
  map (fun r => if i =? 0 then fst (fst r) else snd (fst r)) m.

Definition set_imu_column (i : nat) (m : list imu_row) (c : list (vec3 Q))
  : result (list imu_row) :=
  if length c =? length m then
    Ok (zip_with (fun r v =>
                    if i =? 0 then (v, snd (fst r), snd r)
                    else (fst (fst r), v, snd r)) m c)
  else Raise ValueError.

Section Preprocessing.
(** [scipy.signal.butter(N, Wn, output='ba')], giving [[b, a]]. *)
Variable butter : nat -> Q -> result (list Q * list Q).
(** [data.utils.data_utils.filter_with_coeffs(a, b, x, fs, plot)], which is
    not part of the sources at hand: its filtered [n x 3] array. *)
Variable filter_with_coeffs :
  list Q -> list Q -> list (vec3 Q) -> Q -> bool -> result (list (vec3 Q)).

(** The design step, lines 114-118. *)
Definition design (fs filter_freq : Q) : result (list Q * list Q) :=
  let f0 := filter_freq in
  half ← py_div fs 2;
  w0 ← py_div f0 half;
  butter 10 w0.

Definition basic_preprocessing (self : InertialDataset Q) (filter_freq : Q)
  : result (list imu_row * list (gt_row Q)
            * (Sklearn.MinMaxScaler * Sklearn.MinMaxScaler)) :=
  match imu_data self, gt_data self, sampling_freq self with
  | Some imu, Some gt, Some fs =>
      (* Transform the data to numpy matrices *)
      let imu_unroll := map IMU.unroll imu in
      let gt_unroll := map GT.unroll gt in
      (* np.shape(imu_unroll)[1] - 1: a one-dimensional array when empty *)
      imu_channels ← (if decide (imu_unroll = []) is left _
                      then Raise IndexError else Ok (3 - 1));
      '(b_bw, a_bw) ← design fs filter_freq;
      imu_unroll ←
        foldl (fun acc i =>
                 m ← acc;
                 filt_res ← filter_with_coeffs a_bw b_bw (imu_column i m) fs
                              (plot_stft self);
                 set_imu_column i m filt_res)
          (Ok imu_unroll) (seq 0 (imu_channels `min` 2));
      scale_g ← Sklearn.fit (map vec3_list (imu_column 0 imu_unroll));
      scale_a ← Sklearn.fit (map vec3_list (imu_column 1 imu_unroll));
      _ ← get_ds_directory self;
      Ok (imu_unroll, gt_unroll, (scale_g, scale_a))
  | _, _, _ => Raise AssertionError
  end.
End Preprocessing.

Section Alignment.
Context {A : Type}.
(** [data.utils.data_utils.interpolate_ts(ts, new_ts, data)] and the same
    with [is_quaternion=True]; not part of the sources at hand. *)
Variable interpolate_ts :
  list Q -> list Q -> list (vec3 A) -> result (list (vec3 A)).
Variable interpolate_ts_quat :
  list Q -> list Q -> list (quat A) -> result (list (quat A)).

Definition not_none {X} (o : option X) : result X :=
  match o with Some x => Ok x | None => Raise TypeError end.

(** The method assigns [self.imu_data] and [self.gt_data]; the updated
    object is returned. *)
Definition interpolate_ground_truth (self : InertialDataset A)
  : result (InertialDataset A) :=
  x_data ← not_none (imu_data self);
  let imu_timestamps := map IMU.timestamp x_data in
  gt ← not_none (gt_data self);
  let gt_unroll := map GT.unroll gt in
  (* gt_unroll[:, 5] *)
  gt_timestamps ← (if decide (gt_unroll = []) is left _
                   then Raise IndexError else Ok (map snd gt_unroll));
  (* Only keep imu data that is within the ground truth time span *)
  t_first ← first_item gt_timestamps;
  t_last ← last_item gt_timestamps;
  let x_data :=
    List.filter (fun s => in_span t_first t_last (IMU.timestamp s)) x_data in
  let imu_timestamps := map IMU.timestamp x_data in
  let gt_pos := map GT.pos gt in
  let gt_vel := map GT.vel gt in
  let gt_att := map GT.att gt in
  let gt_ang_vel := map GT.ang_vel gt in
  let gt_acc := map GT.acc gt in
  (* Interpolate Ground truth to match IMU time acquisitions *)
  gt_pos_interp ← interpolate_ts gt_timestamps imu_timestamps gt_pos;
  gt_vel_interp ← interpolate_ts gt_timestamps imu_timestamps gt_vel;
  gt_att_interp ← interpolate_ts_quat gt_timestamps imu_timestamps gt_att;
  gt_ang_vel_interp ← interpolate_ts gt_timestamps imu_timestamps gt_ang_vel;
  gt_acc_interp ← interpolate_ts gt_timestamps imu_timestamps gt_acc;
  (* Re-make vector of interpolated GT measurements *)
  let n_samples := length gt_pos_interp in
  gt_interp ← traverse (fun j =>
      p ← getitem gt_pos_interp j;
      v ← getitem gt_vel_interp j;
      q ← getitem gt_att_interp j;
      w ← getitem gt_ang_vel_interp j;
      a ← getitem gt_acc_interp j;
      ts ← getitem imu_timestamps j;
      Ok (GT.read_from_tuple (p, v, q, w, a, ts))) (seq 0 n_samples);
  Ok (Build_dataset (Some x_data) (Some gt_interp) (sampling_freq self)
        (ds_local_dir self) (plot_stft self)).
End Alignment.

End inertial_ABCs.

(** ** [data/utils/data_utils.py]: orientation interpolation *)
Module data_utils.
Local Open Scope R_scope.

Definition qdot (p q : quat R) : R :=
  qw p * qw q + qx p * qx q + qy p * qy q + qz p * qz q.

Definition qnorm (q : quat R) : R := sqrt (qdot q q).

Definition unit_quat (q : quat R) : Prop := qnorm q = 1.

Definition qscale (k : R) (q : quat R) : quat R :=
  Quat (k * qw q) (k * qx q) (k * qy q) (k * qz q).

Definition qadd (p q : quat R) : quat R :=
  Quat (qw p + qw q) (qx p + qx q) (qy p + qy q) (qz p + qz q).

Definition qneg (q : quat R) : quat R :=
  Quat (- qw q) (- qx q) (- qy q) (- qz q).

(** Modelled from the spec: the renormalization of an interpolated
    orientation, division by its Euclidean norm. *)
Definition normalize (q : quat R) : quat R := qscale (/ qnorm q) q.

(** Modelled from the spec: [interpolate_ts] with [is_quaternion=True] is
    called by [InertialDataset.interpolate_ground_truth] but its module is
    not among the sources.  Section 4.1 describes it: spherical
    (great-circle) interpolation between the two bracketing unit
    quaternions, the second one sign-flipped when its dot product with the
    first is negative, and the result renormalized.  The great-circle
    weights are [sin((1-t) theta) / sin theta] and [sin(t theta) / sin theta]
    for the angle [theta] between the two; where the arc has length zero
    the weights are undefined and the point of the arc is the first
    quaternion. *)
Definition slerp (q0 q1 : quat R) (t : R) : quat R :=
  let d := qdot q0 q1 in
  let q1 := if Rlt_dec d 0 then qneg q1 else q1 in
  let d := if Rlt_dec d 0 then - d else d in
  let theta := acos d in
  normalize
    (if Req_dec_T (sin theta) 0 then q0
     else qadd (qscale (sin ((1 - t) * theta) / sin theta) q0)
               (qscale (sin (t * theta) / sin theta) q1)).

(** Modelled from the spec: the position of [x_new] between the two
    bracketing timestamps, as a fraction. *)
Definition fraction (t_lo t_hi x_new : Q) : R :=
  Q2R ((x_new - t_lo) / (t_hi - t_lo)).

(** Modelled from the spec: the orientation at one new timestamp, from the
    first pair of consecutive ground-truth samples that brackets it; the
    specification's [RangeError] when no pair does. *)
Fixpoint slerp_at (ts : list Q) (qs : list (quat R)) (x_new : Q)
  : result (quat R) :=
  match ts, qs with
  | t_lo :: ((t_hi :: _) as ts'), q_lo :: ((q_hi :: _) as qs') =>
      if Qle_bool t_lo x_new && Qle_bool x_new t_hi
      then Ok (slerp q_lo q_hi (fraction t_lo t_hi x_new))
      else slerp_at ts' qs' x_new
  | _, _ => Raise RangeError
  end.

(** Modelled from the spec: [interpolate_ts(ts, new_ts, data,
    is_quaternion=True)], one interpolated orientation per new timestamp. *)
Definition interpolate_ts_quat (ts new_ts : list Q) (qs : list (quat R))
  : result (list (quat R)) :=
  traverse (slerp_at ts qs) new_ts.

(** Modelled from the spec: linear blending of one axis between the two
    bracketing samples. *)
Definition lerp (y_lo y_hi t : R) : R := y_lo + t * (y_hi - y_lo).

(** Modelled from the spec: a vector quantity at one new timestamp,
    piecewise linear on every axis. *)
Fixpoint lerp_at (ts : list Q) (vs : list (vec3 R)) (x_new : Q)
  : result (vec3 R) :=
  match ts, vs with
  | t_lo :: ((t_hi :: _) as ts'), v_lo :: ((v_hi :: _) as vs') =>
      if Qle_bool t_lo x_new && Qle_bool x_new t_hi
      then let t := fraction t_lo t_hi x_new in
           Ok (V3 (lerp (vx v_lo) (vx v_hi) t) (lerp (vy v_lo) (vy v_hi) t)
                 (lerp (vz v_lo) (vz v_hi) t))
      else lerp_at ts' vs' x_new
  | _, _ => Raise RangeError
  end.

(** Modelled from the spec: [interpolate_ts(ts, new_ts, data)] for
    position, velocity, angular velocity and acceleration. *)
Definition interpolate_ts (ts new_ts : list Q) (vs : list (vec3 R))
  : result (list (vec3 R)) :=
  traverse (lerp_at ts vs) new_ts.

End data_utils.

(** [np.linalg.norm] of a 3-vector of reals. *)
Definition norm3 (v : vec3 R) : R :=
  sqrt (vx v * vx v + vy v * vy v + vz v * vz v)%R.

(** * Statements and concrete series *)

(** ** Windows *)
Section WindowStatements.
Context {A : Type}.
Variable zero : A.
Variable norm : vec3 A -> A.
Import euroc_utils.

(** The window the loop body builds, in closed form. *)
Definition window_of (imu_len : nat) (raw : list (imu_vec A)) (i : nat) : list (list A) :=
  if i <? imu_len
  then replicate (imu_len - i - 1) (zero_row zero) ++ map row6 (take (i + 1) raw)
  else map row6 (take imu_len (drop i raw)).

(** The state of the loop after [k] iterations. *)
Definition filled (imu_len : nat) (raw : list (imu_vec A))
    (gt_v : list (vec3 A)) (k : nat) (st : tensors) : Prop :=
  length (fst st) = length raw /\ length (snd st) = length raw /\
  (forall i, i < k ->
     fst st !! i = Some (window_of imu_len raw i) /\
     exists v, gt_v !! i = Some v /\ snd st !! i = Some (norm v)) /\
  (forall i, k <= i < length raw ->
     fst st !! i = Some (Np.zeros imu_len (zero_row zero)) /\
     snd st !! i = Some zero).

End WindowStatements.

(** A series of five samples, sample [k] reading [k] on every channel, with
    its ground-truth velocities. *)
Definition sample (x : R) : imu_vec R := (V3 x x x, V3 x x x).
Definition raw5 : list (imu_vec R) := map sample [1; 2; 3; 4; 5]%R.
Definition gt5 : list (vec3 R) :=
  [V3 3 4 0; V3 0 3 4; V3 4 0 3; V3 3 0 4; V3 0 4 3]%R.

(** The statement of the specification on targets: every index of the
    series, the last ones included, carries the speed at that index. *)
Definition every_index_has_target (imu_len : nat)
    (raw : list (imu_vec R)) (gt_v : list (vec3 R)) : Prop :=
  exists T Y,
    euroc_utils.build_windows 0%R norm3 imu_len raw gt_v = Ok (T, Y) /\
    length T = length raw /\ length Y = length raw /\
    forall i, i < length raw ->
      exists v, gt_v !! i = Some v /\ Y !! i = Some (norm3 v).

(** ** Scalers *)

(** The minimum and the maximum of a non-empty sequence of readings. *)
Definition list_min (x0 : Q) (xs : list Q) : Q := foldl Qmin x0 xs.
Definition list_max (x0 : Q) (xs : list Q) : Q := foldl Qmax x0 xs.



(** ** Filter design *)

(** scipy's check of the critical frequency, in front of a design that
    returns the given coefficients. *)
Definition checked_butter (coeffs : list Q * list Q) (N : nat) (Wn : Q)
  : result (list Q * list Q) :=
  if Qltb 0 Wn && Qltb Wn 1 then Ok coeffs else Raise ValueError.

(** A two-tap moving average, as filter coefficients [(b, a)]. *)
Definition averaging : list Q * list Q := ([1 # 2; 1 # 2], [1])%Q.

(** The statement of the specification on the design step: a normalized
    cutoff outside [(0, 1)] is answered with [ConfigError]. *)
Definition rejects_cutoff_with_ConfigError
    (butter : nat -> Q -> result (list Q * list Q)) : Prop :=
  forall fs f0 : Q,
    ~ ((0 < f0 / (fs / 2))%Q /\ (f0 / (fs / 2) < 1)%Q) ->
    inertial_ABCs.design butter fs f0 = Raise ConfigError.

(** ** Generators and training files *)

(** What a run of [generate_cnn_training_dataset] hands to the trainer: the
    datasets and their lengths, without the generator state. *)
Definition outputs {rng X} (r : result (X * rng)) : result X :=
  fst <$> r.

(** A generator whose state counts the draws made so far: the first [k]
    indices on an even count, the last [k] on an odd one. *)
Definition alternating_choice (n k : nat) (g : nat) : list nat * nat :=
  (seq (if Nat.even g then 0 else n - k) k, S g).

(** A shuffle that rotates by the seed. *)
Definition rotating_shuffle {X} (buffer_size : nat) (seed : Z) (l : list X) : list X :=
  rotate (Z.to_nat seed) l.

(** Twenty windows of one row each, window [k] reading [k] on every
    channel, and two scalers for the range from 0 to 20. *)
Definition train20 : euroc_utils.mat Q :=
  euroc_utils.Mat (map (fun k => [replicate 6 (inject_Z (Z.of_nat k))]) (seq 0 20))
      (map (fun k => inject_Z (Z.of_nat k)) (seq 0 20)).
Definition scale20 : Sklearn.MinMaxScaler := Sklearn.Scaler [0%Q] [20%Q].

(** The statement of the specification on reproducibility: with inputs and
    seed fixed, any two runs give the same partitions. *)
Definition reproducible {rng} (choice : nat -> nat -> rng -> list nat * rng)
    (shuffle : nat -> Z -> list (list (list Q) * Q) -> list (list (list Q) * Q))
    (train_file : euroc_utils.mat Q) (scale_g scale_a : Sklearn.MinMaxScaler)
    (batch_s : nat) : Prop :=
  forall g g',
    outputs (euroc_utils.generate_cnn_training_dataset rng choice shuffle
               train_file scale_g scale_a batch_s g)
    = outputs (euroc_utils.generate_cnn_training_dataset rng choice shuffle
                 train_file scale_g scale_a batch_s g').

(** ** Series with timestamps *)

(** Five IMU samples at timestamps 0..4 and ground truth at timestamps 1
    and 3: only the sample at timestamp 2 lies strictly inside the span. *)
Definition imu_at (ts : Q) : IMU.t Q :=
  IMU.Build ts (V3 ts (ts + 1) (ts * ts))%Q (V3 (2 * ts) 1 (- ts))%Q.
Definition imu_q : list (IMU.t Q) := map imu_at [0; 1; 2; 3; 4]%Q.
Definition gt_at (ts : Q) : GT.t Q :=
  GT.Build ts (V3 ts 0 0)%Q (Quat 1 0 0 0)%Q (V3 ts (2 * ts) 0)%Q
    (V3 0 0 0)%Q (V3 0 0 0)%Q.
Definition gt_q : list (GT.t Q) := map gt_at [1; 3]%Q.

(** [filter_with_coeffs] as a call of [lfilter]. *)
Definition lfilter_with_coeffs (a b : list Q) (x : list (vec3 Q)) (fs : Q)
    (plot : bool) : result (list (vec3 Q)) :=
  Scipy.lfilter b a x.

Definition ds_q : inertial_ABCs.InertialDataset Q :=
  inertial_ABCs.Build_dataset (Some imu_q) (Some gt_q) (Some 200%Q)
    (Some "euroc/"%string) false.

(** The same series over the reals, with two orthogonal unit quaternions
    as orientations. *)
Definition imu_r : list (IMU.t R) :=
  map (fun ts => IMU.Build ts (V3 1 2 3)%R (V3 4 5 6)%R) [0; 1; 2; 3; 4]%Q.
Definition gt_r : list (GT.t R) :=
  [GT.Build 1%Q (V3 0 0 0)%R (Quat 1 0 0 0)%R (V3 1 0 0)%R (V3 0 0 0)%R (V3 0 0 0)%R;
   GT.Build 3%Q (V3 2 0 0)%R (Quat 0 1 0 0)%R (V3 3 0 0)%R (V3 0 0 0)%R (V3 0 0 0)%R].
Definition ds_r : inertial_ABCs.InertialDataset R :=
  inertial_ABCs.Build_dataset (Some imu_r) (Some gt_r) (Some 200%Q)
    (Some "euroc/"%string) false.


(** ** Scaled rows, a rational norm and a store *)




(** Five velocities for the five samples of [imu_q]. *)
Definition vel_q : list (vec3 Q) := map (fun ts => V3 ts (2 * ts) 0)%Q [0; 1; 2; 3; 4]%Q.

(** A training directory whose pointer file names an older directory. *)
Definition stale_store : gmap string euroc_files.content :=
  {[ "model/scaler_files_dir.txt"%string := euroc_files.Text "old/" ]}.

(** ** The shuffle as a function of its draws *)

(** The draws [rk_interval(i)] that a run of [shuffle] on [m + 1] entries
    makes from the state [g], for [i = m, ..., 1] in this order. *)
Fixpoint draws {rng : Type} (rk_interval : nat -> rng -> nat * rng)
    (m : nat) (g : rng) : list nat :=
  match m with
  | 0 => []
  | S m' => let '(j, g) := rk_interval m g in j :: draws rk_interval m' g
  end.

(** The list the loop of [shuffle] leaves when its draws are [js]. *)
Fixpoint shuffle_with (m : nat) (js x : list nat) : list nat :=
  match m, js with
  | S m', j :: js' => shuffle_with m' js' (Np.swap m j x)
  | _, _ => x
  end.

(** The sequences of draws that [rk_interval] can return: one draw for
    every [i = m, ..., 1], from [0] to [i]. *)
Fixpoint admissible (m : nat) (js : list nat) : Prop :=
  match m, js with
  | 0, [] => True
  | S m', j :: js' => j <= m /\ admissible m' js'
  | _, _ => False
  end.

(** A generator whose state counts its draws and whose draw is the count,
    reduced to the interval. *)
Definition counting_interval (max : nat) (g : nat) : nat * nat :=
  (g mod (S max), S g).

(** ** The shorter arc *)

(** The end of the shorter arc from [q0] towards [q1]: [q1] itself, or its
    opposite when the dot product with [q0] is negative; and the angle of
    that arc. *)
Definition shorter_end (q0 q1 : quat R) : quat R :=
  if Rlt_dec (data_utils.qdot q0 q1) 0 then data_utils.qneg q1 else q1.

Definition arc_angle (q0 q1 : quat R) : R :=
  acos (data_utils.qdot q0 (shorter_end q0 q1)).

(** * Properties *)

(** ** The library routines on small inputs *)

Example interp_midpoint :
  exists y, Scipy.interp_at [0; 50; 99]%Q [0; 1; 2]%Q 25 = Ok y /\ (y == 1 # 2)%Q.
Proof. eexists. split; reflexivity. Qed.

Example interp_outside :
  Scipy.interp_at [0; 50; 99]%Q [0; 1; 2]%Q 100 = Raise ValueError.
Proof. reflexivity. Qed.

Example lfilter_average :
  exists y, Scipy.lfilter1 [1 # 2; 1 # 2]%Q [1]%Q [2; 4; 6]%Q = Ok y /\
            Forall2 Qeq y [1; 3; 5]%Q.
Proof. eexists. split; [reflexivity|]. repeat constructor. Qed.

Example fit_pooled_and_per_axis :
  Sklearn.fit (euroc_utils.reshape_column [V3 1 5 9; V3 2 4 7]%Q)
    = Ok (Sklearn.Scaler [1%Q] [9%Q]) /\
  Sklearn.fit (map vec3_list [V3 1 5 9; V3 2 4 7]%Q)
    = Ok (Sklearn.Scaler [1; 4; 7]%Q [2; 5; 9]%Q).
Proof. split; reflexivity. Qed.

Example ceil_tenth_values :
  map euroc_utils.ceil_tenth [0; 1; 10; 11; 20; 25] = [0; 1; 1; 2; 2; 3].
Proof. reflexivity. Qed.

(** Three samples and windows of length five: the loop has no index to
    run over and all three windows stay as allocated. *)
Example short_series_builds_nothing :
  euroc_utils.build_windows 0%Z (fun v => vx v) 5
    [(V3 1 2 3, V3 4 5 6); (V3 1 2 3, V3 4 5 6); (V3 1 2 3, V3 4 5 6)]%Z
    [V3 1 0 0; V3 2 0 0; V3 3 0 0]%Z
  = Ok (replicate 3 (replicate 5 (replicate 6 0%Z)), [0; 0; 0]%Z).
Proof. reflexivity. Qed.

(** ** The error monad *)

Lemma bind_Ok {A B} (f : A -> result B) (m : result A) (b : B) :
  m ≫= f = Ok b -> exists a, m = Ok a /\ f a = Ok b.
Proof. destruct m as [a|e]; [eauto | discriminate]. Qed.

Lemma getitem_Ok {A} (l : list A) (i : nat) (x : A) :
  getitem l i = Ok x <-> l !! i = Some x.
Proof. unfold getitem. destruct (l !! i); split; congruence. Qed.

Lemma getitem_lt {A} (l : list A) (i : nat) :
  i < length l -> exists x, l !! i = Some x /\ getitem l i = Ok x.
Proof.
  intros Hi. destruct (lookup_lt_is_Some_2 l i Hi) as [x Hx].
  exists x. split; [done | by apply getitem_Ok].
Qed.

Ltac inv_bind H :=
  let a := fresh "a" in
  let Ha := fresh "Ha" in
  apply bind_Ok in H; destruct H as (a & Ha & H).

(** ** The window builder *)
Section WindowFacts.
Context {A : Type}.
Variable zero : A.
Variable norm : vec3 A -> A.
Implicit Types (raw : list (imu_vec A)) (gt_v : list (vec3 A)).

Import euroc_utils.

Lemma slice_length {X} (lo hi : nat) (a : list X) :
  length (Np.slice lo hi a) = (hi - lo) `min` (length a - lo).
Proof. unfold Np.slice. by rewrite length_take, length_drop. Qed.

Lemma reshape_ok (k : nat) (x : list (imu_vec A)) :
  length x = k -> reshape k x = Ok (map row6 x).
Proof. intros <-. unfold reshape. by rewrite Nat.eqb_refl. Qed.

Lemma slice_assign_ok {X} (lo hi : nat) (a v : list X) :
  length v = length (Np.slice lo hi a) ->
  Np.slice_assign lo hi a v = Ok (take lo a ++ v ++ drop hi a).
Proof. intros E. unfold Np.slice_assign. by rewrite E, Nat.eqb_refl. Qed.

Lemma imu_img_at_ok imu_len raw i :
  i < length raw - imu_len ->
  imu_img_at zero imu_len raw i = Ok (window_of zero imu_len raw i).
Proof.
  intros Hi. unfold imu_img_at, window_of.
  destruct (i <? imu_len) eqn:Hlt.
  - apply Nat.ltb_lt in Hlt.
    rewrite reshape_ok by (rewrite slice_length; lia).
    change (Ok ?r ≫= ?f) with (f r). cbv beta.
    rewrite slice_assign_ok.
    + unfold Np.zeros, Np.slice. rewrite take_replicate, drop_replicate, drop_0.
      replace (imu_len - imu_len) with 0 by lia.
      replace ((imu_len - i - 1) `min` imu_len) with (imu_len - i - 1) by lia.
      replace (i + 1 - 0) with (i + 1) by lia.
      cbn [replicate]. by rewrite app_nil_r.
    + rewrite length_map, !slice_length. unfold Np.zeros.
      rewrite length_replicate. lia.
  - apply Nat.ltb_ge in Hlt.
    rewrite reshape_ok by (rewrite slice_length; lia).
    unfold Np.slice. by replace (i + imu_len - i) with imu_len by lia.
Qed.

(** The first [imu_len] windows are right-aligned on their anchor: zero
    rows, then the samples from the start of the series up to the anchor. *)
Lemma early_window_is_causal imu_len raw i :
  i < imu_len -> i < length raw - imu_len ->
  imu_img_at zero imu_len raw i
  = Ok (replicate (imu_len - i - 1) (zero_row zero) ++ map row6 (take (i + 1) raw)).
Proof.
  intros Hi Hn. rewrite imu_img_at_ok by done. unfold window_of.
  by rewrite (proj2 (Nat.ltb_lt _ _)) by done.
Qed.

Lemma window_of_length imu_len raw i :
  i < length raw - imu_len -> length (window_of zero imu_len raw i) = imu_len.
Proof.
  intros Hi. unfold window_of. destruct (i <? imu_len) eqn:Hlt.
  - apply Nat.ltb_lt in Hlt.
    rewrite length_app, length_replicate, length_map, length_take. lia.
  - rewrite length_map, length_take, length_drop. lia.
Qed.

Lemma loop_invariant imu_len raw gt_v k :
  k <= length raw - imu_len -> k <= length gt_v ->
  exists st,
    foldl (window_step zero norm imu_len raw gt_v)
      (Ok (Np.zeros (length raw) (Np.zeros imu_len (zero_row zero)),
           Np.zeros (length raw) zero)) (seq 0 k) = Ok st
    /\ filled zero norm imu_len raw gt_v k st.
Proof.
  induction k as [|k IH]; intros Hk Hg.
  - eexists. split; [reflexivity|]. unfold filled, Np.zeros. cbn.
    rewrite !length_replicate. repeat split; try lia.
    + apply lookup_replicate_2. lia.
    + apply lookup_replicate_2. lia.
  - destruct IH as ([T Y] & Hrun & HT & HY & Hlo & Hhi); [lia | lia |].
    rewrite seq_S, foldl_app, Hrun. cbn in *.
    rewrite imu_img_at_ok by lia. cbn.
    destruct (getitem_lt gt_v k) as (v & Hv & Hget); [lia|].
    rewrite Hget. cbn. eexists. split; [reflexivity|].
    unfold filled. cbn. rewrite !length_insert. repeat split; try done.
    + destruct (decide (i = k)) as [->|Hne].
      * rewrite list_lookup_insert_eq by lia. done.
      * rewrite list_lookup_insert_ne by done. apply Hlo. lia.
    + destruct (decide (i = k)) as [->|Hne].
      * exists v. split; [done|]. rewrite list_lookup_insert_eq by lia. done.
      * rewrite list_lookup_insert_ne by done. apply Hlo. lia.
    + rewrite list_lookup_insert_ne by lia. apply Hhi. lia.
    + rewrite list_lookup_insert_ne by lia. apply Hhi. lia.
Qed.

Lemma build_windows_filled imu_len raw gt_v :
  length gt_v = length raw ->
  exists st, build_windows zero norm imu_len raw gt_v = Ok st
             /\ filled zero norm imu_len raw gt_v (length raw - imu_len) st.
Proof. intros Hlen. apply loop_invariant; lia. Qed.

End WindowFacts.

Section WindowsOnReals.
Import euroc_utils.
Local Open Scope R_scope.

(** C1 (as the code behaves): past the first [imu_len] anchors, row [k] of
    the window anchored at [i] is sample [i + k] of the series, so every
    row but the first one is read from an index beyond the anchor. *)
Theorem window_reads_ahead (imu_len : nat) (raw : list (imu_vec R))
    (gt_v : list (vec3 R)) (i k : nat) :
  length gt_v = length raw ->
  (imu_len <= i)%nat -> (i < length raw - imu_len)%nat -> (k < imu_len)%nat ->
  exists T Y w s,
    build_windows 0 norm3 imu_len raw gt_v = Ok (T, Y) /\
    T !! i = Some w /\ raw !! (i + k)%nat = Some s /\ w !! k = Some (row6 s).
Proof.
  intros Hlen Hi Hn Hk.
  destruct (build_windows_filled 0 norm3 imu_len raw gt_v Hlen)
    as ([T Y] & Hrun & _ & _ & Hlo & _).
  destruct (Hlo i Hn) as [HT _]. cbn in HT.
  destruct (lookup_lt_is_Some_2 raw (i + k)) as [s Hs]; [lia|].
  exists T, Y, (window_of 0 imu_len raw i), s.
  repeat split; try done.
  unfold window_of. rewrite (proj2 (Nat.ltb_ge _ _)) by lia.
  rewrite list_lookup_fmap, lookup_take_lt, lookup_drop, Hs by lia. done.
Qed.

Lemma window_reads_ahead_witness :
  exists T Y w s,
    build_windows 0 norm3 2 raw5 gt5 = Ok (T, Y) /\
    T !! 2%nat = Some w /\ raw5 !! 3%nat = Some s /\ w !! 1%nat = Some (row6 s).
Proof.
  apply (window_reads_ahead 2 raw5 gt5 2 1); cbn; lia.
Defined.

(** The builder returns as many windows and targets as there are samples,
    and for every index below [n - imu_len] the window is the one the loop
    body builds and the target is the Euclidean norm of the velocity at
    that index. *)
Lemma build_windows_targets (imu_len : nat) (raw : list (imu_vec R))
    (gt_v : list (vec3 R)) :
  length gt_v = length raw ->
  exists T Y,
    build_windows 0 norm3 imu_len raw gt_v = Ok (T, Y) /\
    length T = length raw /\ length Y = length raw /\
    forall i, (i < length raw - imu_len)%nat ->
      (exists w, imu_img_at 0 imu_len raw i = Ok w /\ T !! i = Some w) /\
      (exists v, gt_v !! i = Some v /\ Y !! i = Some (norm3 v)).
Proof.
  intros Hlen.
  destruct (build_windows_filled 0 norm3 imu_len raw gt_v Hlen)
    as ([T Y] & Hrun & HT & HY & Hlo & _).
  exists T, Y. repeat split; try done.
  - exists (window_of 0 imu_len raw i). split.
    + by apply imu_img_at_ok.
    + by apply Hlo.
  - by apply Hlo.
Qed.

(** The entries the loop never reaches keep the zeros they were allocated
    with. *)
Lemma build_windows_tail (imu_len : nat) (raw : list (imu_vec R))
    (gt_v : list (vec3 R)) (T : list (list (list R))) (Y : list R) (i : nat) :
  length gt_v = length raw ->
  build_windows 0 norm3 imu_len raw gt_v = Ok (T, Y) ->
  (length raw - imu_len <= i < length raw)%nat ->
  T !! i = Some (Np.zeros imu_len (zero_row 0)) /\ Y !! i = Some 0.
Proof.
  intros Hlen Hrun Hi.
  destruct (build_windows_filled 0 norm3 imu_len raw gt_v Hlen)
    as (st & Hrun' & _ & _ & _ & Hhi).
  rewrite Hrun in Hrun'. injection Hrun' as <-. by apply Hhi.
Qed.

(** C2 (as the code behaves): the loop runs over
    [range(len(raw_imu) - imu_len)] and stops [imu_len] indices before the
    end of the series.  The builder returns as many windows and targets as
    there are samples, but at each of the last [imu_len] indices (at every
    index when the series is no longer than the window) the window it
    returns is the block of zeros it was allocated with and the target is
    0, whatever the velocity at that index. *)
Theorem trailing_windows_never_built (imu_len : nat) (raw : list (imu_vec R))
    (gt_v : list (vec3 R)) :
  length gt_v = length raw ->
  exists T Y,
    build_windows 0 norm3 imu_len raw gt_v = Ok (T, Y) /\
    length T = length raw /\ length Y = length raw /\
    forall i, (length raw - imu_len <= i < length raw)%nat ->
      T !! i = Some (replicate imu_len (replicate 6 0)) /\ Y !! i = Some 0 /\
      exists v, gt_v !! i = Some v.
Proof.
  intros Hlen.
  destruct (build_windows_filled 0 norm3 imu_len raw gt_v Hlen)
    as ([T Y] & Hrun & HT & HY & _ & Hhi).
  exists T, Y. split; [done|]. split; [done|]. split; [done|].
  intros i Hi. destruct (Hhi i Hi) as [Hw Hy]. split; [exact Hw|].
  split; [exact Hy|]. apply lookup_lt_is_Some_2. lia.
Qed.

Lemma trailing_windows_never_built_witness :
  exists T Y,
    build_windows 0 norm3 2 raw5 gt5 = Ok (T, Y) /\
    T !! 4%nat = Some (replicate 2 (replicate 6 0)) /\ Y !! 4%nat = Some 0 /\
    gt5 !! 4%nat = Some (V3 0 4 3) /\ norm3 (V3 0 4 3) <> 0.
Proof.
  destruct (trailing_windows_never_built 2 raw5 gt5) as (T & Y & Hrun & _ & _ & H);
    [reflexivity|].
  exists T, Y. split; [exact Hrun|].
  destruct (H 4%nat) as (Hw & Hy & _); [cbn; lia|].
  split; [exact Hw|]. split; [exact Hy|]. split; [reflexivity|].
  unfold norm3. cbn. intros E. apply sqrt_eq_0 in E; lra.
Defined.

(** The statement of the specification fails on this series: with five
    samples and windows of length two the target at the last index is
    zero, not the speed 5 measured there. *)
Lemma last_indices_have_no_target : ~ every_index_has_target 2 raw5 gt5.
Proof.
  intros (T & Y & Hrun & _ & _ & Hall).
  destruct (Hall 4%nat) as (v & Hv & HY); [cbn; lia|].
  injection Hv as <-.
  destruct (build_windows_tail 2 raw5 gt5 T Y 4) as [_ H0];
    [reflexivity | done | cbn; lia |].
  rewrite H0 in HY. injection HY as HY.
  unfold norm3 in HY. cbn in HY. symmetry in HY.
  apply sqrt_eq_0 in HY; lra.
Qed.

End WindowsOnReals.

(** ** Alignment *)

Lemma Qltb_lt (x y : Q) : Qltb x y = true <-> (x < y)%Q.
Proof. unfold Qltb, Qlt. apply Z.ltb_lt. Qed.

Lemma in_span_spec (lo hi ts : Q) :
  in_span lo hi ts = true <-> (lo < ts)%Q /\ (ts < hi)%Q.
Proof. unfold in_span. rewrite andb_true_iff, !Qltb_lt. tauto. Qed.

Lemma traverse_Ok {A B} (f : A -> result B) (l : list A) :
  Forall (fun x => returns (f x)) l ->
  exists ys, traverse f l = Ok ys /\ length ys = length l.
Proof.
  induction 1 as [|x l [y Hy] _ (ys & Hys & Hlen)]; cbn.
  - by exists [].
  - rewrite Hy. cbn. rewrite Hys. cbn. exists (y :: ys). cbn. by rewrite Hlen.
Qed.

Lemma traverse_Forall {A B} (P : B -> Prop) (f : A -> result B) (l : list A) ys :
  (forall x y, x ∈ l -> f x = Ok y -> P y) ->
  traverse f l = Ok ys -> Forall P ys.
Proof.
  revert ys. induction l as [|x l IH]; cbn; intros ys HP H.
  - injection H as <-. constructor.
  - inv_bind H. inv_bind H. injection H as <-. constructor.
    + eapply HP; [|done]. by left.
    + apply IH; [|done]. intros ? ? ?. apply HP. by right.
Qed.

(** A knot sequence brackets every abscissa between its first and its last
    knot, whatever the order of the knots in between. *)
Lemma interp_at_returns (xs ys : list Q) (x_new x_first x_last : Q) :
  length xs = length ys ->
  head xs = Some x_first -> last xs = Some x_last ->
  (x_first < x_new)%Q -> (x_new < x_last)%Q ->
  returns (Scipy.interp_at xs ys x_new).
Proof.
  revert ys x_first.
  induction xs as [|x0 xs IH]; intros ys x_first Hlen Hhd Hlast Hlo Hhi; [done|].
  injection Hhd as ->.
  destruct xs as [|x1 xs].
  { injection Hlast as ->. exfalso. apply (Qlt_irrefl x_new). by etrans. }
  destruct ys as [|y0 [|y1 ys]]; try done.
  cbn [Scipy.interp_at].
  destruct (Qle_bool x_first x_new && Qle_bool x_new x1) eqn:Hb; [by eexists|].
  apply andb_false_iff in Hb.
  assert (Hx1 : (x1 < x_new)%Q).
  { destruct Hb as [Hb|Hb].
    - exfalso. apply Qlt_le_weak, Qle_bool_iff in Hlo. congruence.
    - apply Qnot_le_lt. intros Hle. apply Qle_bool_iff in Hle. congruence. }
  eapply (IH (y1 :: ys) x1); try done. cbn in *. lia.
Qed.

Lemma last_item_Ok {A} (l : list A) (x : A) :
  last_item l = Ok x <-> last l = Some x.
Proof. unfold last_item. destruct (last l); split; congruence. Qed.

Lemma first_item_Ok {A} (l : list A) (x : A) :
  first_item l = Ok x <-> head l = Some x.
Proof.
  unfold first_item. rewrite getitem_Ok. by destruct l.
Qed.

Lemma interp1d_Ok (xs ys : list Q) :
  2 <= length xs -> length xs = length ys ->
  Scipy.interp1d xs ys = Ok (Scipy.interp_at xs ys).
Proof.
  intros H2 Hlen. unfold Scipy.interp1d.
  rewrite (proj2 (Nat.ltb_ge _ _)) by lia.
  by rewrite (proj2 (Nat.eqb_eq _ _)) by lia.
Qed.

(** The samples the mask keeps are those strictly inside the span. *)
Lemma trimmed_inside {A} (lo hi : Q) (l : list (IMU.t A)) :
  Forall (fun s => (lo < IMU.timestamp s)%Q /\ (IMU.timestamp s < hi)%Q)
    (List.filter (fun s => in_span lo hi (IMU.timestamp s)) l).
Proof.
  apply Forall_forall. intros s Hs. apply list_elem_of_In, filter_In in Hs.
  destruct Hs as [_ Hs]. by apply in_span_spec in Hs.
Qed.

Lemma trimmed_drops {A} (lo hi : Q) (l : list (IMU.t A)) (s : IMU.t A) :
  (IMU.timestamp s <= lo)%Q \/ (hi <= IMU.timestamp s)%Q ->
  s ∉ List.filter (fun s => in_span lo hi (IMU.timestamp s)) l.
Proof.
  intros Hout Hs. apply list_elem_of_In, filter_In in Hs.
  destruct Hs as [_ Hs]. apply in_span_spec in Hs.
  destruct Hs as [H1 H2], Hout as [H|H].
  - by apply Qlt_not_le in H1.
  - by apply Qlt_not_le in H2.
Qed.

Lemma euroc_alignment_runs (raw : list (IMU.t Q)) (gt : list (GT.t Q)) :
  2 <= length gt ->
  exists t_first t_last v,
    head (map GT.timestamp gt) = Some t_first /\
    last (map GT.timestamp gt) = Some t_last /\
    euroc_utils.interpolate_ground_truth raw gt =
      Ok (List.filter (fun s => in_span t_first t_last (IMU.timestamp s)) raw, v)
    /\ length v =
       length (List.filter (fun s => in_span t_first t_last (IMU.timestamp s)) raw).
Proof.
  intros H2.
  destruct (head (map GT.timestamp gt)) as [t_first|] eqn:Hhd;
    [|destruct gt; [cbn in H2; lia | done]].
  destruct (last (map GT.timestamp gt)) as [t_last|] eqn:Hlast;
    [|apply last_None in Hlast; destruct gt; [cbn in H2; lia | done]].
  unfold euroc_utils.interpolate_ground_truth.
  rewrite (proj2 (first_item_Ok _ _) Hhd), (proj2 (last_item_Ok _ _) Hlast).
  cbn [mbind result_bind].
  rewrite !interp1d_Ok by (rewrite ?length_map; lia).
  cbn [mbind result_bind].
  set (kept := List.filter _ raw).
  edestruct (traverse_Ok
    (fun ts => x ← Scipy.interp_at (map GT.timestamp gt) (map vx (map GT.vel gt)) ts;
               y ← Scipy.interp_at (map GT.timestamp gt) (map vy (map GT.vel gt)) ts;
               z ← Scipy.interp_at (map GT.timestamp gt) (map vz (map GT.vel gt)) ts;
               Ok (V3 x y z)) (map IMU.timestamp kept)) as (v & Hv & Hlen).
  - apply Forall_forall. intros ts Hts.
    apply list_elem_of_fmap in Hts as (s & -> & Hs).
    pose proof (trimmed_inside t_first t_last raw) as Hin.
    rewrite Forall_forall in Hin. destruct (Hin s Hs) as [Hlo Hhi].
    destruct (interp_at_returns (map GT.timestamp gt) (map vx (map GT.vel gt))
                (IMU.timestamp s) t_first t_last) as [x Hx];
      [by rewrite !length_map|done..|].
    destruct (interp_at_returns (map GT.timestamp gt) (map vy (map GT.vel gt))
                (IMU.timestamp s) t_first t_last) as [y Hy];
      [by rewrite !length_map|done..|].
    destruct (interp_at_returns (map GT.timestamp gt) (map vz (map GT.vel gt))
                (IMU.timestamp s) t_first t_last) as [z Hz];
      [by rewrite !length_map|done..|].
    rewrite Hx, Hy, Hz. by eexists.
  - exists t_first, t_last, v. rewrite Hv. cbn.
    rewrite length_map in Hlen. done.
Qed.

Lemma euroc_alignment_trims (raw : list (IMU.t Q)) (gt : list (GT.t Q)) imu' v :
  euroc_utils.interpolate_ground_truth raw gt = Ok (imu', v) ->
  exists t_first t_last,
    head (map GT.timestamp gt) = Some t_first /\
    last (map GT.timestamp gt) = Some t_last /\
    imu' = List.filter (fun s => in_span t_first t_last (IMU.timestamp s)) raw.
Proof.
  unfold euroc_utils.interpolate_ground_truth. intros H.
  apply bind_Ok in H as (t_first & Hfirst & H).
  apply bind_Ok in H as (t_last & Hlast & H).
  apply bind_Ok in H as (fx & _ & H).
  apply bind_Ok in H as (fy & _ & H).
  apply bind_Ok in H as (fz & _ & H).
  apply bind_Ok in H as (vi & _ & H).
  injection H as <- <-.
  exists t_first, t_last.
  by rewrite <- first_item_Ok, <- last_item_Ok.
Qed.

Lemma unroll_timestamps {A} (gt : list (GT.t A)) :
  map snd (map GT.unroll gt) = map GT.timestamp gt.
Proof. rewrite map_map. by apply map_ext. Qed.

Lemma abc_alignment_trims {A}
    (interp : list Q -> list Q -> list (vec3 A) -> result (list (vec3 A)))
    (interp_q : list Q -> list Q -> list (quat A) -> result (list (quat A)))
    (self self' : inertial_ABCs.InertialDataset A) imu gt :
  inertial_ABCs.imu_data self = Some imu ->
  inertial_ABCs.gt_data self = Some gt ->
  inertial_ABCs.interpolate_ground_truth interp interp_q self = Ok self' ->
  exists t_first t_last,
    head (map GT.timestamp gt) = Some t_first /\
    last (map GT.timestamp gt) = Some t_last /\
    inertial_ABCs.imu_data self' =
      Some (List.filter (fun s => in_span t_first t_last (IMU.timestamp s)) imu).
Proof.
  unfold inertial_ABCs.interpolate_ground_truth. intros -> -> H.
  cbn [inertial_ABCs.not_none mbind result_bind] in H.
  apply bind_Ok in H as (gts & Hgts & H).
  destruct (decide (map GT.unroll gt = [])); [done|].
  injection Hgts as <-. rewrite unroll_timestamps in H.
  apply bind_Ok in H as (t_first & Hfirst & H).
  apply bind_Ok in H as (t_last & Hlast & H).
  do 6 (apply bind_Ok in H as (? & _ & H)).
  injection H as <-. cbn.
  exists t_first, t_last.
  by rewrite <- first_item_Ok, <- last_item_Ok.
Qed.

(** C3: both alignment routines keep exactly the IMU samples whose
    timestamp is strictly greater than the first and strictly less than the
    last ground-truth timestamp; a sample at or outside either end does not
    survive.  The EuRoC routine returns whenever there are two ground-truth
    samples. *)
Theorem alignment_strictly_inside_span :
  (forall (raw : list (IMU.t Q)) (gt : list (GT.t Q)),
     (2 <= length gt -> returns (euroc_utils.interpolate_ground_truth raw gt)) /\
     forall imu' v,
       euroc_utils.interpolate_ground_truth raw gt = Ok (imu', v) ->
       exists t_first t_last,
         head (map GT.timestamp gt) = Some t_first /\
         last (map GT.timestamp gt) = Some t_last /\
         Forall (fun s => (t_first < IMU.timestamp s)%Q /\
                          (IMU.timestamp s < t_last)%Q) imu' /\
         forall s, (IMU.timestamp s <= t_first)%Q \/ (t_last <= IMU.timestamp s)%Q ->
                   s ∉ imu') /\
  (forall (A : Type) interp interp_q
          (self self' : inertial_ABCs.InertialDataset A) imu gt,
     inertial_ABCs.imu_data self = Some imu ->
     inertial_ABCs.gt_data self = Some gt ->
     inertial_ABCs.interpolate_ground_truth interp interp_q self = Ok self' ->
     exists t_first t_last imu',
       head (map GT.timestamp gt) = Some t_first /\
       last (map GT.timestamp gt) = Some t_last /\
       inertial_ABCs.imu_data self' = Some imu' /\
       Forall (fun s => (t_first < IMU.timestamp s)%Q /\
                        (IMU.timestamp s < t_last)%Q) imu' /\
       forall s, (IMU.timestamp s <= t_first)%Q \/ (t_last <= IMU.timestamp s)%Q ->
                 s ∉ imu').
Proof.
  split.
  - intros raw gt. split.
    + intros H2. destruct (euroc_alignment_runs raw gt H2) as (? & ? & v & _ & _ & H & _).
      by eexists.
    + intros imu' v H.
      destruct (euroc_alignment_trims raw gt imu' v H) as (t_first & t_last & Hf & Hl & ->).
      exists t_first, t_last. repeat split; try done.
      * apply trimmed_inside.
      * intros s. apply trimmed_drops.
  - intros A interp interp_q self self' imu gt Himu Hgt H.
    destruct (abc_alignment_trims interp interp_q self self' imu gt Himu Hgt H)
      as (t_first & t_last & Hf & Hl & Hd).
    exists t_first, t_last. eexists. repeat split; try done.
    + apply trimmed_inside.
    + intros s. apply trimmed_drops.
Qed.

(** ** Orientation interpolation *)
Section Slerp.
Import data_utils.
Local Open Scope R_scope.

Lemma qdot_self_nonneg (q : quat R) : 0 <= qdot q q.
Proof. unfold qdot. nra. Qed.

Lemma unit_quat_dot (q : quat R) : unit_quat q <-> qdot q q = 1.
Proof.
  unfold unit_quat, qnorm. split; intros H.
  - rewrite <- (sqrt_sqrt (qdot q q)) by apply qdot_self_nonneg.
    rewrite H. lra.
  - rewrite H. apply sqrt_1.
Qed.

Lemma qdot_scale (k : R) (q : quat R) :
  qdot (qscale k q) (qscale k q) = k * k * qdot q q.
Proof. unfold qdot, qscale. cbn. ring. Qed.

Lemma qdot_combination (a b : R) (p q : quat R) :
  qdot (qadd (qscale a p) (qscale b q)) (qadd (qscale a p) (qscale b q))
  = a * a * qdot p p + 2 * (a * b) * qdot p q + b * b * qdot q q.
Proof. unfold qdot, qadd, qscale. cbn. ring. Qed.

Lemma qdot_neg_r (p q : quat R) : qdot p (qneg q) = - qdot p q.
Proof. unfold qdot, qneg. cbn. ring. Qed.

Lemma qdot_neg_neg (q : quat R) : qdot (qneg q) (qneg q) = qdot q q.
Proof. unfold qdot, qneg. cbn. ring. Qed.

(** Cauchy-Schwarz for two unit quaternions. *)
Lemma qdot_unit_bounds (p q : quat R) :
  qdot p p = 1 -> qdot q q = 1 -> -1 <= qdot p q <= 1.
Proof.
  unfold qdot. intros Hp Hq.
  pose proof (Rle_0_sqr (qw p - qw q)). pose proof (Rle_0_sqr (qx p - qx q)).
  pose proof (Rle_0_sqr (qy p - qy q)). pose proof (Rle_0_sqr (qz p - qz q)).
  pose proof (Rle_0_sqr (qw p + qw q)). pose proof (Rle_0_sqr (qx p + qx q)).
  pose proof (Rle_0_sqr (qy p + qy q)). pose proof (Rle_0_sqr (qz p + qz q)).
  unfold Rsqr in *. lra.
Qed.

(** Renormalizing a quaternion that is not zero gives a unit quaternion. *)
Lemma normalize_unit (q : quat R) : qdot q q <> 0 -> unit_quat (normalize q).
Proof.
  intros Hq. apply unit_quat_dot. unfold normalize. rewrite qdot_scale.
  unfold qnorm.
  assert (Hpos : 0 < qdot q q) by (pose proof (qdot_self_nonneg q); lra).
  assert (Hs : sqrt (qdot q q) <> 0).
  { intros E. apply sqrt_eq_0 in E; lra. }
  rewrite <- (sqrt_sqrt (qdot q q)) at 3 by lra.
  by field.
Qed.

(** The weights of the great-circle formula: the squared norm of the
    weighted sum is [sin^2 (A + B)] over [sin^2 theta]. *)
Lemma great_circle_identity (A B : R) :
  sin A * sin A + 2 * (sin A * sin B) * cos (A + B) + sin B * sin B
  = sin (A + B) * sin (A + B).
Proof.
  rewrite cos_plus, sin_plus.
  pose proof (sin2_cos2 A) as HA. pose proof (sin2_cos2 B) as HB.
  unfold Rsqr in HA, HB.
  assert (HcA : cos A * cos A = 1 - sin A * sin A) by lra.
  assert (HcB : cos B * cos B = 1 - sin B * sin B) by lra.
  transitivity
    (sin A * sin A * (cos B * cos B) + 2 * (sin A * cos B) * (cos A * sin B)
     + (cos A * cos A) * (sin B * sin B)).
  - rewrite HcA, HcB. ring.
  - ring.
Qed.

Lemma weighted_sum_unit (p q : quat R) (t theta : R) :
  qdot p p = 1 -> qdot q q = 1 -> qdot p q = cos theta -> sin theta <> 0 ->
  qdot (qadd (qscale (sin ((1 - t) * theta) / sin theta) p)
             (qscale (sin (t * theta) / sin theta) q))
       (qadd (qscale (sin ((1 - t) * theta) / sin theta) p)
             (qscale (sin (t * theta) / sin theta) q)) = 1.
Proof.
  intros Hp Hq Hpq Hs. rewrite qdot_combination, Hp, Hq, Hpq.
  pose proof (great_circle_identity ((1 - t) * theta) (t * theta)) as Hid.
  replace ((1 - t) * theta + t * theta) with theta in Hid by ring.
  set (a := sin ((1 - t) * theta)) in *. set (b := sin (t * theta)) in *.
  set (s := sin theta) in *. set (c := cos theta) in *.
  transitivity ((a * a + 2 * (a * b) * c + b * b) / (s * s)).
  - by field.
  - rewrite Hid. by field.
Qed.

(** Spherical interpolation of two unit quaternions is a unit quaternion,
    at every fraction. *)
Lemma slerp_unit (q0 q1 : quat R) (t : R) :
  unit_quat q0 -> unit_quat q1 -> unit_quat (slerp q0 q1 t).
Proof.
  intros H0 H1. apply unit_quat_dot in H0, H1. unfold slerp.
  apply normalize_unit.
  set (d := qdot q0 q1).
  set (q1' := if Rlt_dec d 0 then qneg q1 else q1).
  set (d' := if Rlt_dec d 0 then - d else d).
  assert (H1' : qdot q1' q1' = 1).
  { unfold q1'. destruct (Rlt_dec d 0); [by rewrite qdot_neg_neg | done]. }
  assert (Hd' : qdot q0 q1' = d').
  { unfold q1', d'. destruct (Rlt_dec d 0); [by rewrite qdot_neg_r | done]. }
  assert (Hb : -1 <= d' <= 1).
  { rewrite <- Hd'. by apply qdot_unit_bounds. }
  destruct (Req_dec_T (sin (acos d')) 0) as [E|E].
  - rewrite H0. lra.
  - assert (Hc : qdot q0 q1' = cos (acos d')).
    { rewrite Hd'. symmetry. by apply cos_acos. }
    rewrite (weighted_sum_unit q0 q1' t (acos d') H0 H1' Hc E). lra.
Qed.

Lemma slerp_at_unit (ts : list Q) (qs : list (quat R)) (x : Q) (q : quat R) :
  Forall unit_quat qs -> slerp_at ts qs x = Ok q -> unit_quat q.
Proof.
  revert qs. induction ts as [|t_lo ts IH]; intros qs Hqs H; [done|].
  destruct ts as [|t_hi ts]; [done|].
  destruct qs as [|q_lo [|q_hi qs]]; try done.
  cbn [slerp_at] in H.
  destruct (Qle_bool t_lo x && Qle_bool x t_hi).
  - injection H as <-.
    apply Forall_cons in Hqs as [Hlo Hqs]. apply Forall_cons in Hqs as [Hhi _].
    by apply slerp_unit.
  - apply (IH (q_hi :: qs)); [|done]. by apply Forall_cons in Hqs as [_ Hqs].
Qed.

Lemma slerp_at_returns (ts : list Q) (qs : list (quat R)) (x t_first t_last : Q) :
  length ts = length qs ->
  head ts = Some t_first -> last ts = Some t_last ->
  (t_first < x)%Q -> (x < t_last)%Q ->
  returns (slerp_at ts qs x).
Proof.
  revert qs t_first.
  induction ts as [|t0 ts IH]; intros qs t_first Hlen Hhd Hlast Hlo Hhi; [done|].
  injection Hhd as ->.
  destruct ts as [|t1 ts].
  { injection Hlast as ->. exfalso. apply (Qlt_irrefl x). by etrans. }
  destruct qs as [|p0 [|p1 qs]]; try done.
  cbn [slerp_at].
  destruct (Qle_bool t_first x && Qle_bool x t1) eqn:Hb; [by eexists|].
  apply andb_false_iff in Hb.
  assert (Hx1 : (t1 < x)%Q).
  { destruct Hb as [Hb|Hb].
    - exfalso. apply Qlt_le_weak, Qle_bool_iff in Hlo. congruence.
    - apply Qnot_le_lt. intros Hle. apply Qle_bool_iff in Hle. congruence. }
  eapply (IH (p1 :: qs) t1); try done. cbn in *. lia.
Qed.

End Slerp.

Section OrientationOutputs.
Import data_utils.

Lemma interpolate_ts_quat_unit (ts new_ts : list Q) (qs out : list (quat R)) :
  Forall unit_quat qs ->
  interpolate_ts_quat ts new_ts qs = Ok out -> Forall unit_quat out.
Proof.
  intros Hqs H. eapply traverse_Forall; [|exact H].
  intros x q _ Hq. by eapply slerp_at_unit.
Qed.

(** Inside the ground-truth span every new timestamp has a bracket, so the
    interpolation returns one orientation per timestamp. *)
Lemma interpolate_ts_quat_returns (ts new_ts : list Q) (qs : list (quat R))
    (t_first t_last : Q) :
  length ts = length qs ->
  head ts = Some t_first -> last ts = Some t_last ->
  Forall (fun x => (t_first < x)%Q /\ (x < t_last)%Q) new_ts ->
  exists out, interpolate_ts_quat ts new_ts qs = Ok out /\
              length out = length new_ts.
Proof.
  intros Hlen Hhd Hlast Hin. apply traverse_Ok.
  eapply Forall_impl; [exact Hin|]. intros x [Hlo Hhi].
  by eapply slerp_at_returns.
Qed.

End OrientationOutputs.

(** ** Filtering *)

Lemma lfilter_run_length (b a_tail : list Q) (a0 : Q) (xh yh x : list Q) :
  length (Scipy.lfilter_run b a_tail a0 xh yh x) = length x.
Proof.
  revert xh yh. induction x as [|x_n x IH]; intros xh yh; cbn; [done|].
  by rewrite IH.
Qed.

Lemma lfilter1_length (b a x y : list Q) :
  Scipy.lfilter1 b a x = Ok y -> length y = length x.
Proof.
  unfold Scipy.lfilter1. destruct a as [|a0 a_tail]; [done|].
  destruct (Qeq_bool a0 0); [done|].
  intros [= <-]. apply lfilter_run_length.
Qed.

Lemma lfilter_length (b a : list Q) (x y : list (vec3 Q)) :
  Scipy.lfilter b a x = Ok y -> length y = length x.
Proof.
  unfold Scipy.lfilter. intros H.
  apply bind_Ok in H as (fx & Hx & H).
  apply bind_Ok in H as (fy & Hy & H).
  apply bind_Ok in H as (fz & Hz & H).
  injection H as <-.
  apply lfilter1_length in Hx, Hy, Hz.
  rewrite length_zip_with, length_zip, Hx, Hy, Hz, !length_map. lia.
Qed.

(** Every channel of the filtered array is the filter run on that channel
    of the input: the order of the channels is kept. *)
Lemma lfilter_channels (b a : list Q) (x y : list (vec3 Q)) :
  Scipy.lfilter b a x = Ok y ->
  Scipy.lfilter1 b a (map vx x) = Ok (map vx y) /\
  Scipy.lfilter1 b a (map vy x) = Ok (map vy y) /\
  Scipy.lfilter1 b a (map vz x) = Ok (map vz y).
Proof.
  unfold Scipy.lfilter. intros H.
  apply bind_Ok in H as (fx & Hx & H).
  apply bind_Ok in H as (fy & Hy & H).
  apply bind_Ok in H as (fz & Hz & H).
  injection H as <-.
  pose proof (lfilter1_length _ _ _ _ Hx) as Lx.
  pose proof (lfilter1_length _ _ _ _ Hy) as Ly.
  pose proof (lfilter1_length _ _ _ _ Hz) as Lz.
  rewrite length_map in Lx, Ly, Lz.
  assert (E : forall (fx fy fz : list Q),
             length fx = length fy -> length fy = length fz ->
             let y := zip_with (fun p z => V3 (fst p) (snd p) z) (zip fx fy) fz in
             map vx y = fx /\ map vy y = fy /\ map vz y = fz).
  { clear. induction fx as [|u fx IH]; intros [|v fy] [|w fz]; cbn; try done.
    intros [= L1] [= L2]. destruct (IH fy fz L1 L2) as (-> & -> & ->). done. }
  destruct (E fx fy fz) as (-> & -> & ->); [lia | lia | done].
Qed.

Section EurocPreProcess.
Variable butter : nat -> Q -> result (list Q * list Q).

(** What [pre_process_data] returns, step by step. *)
Lemma pre_process_data_Ok (raw : list (IMU.t Q)) (gt_v : list (vec3 Q))
    filt gt' scale_g scale_a :
  euroc_utils.pre_process_data butter raw gt_v = Ok (filt, gt', (scale_g, scale_a)) ->
  exists b_bw a_bw filt_acc,
    butter 10 euroc_utils.w0 = Ok (b_bw, a_bw) /\
    raw <> [] /\
    Scipy.lfilter b_bw a_bw (map IMU.acc raw) = Ok filt_acc /\
    filt = zip (map IMU.gyro raw) filt_acc /\
    length filt_acc = length raw /\
    gt' = gt_v /\
    Sklearn.fit (euroc_utils.reshape_column (map IMU.gyro raw)) = Ok scale_g /\
    Sklearn.fit (euroc_utils.reshape_column filt_acc) = Ok scale_a.
Proof.
  unfold euroc_utils.pre_process_data. intros H.
  apply bind_Ok in H as ([b_bw a_bw] & Hb & H).
  destruct (decide (map _ raw = [])) as [|Hne]; [done|].
  apply bind_Ok in H as (filt_acc & Hf & H).
  rewrite !map_map in Hf. cbn in Hf.
  pose proof (lfilter_length _ _ _ _ Hf) as Hlen. rewrite length_map in Hlen.
  cbv zeta in H. destruct (length gt_v <? 2); [done|].
  rewrite !map_map in H. cbn in H.
  rewrite fst_zip, snd_zip in H by (rewrite length_map; lia).
  apply bind_Ok in H as (sg & Hg & H).
  apply bind_Ok in H as (sa & Ha & H).
  injection H as <- <- <- <-.
  exists b_bw, a_bw, filt_acc. repeat split; try done.
  intros ->. by apply Hne.
Qed.

(** The speed curve of the figure needs two velocities. *)
Lemma pre_process_data_velocities (raw : list (IMU.t Q)) (gt_v : list (vec3 Q)) r :
  euroc_utils.pre_process_data butter raw gt_v = Ok r -> 2 <= length gt_v.
Proof.
  unfold euroc_utils.pre_process_data. intros H.
  apply bind_Ok in H as ([b_bw a_bw] & Hb & H).
  destruct (decide (map _ raw = [])) as [|Hne]; [done|].
  apply bind_Ok in H as (filt_acc & Hf & H). cbv zeta in H.
  destruct (length gt_v <? 2) eqn:E; [done|]. by apply Nat.ltb_ge in E.
Qed.

End EurocPreProcess.

Section AbcPreprocessing.
Import inertial_ABCs.
Variable butter : nat -> Q -> result (list Q * list Q).
Variable filter_with_coeffs :
  list Q -> list Q -> list (vec3 Q) -> Q -> bool -> result (list (vec3 Q)).

Lemma set_gyro_column (m m' : list imu_row) (c : list (vec3 Q)) :
  set_imu_column 0 m c = Ok m' ->
  length c = length m /\ imu_column 0 m' = c /\
  imu_column 1 m' = imu_column 1 m /\ map snd m' = map snd m.
Proof.
  unfold set_imu_column. destruct (length c =? length m) eqn:E; [|done].
  apply Nat.eqb_eq in E. intros [= <-]. split; [done|].
  revert c E. induction m as [|r m IH]; intros [|v c] E; try done.
  injection E as E. destruct (IH c E) as (H0 & H1 & H2).
  repeat split; cbn; f_equal; assumption.
Qed.

Lemma set_acc_column (m m' : list imu_row) (c : list (vec3 Q)) :
  set_imu_column 1 m c = Ok m' ->
  length c = length m /\ imu_column 1 m' = c /\
  imu_column 0 m' = imu_column 0 m /\ map snd m' = map snd m.
Proof.
  unfold set_imu_column. destruct (length c =? length m) eqn:E; [|done].
  apply Nat.eqb_eq in E. intros [= <-]. split; [done|].
  revert c E. induction m as [|r m IH]; intros [|v c] E; try done.
  injection E as E. destruct (IH c E) as (H0 & H1 & H2).
  repeat split; cbn; f_equal; assumption.
Qed.

Lemma unroll_columns (imu : list (IMU.t Q)) :
  imu_column 0 (map IMU.unroll imu) = map IMU.gyro imu /\
  imu_column 1 (map IMU.unroll imu) = map IMU.acc imu /\
  map snd (map IMU.unroll imu) = map IMU.timestamp imu.
Proof. unfold imu_column. rewrite !map_map. done. Qed.

(** What [basic_preprocessing] returns, step by step. *)
Lemma basic_preprocessing_Ok (self : InertialDataset Q) (filter_freq : Q)
    imu gt fs rows gts scale_g scale_a :
  imu_data self = Some imu -> gt_data self = Some gt ->
  sampling_freq self = Some fs ->
  basic_preprocessing butter filter_with_coeffs self filter_freq
    = Ok (rows, gts, (scale_g, scale_a)) ->
  exists b_bw a_bw,
    design butter fs filter_freq = Ok (b_bw, a_bw) /\
    imu <> [] /\
    filter_with_coeffs a_bw b_bw (map IMU.gyro imu) fs (plot_stft self)
      = Ok (imu_column 0 rows) /\
    filter_with_coeffs a_bw b_bw (map IMU.acc imu) fs (plot_stft self)
      = Ok (imu_column 1 rows) /\
    map snd rows = map IMU.timestamp imu /\
    length rows = length imu /\
    gts = map GT.unroll gt /\
    Sklearn.fit (map vec3_list (imu_column 0 rows)) = Ok scale_g /\
    Sklearn.fit (map vec3_list (imu_column 1 rows)) = Ok scale_a.
Proof.
  unfold basic_preprocessing. intros -> -> -> H.
  apply bind_Ok in H as (ch & Hch & H).
  destruct (decide (map IMU.unroll imu = [])) as [|Hne]; [done|].
  injection Hch as <-.
  apply bind_Ok in H as ([b_bw a_bw] & Hd & H).
  apply bind_Ok in H as (rows' & Hloop & H).
  apply bind_Ok in H as (sg & Hg & H).
  apply bind_Ok in H as (sa & Ha & H).
  apply bind_Ok in H as (dir & _ & H).
  injection H as <- <- <- <-.
  change (seq 0 ((3 - 1) `min` 2)) with [0; 1] in Hloop. cbn [foldl] in Hloop.
  apply bind_Ok in Hloop as (m1 & Hm1 & Hloop).
  apply bind_Ok in Hm1 as (m0 & [= <-] & Hm1).
  apply bind_Ok in Hm1 as (fg & Hfg & Hset0).
  apply bind_Ok in Hloop as (fa & Hfa & Hset1).
  destruct (unroll_columns imu) as (U0 & U1 & U2).
  apply set_gyro_column in Hset0 as (L0 & G0 & A0 & T0).
  apply set_acc_column in Hset1 as (L1 & A1 & G1 & T1).
  rewrite U0 in Hfg. rewrite A0, U1 in Hfa.
  assert (Hlen : length rows' = length imu).
  { transitivity (length (map snd rows')); [by rewrite length_map|].
    by rewrite T1, T0, U2, length_map. }
  assert (Hts : map snd rows' = map IMU.timestamp imu) by by rewrite T1, T0.
  assert (imu <> []) by (intros ->; by apply Hne).
  rewrite <- G0, <- G1 in Hfg. rewrite <- A1 in Hfa.
  by exists b_bw, a_bw.
Qed.

End AbcPreprocessing.

(** ** Scaling *)

Lemma list_min_le (x0 : Q) (xs : list Q) (x : Q) :
  x ∈ x0 :: xs -> (list_min x0 xs <= x)%Q.
Proof.
  unfold list_min. revert x0. induction xs as [|y xs IH]; intros x0 Hx; cbn.
  - apply list_elem_of_singleton in Hx as ->. apply Qle_refl.
  - assert (Hacc : forall a, (foldl Qmin a xs <= a)%Q).
    { clear. induction xs as [|z xs IH]; intros a; cbn; [apply Qle_refl|].
      eapply Qle_trans; [apply IH | apply Q.le_min_l]. }
    apply elem_of_cons in Hx as [->|Hx].
    + eapply Qle_trans; [apply Hacc | apply Q.le_min_l].
    + apply elem_of_cons in Hx as [->|Hx].
      * eapply Qle_trans; [apply Hacc | apply Q.le_min_r].
      * apply IH. by right.
Qed.

Lemma list_min_elem (x0 : Q) (xs : list Q) : list_min x0 xs ∈ x0 :: xs.
Proof.
  unfold list_min. revert x0. induction xs as [|y xs IH]; intros x0; cbn.
  - by left.
  - specialize (IH (Qmin x0 y)). apply elem_of_cons in IH as [->|IH].
    + unfold Qmin, GenericMinMax.gmin.
      destruct (x0 ?= y)%Q; [by left | by left | right; by left].
    + by do 2 right.
Qed.

Lemma list_max_ge (x0 : Q) (xs : list Q) (x : Q) :
  x ∈ x0 :: xs -> (x <= list_max x0 xs)%Q.
Proof.
  unfold list_max. revert x0. induction xs as [|y xs IH]; intros x0 Hx; cbn.
  - apply list_elem_of_singleton in Hx as ->. apply Qle_refl.
  - assert (Hacc : forall a, (a <= foldl Qmax a xs)%Q).
    { clear. induction xs as [|z xs IH]; intros a; cbn; [apply Qle_refl|].
      eapply Qle_trans; [apply Q.le_max_l | apply IH]. }
    apply elem_of_cons in Hx as [->|Hx].
    + eapply Qle_trans; [apply Q.le_max_l | apply Hacc].
    + apply elem_of_cons in Hx as [->|Hx].
      * eapply Qle_trans; [apply Q.le_max_r | apply Hacc].
      * apply IH. by right.
Qed.

Lemma list_max_elem (x0 : Q) (xs : list Q) : list_max x0 xs ∈ x0 :: xs.
Proof.
  unfold list_max. revert x0. induction xs as [|y xs IH]; intros x0; cbn.
  - by left.
  - specialize (IH (Qmax x0 y)). apply elem_of_cons in IH as [->|IH].
    + unfold Qmax, GenericMinMax.gmax.
      destruct (x0 ?= y)%Q; [by left | right; by left | by left].
    + by do 2 right.
Qed.



Lemma fit_raises (X : list (list Q)) (e : exn) :
  Sklearn.fit X = Raise e -> e = ValueError.
Proof. destruct X; cbn; congruence. Qed.


Lemma basic_preprocessing_set butter filter_with_coeffs
    (self : inertial_ABCs.InertialDataset Q) (filter_freq : Q) r :
  inertial_ABCs.basic_preprocessing butter filter_with_coeffs self filter_freq = Ok r ->
  exists imu gt fs,
    inertial_ABCs.imu_data self = Some imu /\
    inertial_ABCs.gt_data self = Some gt /\
    inertial_ABCs.sampling_freq self = Some fs.
Proof.
  unfold inertial_ABCs.basic_preprocessing.
  destruct (inertial_ABCs.imu_data self) as [imu|]; [|done].
  destruct (inertial_ABCs.gt_data self) as [gt|]; [|done].
  destruct (inertial_ABCs.sampling_freq self) as [fs|]; [|done].
  intros _. by exists imu, gt, fs.
Qed.




(** C6 (as the code behaves): [pre_process_data] runs the filter on the
    accelerometer group only; the gyroscope group of what it returns is the
    gyroscope group it was given. *)
Theorem pre_process_data_leaves_gyro butter (raw : list (IMU.t Q))
    gt_v filt gt' scalers :
  euroc_utils.pre_process_data butter raw gt_v = Ok (filt, gt', scalers) ->
  map fst filt = map IMU.gyro raw /\
  exists b_bw a_bw,
    butter 10 euroc_utils.w0 = Ok (b_bw, a_bw) /\
    Scipy.lfilter b_bw a_bw (map IMU.acc raw) = Ok (map snd filt).
Proof.
  destruct scalers as [sg sa]. intros H.
  apply pre_process_data_Ok in H
    as (b & a & filt_acc & Hb & _ & Hf & -> & Hlen & _).
  rewrite fst_zip, snd_zip by (rewrite length_map; lia).
  split; [done|]. by exists b, a.
Qed.

(** The sibling routine filters both groups, each on its own. *)
Lemma basic_preprocessing_filters_both butter filter_with_coeffs
    (self : inertial_ABCs.InertialDataset Q) filter_freq imu fs rows gts scalers :
  inertial_ABCs.imu_data self = Some imu ->
  inertial_ABCs.sampling_freq self = Some fs ->
  inertial_ABCs.basic_preprocessing butter filter_with_coeffs self filter_freq
    = Ok (rows, gts, scalers) ->
  exists b_bw a_bw,
    inertial_ABCs.design butter fs filter_freq = Ok (b_bw, a_bw) /\
    filter_with_coeffs a_bw b_bw (map IMU.gyro imu) fs (inertial_ABCs.plot_stft self)
      = Ok (inertial_ABCs.imu_column 0 rows) /\
    filter_with_coeffs a_bw b_bw (map IMU.acc imu) fs (inertial_ABCs.plot_stft self)
      = Ok (inertial_ABCs.imu_column 1 rows).
Proof.
  destruct scalers as [sg sa]. intros Hi Hfs H.
  destruct (basic_preprocessing_set _ _ _ _ _ H) as (imu' & gt & fs' & Hi' & Hgt & Hfs').
  destruct (basic_preprocessing_Ok _ _ _ _ _ _ _ _ _ _ _ Hi Hgt Hfs H)
    as (b & a & Hd & _ & Hg & Ha & _).
  by exists b, a.
Qed.

(** C10: [basic_preprocessing] assigns the two channel-group columns only;
    the timestamp column of the matrix it returns is the sequence of the
    timestamps of the samples it was given. *)
Theorem basic_preprocessing_keeps_timestamps butter filter_with_coeffs
    (self : inertial_ABCs.InertialDataset Q) filter_freq imu rows gts scalers :
  inertial_ABCs.imu_data self = Some imu ->
  inertial_ABCs.basic_preprocessing butter filter_with_coeffs self filter_freq
    = Ok (rows, gts, scalers) ->
  map snd rows = map IMU.timestamp imu /\ length rows = length imu.
Proof.
  destruct scalers as [sg sa]. intros Hi H.
  destruct (basic_preprocessing_set _ _ _ _ _ H) as (imu' & gt & fs & Hi' & Hgt & Hfs).
  destruct (basic_preprocessing_Ok _ _ _ _ _ _ _ _ _ _ _ Hi Hgt Hfs H)
    as (b & a & _ & _ & _ & _ & Hts & Hlen & _).
  done.
Qed.

(** ** The filter design step *)

Lemma bind_Raise {A B} (f : A -> result B) (m : result A) (e : exn) :
  m ≫= f = Raise e -> m = Raise e \/ exists a, m = Ok a /\ f a = Raise e.
Proof. destruct m as [a|e']; cbn; [eauto | intros [= ->]; by left]. Qed.

Lemma lfilter1_raises (b a x : list Q) (e : exn) :
  Scipy.lfilter1 b a x = Raise e -> e = ValueError.
Proof.
  unfold Scipy.lfilter1. destruct a as [|a0 a_tail]; [congruence|].
  destruct (Qeq_bool a0 0); congruence.
Qed.

Lemma lfilter_raises (b a : list Q) (x : list (vec3 Q)) (e : exn) :
  Scipy.lfilter b a x = Raise e -> e = ValueError.
Proof.
  unfold Scipy.lfilter. intros H.
  apply bind_Raise in H as [H|(fx & _ & H)]; [by eapply lfilter1_raises|].
  apply bind_Raise in H as [H|(fy & _ & H)]; [by eapply lfilter1_raises|].
  apply bind_Raise in H as [H|(fz & _ & H)]; [by eapply lfilter1_raises|].
  done.
Qed.

Lemma py_div_Ok (x y : Q) : ~ (y == 0)%Q -> inertial_ABCs.py_div x y = Ok (x / y)%Q.
Proof.
  intros Hy. unfold inertial_ABCs.py_div.
  destruct (Qeq_bool y 0) eqn:E; [|done]. by apply Qeq_bool_iff in E.
Qed.

Lemma py_div_zero (x y : Q) :
  (y == 0)%Q -> inertial_ABCs.py_div x y = Raise ZeroDivisionError.
Proof.
  intros Hy. unfold inertial_ABCs.py_div.
  by rewrite (proj2 (Qeq_bool_iff y 0) Hy).
Qed.

Lemma half_zero (fs : Q) : (fs / 2 == 0)%Q <-> (fs == 0)%Q.
Proof.
  split; intros H.
  - assert (E : (fs == fs / 2 * 2)%Q) by field.
    rewrite H in E. rewrite E. ring.
  - rewrite H. reflexivity.
Qed.

Lemma butter_inside (coeffs : nat -> Q -> list Q * list Q) (N : nat) (Wn : Q) :
  (0 < Wn)%Q -> (Wn < 1)%Q -> Scipy.butter coeffs N Wn = Ok (coeffs N Wn).
Proof.
  intros H0 H1. unfold Scipy.butter.
  by rewrite (proj2 (Qltb_lt 0 Wn) H0), (proj2 (Qltb_lt Wn 1) H1).
Qed.

Lemma butter_outside (coeffs : nat -> Q -> list Q * list Q) (N : nat) (Wn : Q) :
  ~ ((0 < Wn)%Q /\ (Wn < 1)%Q) -> Scipy.butter coeffs N Wn = Raise ValueError.
Proof.
  intros H. unfold Scipy.butter.
  destruct (Qltb 0 Wn) eqn:E0; [|done]. destruct (Qltb Wn 1) eqn:E1; [|done].
  exfalso. apply H. split; by apply Qltb_lt.
Qed.

(** C7 (amended): a normalized cutoff outside the open interval (0, 1) is
    refused, but by the design routine of scipy and with its [ValueError];
    there is no [ConfigError].  The design step of [basic_preprocessing]
    divides by half the sampling frequency, which ends in
    [ZeroDivisionError] when that frequency is zero, and hands
    [filter_freq / (sampling_freq / 2)] to [butter]: it returns the
    coefficients when the cutoff lies in (0, 1) and ends in [ValueError]
    when it does not, and so does the whole method on a series that is not
    empty.  The order is the constant 10, never zero or less, and
    [pre_process_data] designs at the constant cutoff 1/10, which is
    accepted. *)
Theorem design_rejects_cutoff_with_ValueError
    (coeffs : nat -> Q -> list Q * list Q) :
  (forall fs f0, ~ (fs == 0)%Q ->
     (0 < f0 / (fs / 2))%Q -> (f0 / (fs / 2) < 1)%Q ->
     inertial_ABCs.design (Scipy.butter coeffs) fs f0
       = Ok (coeffs 10 (f0 / (fs / 2))%Q)) /\
  (forall fs f0, ~ (fs == 0)%Q ->
     ~ ((0 < f0 / (fs / 2))%Q /\ (f0 / (fs / 2) < 1)%Q) ->
     inertial_ABCs.design (Scipy.butter coeffs) fs f0 = Raise ValueError) /\
  (forall fs f0, (fs == 0)%Q ->
     inertial_ABCs.design (Scipy.butter coeffs) fs f0 = Raise ZeroDivisionError) /\
  (forall filter_with_coeffs (self : inertial_ABCs.InertialDataset Q)
          filter_freq imu gt fs,
     inertial_ABCs.imu_data self = Some imu -> imu <> [] ->
     inertial_ABCs.gt_data self = Some gt ->
     inertial_ABCs.sampling_freq self = Some fs -> ~ (fs == 0)%Q ->
     ~ ((0 < filter_freq / (fs / 2))%Q /\ (filter_freq / (fs / 2) < 1)%Q) ->
     inertial_ABCs.basic_preprocessing (Scipy.butter coeffs) filter_with_coeffs
       self filter_freq = Raise ValueError) /\
  (euroc_utils.w0 == 1 # 10)%Q /\
  Scipy.butter coeffs 10 euroc_utils.w0 = Ok (coeffs 10 euroc_utils.w0).
Proof.
  assert (Hdesign : forall fs f0, ~ (fs == 0)%Q ->
            inertial_ABCs.design (Scipy.butter coeffs) fs f0
            = Scipy.butter coeffs 10 (f0 / (fs / 2))%Q).
  { intros fs f0 Hfs. unfold inertial_ABCs.design.
    rewrite py_div_Ok by done. cbn [mbind result_bind].
    rewrite py_div_Ok by (by rewrite half_zero). done. }
  split; [|split; [|split; [|split; [|split]]]].
  - intros fs f0 Hfs H0 H1. rewrite Hdesign by done. by apply butter_inside.
  - intros fs f0 Hfs Hout. rewrite Hdesign by done. by apply butter_outside.
  - intros fs f0 Hfs. unfold inertial_ABCs.design.
    rewrite py_div_Ok by done. cbn [mbind result_bind].
    rewrite py_div_zero by (by rewrite half_zero). done.
  - intros fwc self f imu gt fs Hi Hne Hg Hf Hfs Hout.
    unfold inertial_ABCs.basic_preprocessing. rewrite Hi, Hg, Hf.
    destruct (decide (map IMU.unroll imu = [])) as [E|_].
    { apply fmap_nil_inv in E. done. }
    cbn [mbind result_bind].
    rewrite Hdesign by done. by rewrite butter_outside.
  - reflexivity.
  - reflexivity.
Qed.

Lemma design_rejects_cutoff_with_ValueError_witness :
  inertial_ABCs.design (checked_butter averaging) 200 10 = Ok averaging /\
  inertial_ABCs.design (checked_butter averaging) 200 300 = Raise ValueError /\
  inertial_ABCs.design (checked_butter averaging) 200 (-10) = Raise ValueError /\
  inertial_ABCs.design (checked_butter averaging) 0 10 = Raise ZeroDivisionError /\
  inertial_ABCs.basic_preprocessing (checked_butter averaging) lfilter_with_coeffs
    ds_q 300 = Raise ValueError.
Proof.
  destruct (design_rejects_cutoff_with_ValueError (fun _ _ => averaging))
    as (Hin & Hout & Hzero & Hclass & _ & _).
  split; [|split; [|split; [|split]]].
  - apply (Hin 200%Q 10%Q); [discriminate | reflexivity | reflexivity].
  - apply (Hout 200%Q 300%Q); [discriminate|]. intros [_ H]. discriminate H.
  - apply (Hout 200%Q (-10)%Q); [discriminate|]. intros [H _]. discriminate H.
  - apply (Hzero 0%Q 10%Q). reflexivity.
  - apply (Hclass lfilter_with_coeffs ds_q 300%Q imu_q gt_q 200%Q);
      [reflexivity | discriminate | reflexivity | reflexivity | discriminate |].
    intros [_ H]. discriminate H.
Defined.

(** C7 (as stated) fails: at a cutoff of 300 Hz for a 200 Hz signal the
    normalized cutoff is 3 and the design step ends in the design
    routine's own [ValueError]. *)
Lemma cutoff_outside_is_not_ConfigError :
  ~ rejects_cutoff_with_ConfigError (checked_butter averaging).
Proof.
  intros H. specialize (H 200%Q 300%Q).
  assert (E : inertial_ABCs.design (checked_butter averaging) 200 300
              = Raise ValueError) by reflexivity.
  rewrite E in H. discriminate H.
  intros [_ Hlt]. vm_compute in Hlt. discriminate Hlt.
Qed.

(** ** Splitting *)

Lemma ceil_tenth_div (n : nat) : euroc_utils.ceil_tenth n = (n + 9) / 10.
Proof.
  unfold euroc_utils.ceil_tenth, Qceiling, Qfloor. cbn -[Nat.div Z.div Z.mul].
  rewrite Z.mul_1_r. apply Nat2Z.inj. rewrite Nat2Z.inj_div, Nat2Z.inj_add.
  rewrite Z2Nat.id.
  - change (Z.of_nat 9) with 9%Z. change (Z.of_nat 10) with 10%Z.
    Z.to_euclidean_division_equations. lia.
  - Z.to_euclidean_division_equations. lia.
Qed.

Lemma ceil_tenth_le (n : nat) : euroc_utils.ceil_tenth n <= n.
Proof.
  rewrite ceil_tenth_div. destruct n as [|n]; [done|].
  apply Nat.Div0.div_le_upper_bound. lia.
Qed.

Lemma take_idx_lookup {A} (a : list A) (idx : list nat) (xs : list A) :
  Np.take_idx a idx = Ok xs -> Forall2 (fun i x => a !! i = Some x) idx xs.
Proof.
  revert xs. induction idx as [|i idx IH]; cbn; intros xs H.
  - injection H as <-. constructor.
  - apply bind_Ok in H as (x & Hx & H). apply bind_Ok in H as (xs' & Hxs & H).
    injection H as <-. constructor; [by apply getitem_Ok | by apply IH].
Qed.

Lemma take_idx_Ok {A} (a : list A) (idx : list nat) :
  Forall (fun i => i < length a) idx -> returns (Np.take_idx a idx).
Proof.
  induction 1 as [|i idx Hi _ [xs Hxs]]; cbn; [by eexists|].
  destruct (getitem_lt a i Hi) as (x & _ & ->). cbn. rewrite Hxs. by eexists.
Qed.

Lemma delete_Ok {A} (a : list A) (idx : list nat) :
  Forall (fun i => i < length a) idx ->
  Np.delete a idx = Ok (Np.delete_from 0 a idx).
Proof.
  intros H. unfold Np.delete.
  replace (forallb _ idx) with true; [done|]. symmetry.
  apply forallb_forall. intros i Hi. apply Nat.ltb_lt.
  rewrite Forall_forall in H. apply H. by apply list_elem_of_In.
Qed.

(** The rows [np.delete] keeps are the rows at the positions it keeps. *)
Lemma delete_from_lookup {A} (k : nat) (a : list A) (idx : list nat) :
  Forall2 (fun i x => k <= i /\ a !! (i - k) = Some x)
    (Np.delete_from k (seq k (length a)) idx) (Np.delete_from k a idx).
Proof.
  revert k. induction a as [|x a IH]; intros k; cbn; [constructor|].
  assert (Hrest : Forall2 (fun i y => k <= i /\ (x :: a) !! (i - k) = Some y)
                    (Np.delete_from (S k) (seq (S k) (length a)) idx)
                    (Np.delete_from (S k) a idx)).
  { eapply Forall2_impl; [apply IH|]. intros i y [Hk Hy]. split; [lia|].
    by replace (i - k) with (S (i - S k)) by lia. }
  destruct (bool_decide (k ∈ idx)); [done|].
  constructor; [|done]. split; [lia|]. by rewrite Nat.sub_diag.
Qed.

Lemma elem_of_delete_from (k m : nat) (idx : list nat) (i : nat) :
  i ∈ Np.delete_from k (seq k m) idx <-> (k <= i < k + m) /\ i ∉ idx.
Proof.
  revert k. induction m as [|m IH]; intros k; cbn.
  - rewrite elem_of_nil. lia.
  - destruct (bool_decide (k ∈ idx)) eqn:E.
    + apply bool_decide_eq_true in E. rewrite IH. split.
      * intros [? ?]. split; [lia | done].
      * intros [? Hn]. split; [|done].
        destruct (decide (i = k)) as [->|]; [done | lia].
    + apply bool_decide_eq_false in E. rewrite elem_of_cons, IH. split.
      * intros [->|[? ?]]; (split; [lia | done]).
      * intros [? Hn]. destruct (decide (i = k)) as [->|]; [by left | right].
        split; [lia | done].
Qed.

Lemma delete_from_NoDup (k m : nat) (idx : list nat) :
  NoDup (Np.delete_from k (seq k m) idx).
Proof.
  revert k. induction m as [|m IH]; intros k; cbn; [constructor|].
  destruct (bool_decide (k ∈ idx)); [apply IH|].
  constructor; [|apply IH]. rewrite elem_of_delete_from. lia.
Qed.

Section SplitFacts.
Import euroc_utils.
Variable rng : Type.
Variable choice : nat -> nat -> rng -> list nat * rng.

(** Whenever the draw returns [ceil(n * 0.1)] distinct indices of the
    range, the test file holds the windows and targets at the drawn
    indices, the training file holds those at the remaining indices in
    their order, and the two index sets are disjoint and cover the range. *)
Lemma split_of_distinct_draw {A : Type} (zero : A) (norm : vec3 A -> A)
    (imu_len : nat) (raw : list (imu_vec A)) (gt_v : list (vec3 A)) (g : rng) :
  let n := length raw in
  let test_idx := fst (choice n (ceil_tenth n) g) in
  let train_idx := Np.delete_from 0 (seq 0 n) test_idx in
  length gt_v = n ->
  length test_idx = ceil_tenth n ->
  NoDup test_idx ->
  Forall (fun i => i < n) test_idx ->
  exists T Y train test,
    build_windows zero norm imu_len raw gt_v = Ok (T, Y) /\
    generate_euroc_imu_dataset rng choice zero norm imu_len raw gt_v g
      = Ok (train, test, snd (choice n (ceil_tenth n) g)) /\
    ceil_tenth n = (n + 9) / 10 /\
    length (mat_y test) = ceil_tenth n /\
    length (mat_y train) = n - ceil_tenth n /\
    Forall2 (fun i w => T !! i = Some w) test_idx (mat_imu test) /\
    Forall2 (fun i y => Y !! i = Some y) test_idx (mat_y test) /\
    Forall2 (fun i w => T !! i = Some w) train_idx (mat_imu train) /\
    Forall2 (fun i y => Y !! i = Some y) train_idx (mat_y train) /\
    NoDup train_idx /\
    (forall i, i ∈ train_idx -> i ∉ test_idx) /\
    (forall i, i < n <-> i ∈ train_idx \/ i ∈ test_idx).
Proof.
  intros n test_idx train_idx Hlen Hk Hnd Hin.
  destruct (build_windows_filled zero norm imu_len raw gt_v Hlen)
    as ([T Y] & Hrun & HT & HY & _). cbn in HT, HY.
  unfold generate_euroc_imu_dataset. rewrite Hrun. cbn [mbind result_bind].
  rewrite HY. fold n. unfold random_choice.
  rewrite (proj2 (Nat.ltb_ge _ _)) by apply ceil_tenth_le.
  destruct (choice n (ceil_tenth n) g) as [idx g'] eqn:Hc.
  cbn [fst snd] in *. cbn [mbind result_bind]. subst test_idx.
  destruct (take_idx_Ok T idx) as [tx Htx]; [by rewrite HT|].
  destruct (take_idx_Ok Y idx) as [ty Hty]; [by rewrite HY|].
  rewrite Htx. cbn [mbind result_bind]. rewrite Hty. cbn [mbind result_bind].
  rewrite !delete_Ok by (by rewrite ?HT, ?HY). cbn [mbind result_bind].
  apply take_idx_lookup in Htx, Hty.
  pose proof (delete_from_lookup 0 T idx) as HdT.
  pose proof (delete_from_lookup 0 Y idx) as HdY.
  rewrite HT in HdT. rewrite HY in HdY. fold n in HdT, HdY.
  assert (Htrain : length train_idx = n - ceil_tenth n).
  { assert (Hperm : train_idx ++ idx ≡ₚ seq 0 n).
    { apply NoDup_Permutation.
      - apply NoDup_app. split; [apply delete_from_NoDup|]. split; [|done].
        intros i Hi. by apply elem_of_delete_from in Hi as [_ Hi].
      - apply NoDup_seq.
      - intros i. rewrite elem_of_app, elem_of_seq. unfold train_idx.
        rewrite elem_of_delete_from. rewrite Forall_forall in Hin. split.
        + intros [[? _]|Hi]; [lia|]. apply Hin in Hi. lia.
        + intros ?. destruct (decide (i ∈ idx)); [by right | left]. split; [lia|done]. }
    apply Permutation_length in Hperm. rewrite length_app, length_seq in Hperm. lia. }
  eexists T, Y, _, _. repeat split.
  - apply ceil_tenth_div.
  - cbn. by rewrite <- (Forall2_length _ _ _ Hty).
  - cbn. rewrite <- (Forall2_length _ _ _ HdY). exact Htrain.
  - done.
  - done.
  - cbn. eapply Forall2_impl; [exact HdT|]. intros i w [_ Hw].
    by rewrite Nat.sub_0_r in Hw.
  - cbn. eapply Forall2_impl; [exact HdY|]. intros i y [_ Hy].
    by rewrite Nat.sub_0_r in Hy.
  - apply delete_from_NoDup.
  - intros i Hi. by apply elem_of_delete_from in Hi as [_ Hi].
  - intros Hi. destruct (decide (i ∈ idx)); [by right | left].
    apply elem_of_delete_from. split; [lia | done].
  - intros [Hi|Hi].
    + apply elem_of_delete_from in Hi. lia.
    + rewrite Forall_forall in Hin. by apply Hin.
Qed.

End SplitFacts.

(** ** The shuffle of numpy's generator *)

Lemma swap_length (i j : nat) (x : list nat) : length (Np.swap i j x) = length x.
Proof.
  unfold Np.swap. destruct (x !! i), (x !! j); by rewrite ?length_insert.
Qed.

Lemma swap_lookup_ne (i j k : nat) (x : list nat) :
  k <> i -> k <> j -> Np.swap i j x !! k = x !! k.
Proof.
  intros Hi Hj. unfold Np.swap. destruct (x !! i), (x !! j); try done.
  by rewrite !list_lookup_insert_ne by done.
Qed.

Lemma swap_lookup_l (i j : nat) (x : list nat) :
  i < length x -> j < length x -> Np.swap i j x !! i = x !! j.
Proof.
  intros Hi Hj. unfold Np.swap.
  destruct (lookup_lt_is_Some_2 x i Hi) as [a Ha].
  destruct (lookup_lt_is_Some_2 x j Hj) as [b Hb]. rewrite Ha, Hb.
  destruct (decide (i = j)) as [->|Hne].
  - rewrite list_lookup_insert_eq by (by rewrite length_insert). congruence.
  - rewrite list_lookup_insert_ne by done.
    by rewrite list_lookup_insert_eq by done.
Qed.

Lemma swap_lookup_r (i j : nat) (x : list nat) :
  i < length x -> j < length x -> Np.swap i j x !! j = x !! i.
Proof.
  intros Hi Hj. unfold Np.swap.
  destruct (lookup_lt_is_Some_2 x i Hi) as [a Ha].
  destruct (lookup_lt_is_Some_2 x j Hj) as [b Hb]. rewrite Ha, Hb.
  by rewrite list_lookup_insert_eq by (by rewrite length_insert).
Qed.

(** A swap rearranges the list. *)
Lemma swap_Permutation (i j : nat) (x : list nat) : Np.swap i j x ≡ₚ x.
Proof.
  destruct (decide (i < length x /\ j < length x)) as [[Hi Hj]|Hout].
  - apply Permutation_inj. split; [apply swap_length|].
    exists (fun k => if decide (k = i) then j else if decide (k = j) then i else k).
    split.
    + intros a b. repeat case_decide; lia.
    + intros k. repeat case_decide; subst.
      * by apply swap_lookup_l.
      * by apply swap_lookup_r.
      * by apply swap_lookup_ne.
  - unfold Np.swap. destruct (x !! i) as [a|] eqn:Ea; [|done].
    destruct (x !! j) as [b|] eqn:Eb; [|done].
    apply lookup_lt_Some in Ea, Eb. exfalso. by apply Hout.
Qed.

Lemma swap_app (i j : nat) (x sfx : list nat) :
  i < length x -> j < length x -> Np.swap i j (x ++ sfx) = Np.swap i j x ++ sfx.
Proof.
  intros Hi Hj. unfold Np.swap. rewrite !lookup_app_l by done.
  destruct (x !! i), (x !! j); try done.
  rewrite insert_app_l by done.
  by rewrite insert_app_l by (by rewrite length_insert).
Qed.

Lemma shuffle_with_length (m : nat) (js x : list nat) :
  length (shuffle_with m js x) = length x.
Proof.
  revert js x. induction m as [|m IH]; intros [|j js] x; cbn; try done.
  by rewrite IH, swap_length.
Qed.

Lemma shuffle_with_Permutation (m : nat) (js x : list nat) :
  shuffle_with m js x ≡ₚ x.
Proof.
  revert js x. induction m as [|m IH]; intros [|j js] x; cbn; try done.
  by rewrite IH, swap_Permutation.
Qed.

(** The steps that are left never reach a position beyond their index. *)
Lemma shuffle_with_lookup_above (m : nat) (js x : list nat) (p : nat) :
  admissible m js -> m < p -> shuffle_with m js x !! p = x !! p.
Proof.
  revert js x. induction m as [|m IH]; intros [|j js] x; cbn; try done.
  intros [Hj Hjs] Hp. rewrite IH by (done || lia).
  apply swap_lookup_ne; lia.
Qed.

Lemma shuffle_with_app (m : nat) (js x sfx : list nat) :
  admissible m js -> m < length x ->
  shuffle_with m js (x ++ sfx) = shuffle_with m js x ++ sfx.
Proof.
  revert js x. induction m as [|m IH]; intros [|j js] x; cbn; try done.
  intros [Hj Hjs] Hm. rewrite swap_app by lia.
  apply IH; [done|]. rewrite swap_length. lia.
Qed.

Lemma last_split (l : list nat) (k c : nat) :
  length l = S k -> l !! k = Some c -> l = take k l ++ [c].
Proof.
  intros Hlen Hc. rewrite <- (take_drop k l) at 1. f_equal.
  rewrite (drop_S l c k Hc). rewrite drop_ge by lia. done.
Qed.

(** Every arrangement of a list without repetition is reached by exactly
    one admissible sequence of draws. *)
Lemma shuffle_with_bijective (m : nat) (x p : list nat) :
  length x = S m -> NoDup x -> p ≡ₚ x ->
  exists js, admissible m js /\ shuffle_with m js x = p /\
    forall js', admissible m js' -> shuffle_with m js' x = p -> js' = js.
Proof.
  revert x p. induction m as [|m IH]; intros x p Hlen Hnd Hp.
  - exists []. split; [done|]. split.
    + destruct x as [|a [|b x]]; try done. cbn.
      symmetry. by apply Permutation_singleton_r.
    + intros [|j js] Hjs; done.
  - assert (Hlp : length p = S (S m)) by (by rewrite Hp).
    destruct (lookup_lt_is_Some_2 p (S m)) as [c Hc]; [lia|].
    assert (Hcx : c ∈ x).
    { rewrite <- Hp. by eapply list_elem_of_lookup_2. }
    apply list_elem_of_lookup_1 in Hcx as [j Hj].
    assert (Hjlt : j < length x) by (by eapply lookup_lt_Some).
    set (x1 := Np.swap (S m) j x).
    assert (Hx1c : x1 !! S m = Some c).
    { unfold x1. rewrite swap_lookup_l by lia. done. }
    assert (Hx1len : length x1 = S (S m)) by (unfold x1; by rewrite swap_length).
    pose proof (last_split x1 (S m) c Hx1len Hx1c) as Ex1.
    pose proof (last_split p (S m) c Hlp Hc) as Ep.
    set (x' := take (S m) x1) in *. set (p' := take (S m) p) in *.
    assert (Hx'len : length x' = S m).
    { unfold x'. rewrite length_take. lia. }
    assert (Hperm1 : x1 ≡ₚ x) by apply swap_Permutation.
    assert (Hnd1 : NoDup x1) by (by rewrite Hperm1).
    assert (Hnd' : NoDup x').
    { rewrite Ex1 in Hnd1. by apply NoDup_app in Hnd1 as [? _]. }
    assert (Hp' : p' ≡ₚ x').
    { apply (inj (.++ [c])). rewrite <- Ex1, <- Ep. by rewrite Hp, Hperm1. }
    destruct (IH x' p' Hx'len Hnd' Hp') as (js0 & Hadm & Hrun & Huniq).
    exists (j :: js0). split; [split; [lia | done]|]. split.
    + cbn. fold x1. rewrite Ex1.
      rewrite shuffle_with_app by (done || lia). by rewrite Hrun.
    + intros [|j2 js2]; [done|]. intros [Hj2 Hadm2] Hrun2. cbn in Hrun2.
      assert (j2 = j) as ->.
      { apply (NoDup_lookup x j2 j c Hnd); [|done].
        rewrite <- Hc, <- Hrun2.
        rewrite shuffle_with_lookup_above by (done || lia).
        symmetry. apply swap_lookup_l; lia. }
      f_equal. apply Huniq; [done|].
      fold x1 in Hrun2. rewrite Ex1 in Hrun2.
      rewrite shuffle_with_app in Hrun2 by (done || lia).
      rewrite Ep in Hrun2. by apply app_inv_tail in Hrun2.
Qed.

Lemma permutations_of_range (n : nat) (p : list nat) :
  p ≡ₚ seq 0 n ->
  exists js, admissible (n - 1) js /\ shuffle_with (n - 1) js (seq 0 n) = p /\
    forall js', admissible (n - 1) js' ->
      shuffle_with (n - 1) js' (seq 0 n) = p -> js' = js.
Proof.
  intros Hp. destruct n as [|n].
  - apply Permutation_nil_r in Hp as ->. exists []. split; [done|].
    split; [done|]. by intros [|j js].
  - cbn [Nat.sub]. rewrite Nat.sub_0_r.
    apply shuffle_with_bijective; [by rewrite length_seq | apply NoDup_seq | done].
Qed.

(** The indices that [np.delete] keeps, after the drawn ones, arrange the
    range. *)
Lemma complement_Permutation (n : nat) (idx : list nat) :
  NoDup idx -> Forall (fun i => i < n) idx ->
  idx ++ Np.delete_from 0 (seq 0 n) idx ≡ₚ seq 0 n.
Proof.
  intros Hnd Hin. apply NoDup_Permutation.
  - apply NoDup_app. split; [done|]. split; [|apply delete_from_NoDup].
    intros i Hi Hd. by apply elem_of_delete_from in Hd as [_ Hd].
  - apply NoDup_seq.
  - intros i. rewrite elem_of_app, elem_of_seq, elem_of_delete_from.
    rewrite Forall_forall in Hin. split.
    + intros [Hi|[? _]]; [apply Hin in Hi|]; lia.
    + intros ?. destruct (decide (i ∈ idx)); [by left | right]. split; [lia|done].
Qed.

(** The arrangements of the range that begin with a given selection are
    the selection followed by an arrangement of the other indices: as many
    for one selection as for any other of its size. *)
Lemma selection_arrangements (n : nat) (idx p : list nat) :
  NoDup idx -> Forall (fun i => i < n) idx ->
  (p ≡ₚ seq 0 n /\ take (length idx) p = idx) <->
  exists q, p = idx ++ q /\ q ≡ₚ Np.delete_from 0 (seq 0 n) idx.
Proof.
  intros Hnd Hin. pose proof (complement_Permutation n idx Hnd Hin) as Hc. split.
  - intros [Hp Ht]. exists (drop (length idx) p). split.
    + rewrite <- Ht at 1. by rewrite take_drop.
    + apply (inj (idx ++.)). rewrite Hc, <- Hp.
      rewrite <- Ht at 1. by rewrite take_drop.
  - intros (q & -> & Hq). split.
    + by rewrite Hq.
    + by rewrite take_app_length.
Qed.

Lemma complement_length (n : nat) (idx : list nat) :
  NoDup idx -> Forall (fun i => i < n) idx ->
  length (Np.delete_from 0 (seq 0 n) idx) = n - length idx.
Proof.
  intros Hnd Hin. pose proof (complement_Permutation n idx Hnd Hin) as Hc.
  apply Permutation_length in Hc. rewrite length_app, length_seq in Hc. lia.
Qed.

Section Generator.
Variable rng : Type.
Variable rk_interval : nat -> rng -> nat * rng.

Lemma shuffle_loop_draws (m : nat) (x : list nat) (g : rng) :
  fst (foldl (Np.shuffle_step rng rk_interval) (x, g) (rev (seq 1 m)))
  = shuffle_with m (draws rk_interval m g) x.
Proof.
  revert x g. induction m as [|m IH]; intros x g; [done|].
  rewrite seq_S, rev_app_distr. cbn [rev app foldl Nat.add draws shuffle_with].
  unfold Np.shuffle_step at 2.
  destruct (rk_interval (S m) g) as [j g1]. cbn [shuffle_with]. apply IH.
Qed.

(** [permutation(n)] is the shuffle of [arange(n)] by the draws made. *)
Lemma permutation_draws (n : nat) (g : rng) :
  fst (Np.permutation rng rk_interval n g)
  = shuffle_with (n - 1) (draws rk_interval (n - 1) g) (seq 0 n).
Proof.
  unfold Np.permutation, Np.shuffle. rewrite length_seq. apply shuffle_loop_draws.
Qed.

Lemma choice_is_prefix (n k : nat) (g : rng) :
  fst (Np.choice_without_replacement rng rk_interval n k g)
  = take k (fst (Np.permutation rng rk_interval n g)).
Proof.
  unfold Np.choice_without_replacement.
  by destruct (Np.permutation rng rk_interval n g).
Qed.

(** What is drawn without replacement: [k] distinct indices of the range. *)
Lemma choice_without_replacement_distinct (n k : nat) (g : rng) :
  k <= n ->
  let idx := fst (Np.choice_without_replacement rng rk_interval n k g) in
  length idx = k /\ NoDup idx /\ Forall (fun i => i < n) idx.
Proof.
  intros Hk idx. unfold idx. rewrite choice_is_prefix, permutation_draws.
  set (p := shuffle_with _ _ _).
  assert (Hp : p ≡ₚ seq 0 n) by apply shuffle_with_Permutation.
  assert (Hnd : NoDup p) by (rewrite Hp; apply NoDup_seq).
  split; [|split].
  - rewrite length_take, Hp, length_seq. lia.
  - rewrite <- (take_drop k p) in Hnd. by apply NoDup_app in Hnd as [? _].
  - apply Forall_forall. intros i Hi.
    assert (Hin : i ∈ p).
    { rewrite <- (take_drop k p). apply elem_of_app. by left. }
    rewrite Hp in Hin. apply elem_of_seq in Hin. lia.
Qed.

End Generator.

Section SplitByPermutation.
Import euroc_utils.
Variable rng : Type.
Variable rk_interval : nat -> rng -> nat * rng.

(** C9: with numpy's draw without replacement, the first [ceil(n * 0.1)]
    entries of a shuffle of [arange(n)], the holdout indices are that many
    distinct indices of the range.  The shuffle reaches every arrangement
    of the range by exactly one sequence of draws [rk_interval(i)] in
    [[0, i]], so that arrangements, and with them selections, are equally
    likely when the draws are uniform.  The test file holds the windows
    and targets at the drawn indices, the training file those at the
    remaining indices in their order, and the two index sets are disjoint
    and cover the range. *)
Theorem split_is_a_partition {A : Type} (zero : A) (norm : vec3 A -> A)
    (imu_len : nat) (raw : list (imu_vec A)) (gt_v : list (vec3 A)) (g : rng) :
  let n := length raw in
  let choice := Np.choice_without_replacement rng rk_interval in
  let test_idx := fst (choice n (ceil_tenth n) g) in
  let train_idx := Np.delete_from 0 (seq 0 n) test_idx in
  length gt_v = n ->
  test_idx = take (ceil_tenth n)
               (shuffle_with (n - 1) (draws rk_interval (n - 1) g) (seq 0 n)) /\
  (forall p, p ≡ₚ seq 0 n ->
     exists js, admissible (n - 1) js /\ shuffle_with (n - 1) js (seq 0 n) = p /\
       forall js', admissible (n - 1) js' ->
         shuffle_with (n - 1) js' (seq 0 n) = p -> js' = js) /\
  (forall idx p, NoDup idx -> Forall (fun i => i < n) idx ->
     (p ≡ₚ seq 0 n /\ take (length idx) p = idx) <->
     exists q, p = idx ++ q /\ q ≡ₚ Np.delete_from 0 (seq 0 n) idx) /\
  ceil_tenth n = (n + 9) / 10 /\
  length test_idx = ceil_tenth n /\
  NoDup test_idx /\
  Forall (fun i => i < n) test_idx /\
  NoDup train_idx /\
  (forall i, i ∈ train_idx -> i ∉ test_idx) /\
  (forall i, i < n <-> i ∈ train_idx \/ i ∈ test_idx) /\
  exists T Y train test,
    build_windows zero norm imu_len raw gt_v = Ok (T, Y) /\
    generate_euroc_imu_dataset rng choice zero norm imu_len raw gt_v g
      = Ok (train, test, snd (choice n (ceil_tenth n) g)) /\
    length (mat_y test) = ceil_tenth n /\
    length (mat_y train) = n - ceil_tenth n /\
    Forall2 (fun i w => T !! i = Some w) test_idx (mat_imu test) /\
    Forall2 (fun i y => Y !! i = Some y) test_idx (mat_y test) /\
    Forall2 (fun i w => T !! i = Some w) train_idx (mat_imu train) /\
    Forall2 (fun i y => Y !! i = Some y) train_idx (mat_y train).
Proof.
  intros n choice test_idx train_idx Hlen.
  destruct (choice_without_replacement_distinct rng rk_interval n (ceil_tenth n) g)
    as (Hk & Hnd & Hin); [apply ceil_tenth_le|].
  fold choice in Hk, Hnd, Hin. fold test_idx in Hk, Hnd, Hin.
  destruct (split_of_distinct_draw rng choice zero norm imu_len raw gt_v g
              Hlen Hk Hnd Hin)
    as (T & Y & train & test & Hb & Hg & Hc & Hty & Htr & F1 & F2 & F3 & F4
        & Hndt & Hdis & Hcov).
  split.
  { unfold test_idx, choice. by rewrite choice_is_prefix, permutation_draws. }
  split; [apply permutations_of_range|].
  split; [intros idx p; apply selection_arrangements|].
  split; [exact Hc|]. split; [exact Hk|]. split; [exact Hnd|].
  split; [exact Hin|]. split; [exact Hndt|]. split; [exact Hdis|].
  split; [exact Hcov|].
  exists T, Y, train, test. repeat split; assumption.
Qed.

End SplitByPermutation.

Lemma split_is_a_partition_witness :
  exists T Y train test,
    euroc_utils.build_windows 0%R norm3 2 raw5 gt5 = Ok (T, Y) /\
    euroc_utils.generate_euroc_imu_dataset nat
      (Np.choice_without_replacement nat counting_interval) 0%R norm3 2 raw5 gt5 0
      = Ok (train, test, 4) /\
    fst (Np.permutation nat counting_interval 5 0) = [4; 3; 2; 1; 0] /\
    length (euroc_utils.mat_y test) = 1 /\
    length (euroc_utils.mat_y train) = 4 /\
    Forall2 (fun i y => Y !! i = Some y) [4] (euroc_utils.mat_y test) /\
    Forall2 (fun i y => Y !! i = Some y) [0; 1; 2; 3] (euroc_utils.mat_y train).
Proof.
  destruct (split_is_a_partition nat counting_interval 0%R norm3 2 raw5 gt5 0)
    as (_ & _ & _ & _ & _ & _ & _ & _ & _ & _ & T & Y & train & test & Hb & Hg
        & Hk & Hn & _ & Hty & _ & Htr);
    [reflexivity|].
  exists T, Y, train, test. split; [exact Hb|]. split; [exact Hg|].
  split; [reflexivity|].
  split; [exact Hk|]. split; [exact Hn|]. split; [exact Hty | exact Htr].
Defined.

Section TrainingSplit.
Import euroc_utils.

(** C5 (amended): the split takes no seed; the validation indices come from
    the state of the global generator, and the constant seed 8901 only
    reaches the shuffle of the training set.  Two runs on identical inputs
    whose draws return the same indices produce identical training and
    validation datasets. *)
Theorem split_determined_by_draw (rng : Type)
    (choice : nat -> nat -> rng -> list nat * rng)
    (shuffle : nat -> Z -> list (list (list Q) * Q) -> list (list (list Q) * Q))
    (train_file : mat Q) (scale_g scale_a : Sklearn.MinMaxScaler)
    (batch_s : nat) (g g' : rng) :
  let n := length (mat_y train_file) in
  fst (choice n (ceil_tenth n) g) = fst (choice n (ceil_tenth n) g') ->
  outputs (generate_cnn_training_dataset rng choice shuffle
             train_file scale_g scale_a batch_s g)
  = outputs (generate_cnn_training_dataset rng choice shuffle
               train_file scale_g scale_a batch_s g').
Proof.
  intros n Hdraw. unfold generate_cnn_training_dataset, random_choice.
  destruct (foldl _ _ _) as [tensor|e]; [|done]. cbn [mbind result_bind].
  fold n. destruct (n <? ceil_tenth n); [done|]. cbn [mbind result_bind].
  destruct (choice n (ceil_tenth n) g) as [idx g1].
  destruct (choice n (ceil_tenth n) g') as [idx' g2].
  cbn [fst] in Hdraw. subst idx'.
  destruct (Np.take_idx tensor idx) as [vx_|e]; [|done]. cbn [mbind result_bind].
  destruct (Np.take_idx (mat_y train_file) idx) as [vy_|e]; [|done].
  cbn [mbind result_bind].
  destruct (Np.delete tensor idx) as [tx|e]; [|done]. cbn [mbind result_bind].
  destruct (Np.delete (mat_y train_file) idx) as [ty|e]; [|done].
  cbn [mbind result_bind].
  destruct (batch batch_s (zip vx_ vy_)) as [vb|e]; [|done]. cbn [mbind result_bind].
  destruct (batch batch_s _) as [tb|e]; [|done]. done.
Qed.

Lemma split_determined_by_draw_witness :
  outputs (generate_cnn_training_dataset nat alternating_choice rotating_shuffle
             train20 scale20 scale20 4 0)
  = outputs (generate_cnn_training_dataset nat alternating_choice rotating_shuffle
               train20 scale20 scale20 4 2).
Proof.
  apply (split_determined_by_draw nat alternating_choice rotating_shuffle
           train20 scale20 scale20 4 0 2).
  reflexivity.
Defined.

(** C5 (as stated) fails: nothing fixes the generator state between two
    runs; a second run in the same process starts from the state the first
    one left and validates on other windows. *)
Lemma second_run_differs :
  ~ reproducible alternating_choice rotating_shuffle train20 scale20 scale20 4.
Proof.
  intros H. specialize (H 0 1). vm_compute in H. discriminate H.
Qed.

End TrainingSplit.

(** ** The statements at the concrete series *)

Lemma alignment_strictly_inside_span_witness :
  (exists imu' v,
     euroc_utils.interpolate_ground_truth imu_q gt_q = Ok (imu', v) /\
     Forall (fun s => (1 < IMU.timestamp s)%Q /\ (IMU.timestamp s < 3)%Q) imu') /\
  (exists self' imu',
     inertial_ABCs.interpolate_ground_truth
       data_utils.interpolate_ts data_utils.interpolate_ts_quat ds_r = Ok self' /\
     inertial_ABCs.imu_data self' = Some imu' /\
     Forall (fun s => (1 < IMU.timestamp s)%Q /\ (IMU.timestamp s < 3)%Q) imu').
Proof.
  destruct alignment_strictly_inside_span as [Heuroc Habc]. split.
  - destruct (Heuroc imu_q gt_q) as [_ H].
    eexists _, _. split; [reflexivity|].
    edestruct H as (t_first & t_last & Hf & Hl & Hin & _); [reflexivity|].
    injection Hf as <-. injection Hl as <-. exact Hin.
  - eexists. 
    edestruct (Habc R data_utils.interpolate_ts data_utils.interpolate_ts_quat ds_r)
      as (t_first & t_last & imu' & Hf & Hl & Hd & Hin & _);
      [reflexivity | reflexivity | reflexivity |].
    injection Hf as <-. injection Hl as <-.
    exists imu'. split; [reflexivity|]. split; [exact Hd | exact Hin].
Defined.

Lemma unit_quat_1000 : data_utils.unit_quat (Quat 1 0 0 0)%R.
Proof. apply unit_quat_dot. unfold data_utils.qdot. cbn. ring. Qed.

Lemma unit_quat_0100 : data_utils.unit_quat (Quat 0 1 0 0)%R.
Proof. apply unit_quat_dot. unfold data_utils.qdot. cbn. ring. Qed.

Lemma pre_process_data_leaves_gyro_witness :
  exists filt gt' scalers b_bw a_bw filtered_gyro,
    euroc_utils.pre_process_data (checked_butter averaging) imu_q vel_q 
      = Ok (filt, gt', scalers) /\
    map fst filt = map IMU.gyro imu_q /\
    checked_butter averaging 10 euroc_utils.w0 = Ok (b_bw, a_bw) /\
    Scipy.lfilter b_bw a_bw (map IMU.acc imu_q) = Ok (map snd filt) /\
    Scipy.lfilter b_bw a_bw (map IMU.gyro imu_q) = Ok filtered_gyro /\
    filtered_gyro <> map fst filt.
Proof.
  eexists _, _, _, _, _, _. split; [reflexivity|].
  edestruct (pre_process_data_leaves_gyro (checked_butter averaging) imu_q vel_q)
    as (Hg & b & a & Hb & Hf); [reflexivity|].
  split; [exact Hg|]. split; [reflexivity|]. split; [reflexivity|].
  split; [reflexivity|]. discriminate.
Defined.

Lemma basic_preprocessing_keeps_timestamps_witness :
  exists rows gts scalers,
    inertial_ABCs.basic_preprocessing (checked_butter averaging)
      lfilter_with_coeffs ds_q 10 = Ok (rows, gts, scalers) /\
    map snd rows = [0; 1; 2; 3; 4]%Q /\ length rows = 5.
Proof.
  eexists _, _, _. split; [reflexivity|].
  eapply (basic_preprocessing_keeps_timestamps (checked_butter averaging)
            lfilter_with_coeffs ds_q 10 imu_q); reflexivity.
Defined.



(** * Further properties of the code *)

(** ** The scaling loop and the batches *)

Section Scaling.
Import euroc_utils.


Lemma traverse_Raise {A B} (f : A -> result B) (l : list A) (e : exn) :
  traverse f l = Raise e -> exists x, x ∈ l /\ f x = Raise e.
Proof.
  induction l as [|x l IH]; cbn; [done|]. intros H.
  apply bind_Raise in H as [H|(y & _ & H)].
  - exists x. split; [by left | done].
  - apply bind_Raise in H as [H|(ys & _ & H)]; [|done].
    destruct (IH H) as (x' & Hin & Hx'). exists x'. split; [by right | done].
Qed.






Lemma transform_channel_length (s : Sklearn.MinMaxScaler) (c : nat)
    (tensor out : list (list (list Q))) :
  transform_channel s c tensor = Ok out -> length out = length tensor.
Proof.
  unfold transform_channel. destruct (length tensor =? 0); [done|]. revert out.
  induction tensor as [|w tensor IH]; cbn; intros out H.
  - by injection H as <-.
  - apply bind_Ok in H as (w' & _ & H). apply bind_Ok in H as (ws & Hws & H).
    injection H as <-. cbn. f_equal. by apply IH.
Qed.

Lemma scale_channels_length (scale_g scale_a : Sklearn.MinMaxScaler)
    (tensor out : list (list (list Q))) :
  scale_channels scale_g scale_a tensor = Ok out -> length out = length tensor.
Proof.
  unfold scale_channels. cbn [seq foldl mbind result_bind]. intros H.
  apply bind_Ok in H as (t2 & H & H3). apply bind_Ok in H as (t1 & H1 & H2).
  apply bind_Ok in H1 as (u1 & Hu1%transform_channel_length & Hv1%transform_channel_length).
  apply bind_Ok in H2 as (u2 & Hu2%transform_channel_length & Hv2%transform_channel_length).
  apply bind_Ok in H3 as (u3 & Hu3%transform_channel_length & Hv3%transform_channel_length).
  congruence.
Qed.

(** The loop ends in no other error than the [IndexError] of a row that is
    too short for a channel and the [ValueError] of [transform]. *)
Lemma transform_channel_short_row (s : Sklearn.MinMaxScaler) (c : nat)
    (tensor : list (list (list Q))) (e : exn) :
  transform_channel s c tensor = Raise e ->
  e = IndexError \/ e = ValueError.
Proof.
  unfold transform_channel. intros H.
  destruct (length tensor =? 0); [injection H as <-; by right|].
  apply traverse_Raise in H as (w & _ & H).
  apply bind_Raise in H as [H|(col & _ & H)].
  - apply traverse_Raise in H as (row & _ & H). unfold getitem in H.
    destruct (row !! c); [done|]. injection H as <-. by left.
  - destruct (length col =? 0); [injection H as <-; by right|].
    apply bind_Raise in H as [H|(? & _ & H)]; [|done].
    destruct (_ =? 1); [done|]. destruct (_ =? _); [done|].
    injection H as <-. by right.
Qed.

(** ** Batches *)

Lemma batch_go_concat {X} (batch_s room : nat) (cur l : list X) :
  concat (batch_go batch_s room cur l) = rev cur ++ l.
Proof.
  revert room cur. induction l as [|x l IH]; intros room cur; cbn.
  - destruct cur; cbn; [done|]. by rewrite !app_nil_r.
  - destruct room as [|[|room]]; cbn [concat]; rewrite IH; cbn;
      by rewrite <- ?app_assoc.
Qed.

Lemma batch_go_sizes {X} (batch_s room : nat) (cur l : list X) :
  1 <= room -> length cur + room = batch_s ->
  forall i bt, batch_go batch_s room cur l !! i = Some bt ->
    1 <= length bt <= batch_s /\
    (S i < length (batch_go batch_s room cur l) -> length bt = batch_s).
Proof.
  revert room cur. induction l as [|x l IH]; intros room cur Hroom Hinv i bt; cbn.
  - destruct cur as [|y cur]; [done|]. destruct i as [|i]; [|done].
    intros [= <-]. rewrite ?length_app, ?length_rev. cbn in *. lia.
  - destruct room as [|[|room]]; [lia| |].
    + destruct i as [|i]; cbn.
      * intros [= <-]. rewrite ?length_app, ?length_rev. cbn in *. lia.
      * intros Hbt. destruct (IH batch_s [] ltac:(lia) ltac:(cbn; lia) i bt Hbt) as [H1 H2].
        split; [done|]. intros Hlt. apply H2. lia.
    + apply IH; cbn; lia.
Qed.

Lemma batch_Ok {X} (batch_s : nat) (l : list X) (bs : list (list X)) :
  batch batch_s l = Ok bs ->
  1 <= batch_s /\ concat bs = l /\
  forall i bt, bs !! i = Some bt ->
    1 <= length bt <= batch_s /\ (S i < length bs -> length bt = batch_s).
Proof.
  unfold batch. destruct (batch_s =? 0) eqn:E; [done|]. apply Nat.eqb_neq in E.
  intros [= <-]. split; [lia|]. split; [apply batch_go_concat|].
  apply batch_go_sizes; cbn; lia.
Qed.

Lemma batch_returns {X} (batch_s : nat) (l : list X) :
  1 <= batch_s -> returns (batch batch_s l).
Proof.
  intros H. unfold batch. rewrite (proj2 (Nat.eqb_neq _ _)) by lia. by eexists.
Qed.

End Scaling.

(** ** The window builder: shape, padding and failure *)
Section WindowShape.
Context {A : Type}.
Variable zero : A.
Variable norm : vec3 A -> A.
Implicit Types (raw : list (imu_vec A)) (gt_v : list (vec3 A)).
Import euroc_utils.

Lemma foldl_window_step_Raise imu_len raw gt_v (e : exn) (l : list nat) :
  foldl (window_step zero norm imu_len raw gt_v) (Raise e) l = Raise e.
Proof. induction l as [|i l IH]; [done|]. exact IH. Qed.

Lemma window_of_shape imu_len raw i :
  i < length raw - imu_len ->
  length (window_of zero imu_len raw i) = imu_len /\
  Forall (fun row => length row = 6) (window_of zero imu_len raw i).
Proof.
  intros Hi. split; [by apply window_of_length|].
  unfold window_of. destruct (i <? imu_len).
  - apply Forall_app. split.
    + apply Forall_replicate. unfold zero_row. by rewrite length_replicate.
    + apply Forall_fmap, Forall_true. by intros [[] []].
  - apply Forall_fmap, Forall_true. by intros [[] []].
Qed.

Lemma build_windows_short_gt imu_len raw gt_v :
  length gt_v < length raw - imu_len ->
  build_windows zero norm imu_len raw gt_v = Raise IndexError.
Proof.
  intros Hshort. unfold build_windows.
  replace (length raw - imu_len)
    with (length gt_v + S (length raw - imu_len - S (length gt_v))) by lia.
  rewrite seq_app, foldl_app. cbn [seq foldl].
  destruct (loop_invariant zero norm imu_len raw gt_v (length gt_v))
    as ([T Y] & -> & _); [lia | lia |].
  unfold window_step at 2. cbn [mbind result_bind].
  rewrite imu_img_at_ok by lia. cbn [mbind result_bind].
  unfold getitem. rewrite lookup_ge_None_2 by lia. cbn [mbind result_bind].
  apply foldl_window_step_Raise.
Qed.

Lemma build_windows_short_series imu_len raw gt_v :
  length raw <= imu_len ->
  build_windows zero norm imu_len raw gt_v
  = Ok (replicate (length raw) (replicate imu_len (replicate 6 zero)),
        replicate (length raw) zero).
Proof.
  intros Hn. unfold build_windows. by replace (length raw - imu_len) with 0 by lia.
Qed.

Lemma build_windows_shape imu_len raw gt_v T Y :
  build_windows zero norm imu_len raw gt_v = Ok (T, Y) ->
  length T = length raw /\ length Y = length raw /\
  Forall (fun w => length w = imu_len /\ Forall (fun row => length row = 6) w) T.
Proof.
  intros Hrun.
  destruct (decide (length gt_v < length raw - imu_len)) as [Hs|Hs].
  { by rewrite build_windows_short_gt in Hrun. }
  destruct (loop_invariant zero norm imu_len raw gt_v (length raw - imu_len))
    as (st & Hst & HT & HY & Hlo & Hhi); [lia | lia |].
  unfold build_windows in Hrun. rewrite Hrun in Hst. injection Hst as <-.
  cbn in HT, HY, Hlo, Hhi. repeat split; try done.
  apply Forall_lookup. intros i w Hw.
  assert (Hi : i < length raw) by (rewrite <- HT; by eapply lookup_lt_Some).
  destruct (decide (i < length raw - imu_len)) as [Hb|Hb].
  - destruct (Hlo i Hb) as [Hwi _]. rewrite Hw in Hwi. injection Hwi as ->.
    by apply window_of_shape.
  - destruct (Hhi i) as [Hwi _]; [lia|]. rewrite Hw in Hwi. injection Hwi as ->.
    split; [apply length_replicate|].
    by apply Forall_replicate.
Qed.

End WindowShape.

Section WindowTheorems.
Context {A : Type}.
Import euroc_utils.

(** X1: the window builder reads [gt_v] at every index below
    [n - imu_len] and nowhere else: it returns when [gt_v] has that many
    entries, however many more, and ends in [IndexError] when it has
    fewer. *)
Theorem build_windows_needs_targets (zero : A) (norm : vec3 A -> A)
    (imu_len : nat) (raw : list (imu_vec A)) (gt_v : list (vec3 A)) :
  (length raw - imu_len <= length gt_v ->
   returns (build_windows zero norm imu_len raw gt_v)) /\
  (length gt_v < length raw - imu_len ->
   build_windows zero norm imu_len raw gt_v = Raise IndexError).
Proof.
  split.
  - intros Hlen.
    destruct (loop_invariant zero norm imu_len raw gt_v (length raw - imu_len))
      as (st & Hst & _); [lia | lia |]. by exists st.
  - apply build_windows_short_gt.
Qed.

(** X2: a series with no more samples than the window length yields no
    built window at all: every window and every target is zero, and the
    velocities are not even read. *)
Theorem short_series_all_zero (zero : A) (norm : vec3 A -> A)
    (imu_len : nat) (raw : list (imu_vec A)) (gt_v : list (vec3 A)) :
  length raw <= imu_len ->
  build_windows zero norm imu_len raw gt_v
  = Ok (replicate (length raw) (replicate imu_len (replicate 6 zero)),
        replicate (length raw) zero).
Proof. apply build_windows_short_series. Qed.

(** X3: whenever the builder returns, there are as many windows and
    targets as samples and every window, built or left as allocated, has
    [imu_len] rows of six channels. *)
Theorem windows_have_fixed_shape (zero : A) (norm : vec3 A -> A)
    (imu_len : nat) (raw : list (imu_vec A)) (gt_v : list (vec3 A))
    (T : list (list (list A))) (Y : list A) :
  build_windows zero norm imu_len raw gt_v = Ok (T, Y) ->
  length T = length raw /\ length Y = length raw /\
  Forall (fun w => length w = imu_len /\ Forall (fun row => length row = 6) w) T.
Proof. apply build_windows_shape. Qed.

(** X4: the window anchored at an index below the window length is padded
    on the left: [imu_len - i - 1] rows of zeros, then the samples from
    the first one to the anchor, the anchor last. *)
Theorem early_windows_zero_padded (zero : A) (norm : vec3 A -> A)
    (imu_len : nat) (raw : list (imu_vec A)) (gt_v : list (vec3 A))
    (T : list (list (list A))) (Y : list A) (i : nat) :
  build_windows zero norm imu_len raw gt_v = Ok (T, Y) ->
  i < imu_len -> i < length raw - imu_len ->
  T !! i = Some (replicate (imu_len - i - 1) (replicate 6 zero)
                 ++ map row6 (take (i + 1) raw)).
Proof.
  intros Hrun Hi Hn.
  destruct (decide (length gt_v < length raw - imu_len)) as [Hs|Hs].
  { by rewrite build_windows_short_gt in Hrun. }
  destruct (loop_invariant zero norm imu_len raw gt_v (length raw - imu_len))
    as (st & Hst & _ & _ & Hlo & _); [lia | lia |].
  unfold build_windows in Hrun. rewrite Hrun in Hst. injection Hst as <-.
  destruct (Hlo i Hn) as [Hw _]. cbn in Hw. rewrite Hw. f_equal.
  unfold window_of. by rewrite (proj2 (Nat.ltb_lt _ _)) by done.
Qed.

End WindowTheorems.

(** ** Gathering rows by index *)

Lemma omap_lookup_seq {A} (pre l : list A) :
  omap (fun i => (pre ++ l) !! i) (seq (length pre) (length l)) = l.
Proof.
  revert pre. induction l as [|x l IH]; intros pre; cbn; [done|].
  rewrite list_lookup_middle by done. f_equal.
  specialize (IH (pre ++ [x])). rewrite length_app in IH. cbn in IH.
  rewrite Nat.add_1_r, <- app_assoc in IH. exact IH.
Qed.

Lemma omap_lookup_gather {A} (l : list A) (idx : list nat) (xs : list A) :
  Forall2 (fun i x => l !! i = Some x) idx xs -> omap (fun i => l !! i) idx = xs.
Proof. induction 1 as [|i x idx xs Hx _ IH]; cbn; [done|]. by rewrite Hx, IH. Qed.

Lemma delete_from_complement (n : nat) (idx : list nat) :
  NoDup idx -> Forall (fun i => i < n) idx ->
  idx ++ Np.delete_from 0 (seq 0 n) idx ≡ₚ seq 0 n.
Proof.
  intros Hnd Hin. apply NoDup_Permutation.
  - apply NoDup_app. split; [done|]. split; [|apply delete_from_NoDup].
    intros i Hi Hd. by apply elem_of_delete_from in Hd as [_ Hd].
  - apply NoDup_seq.
  - intros i. rewrite elem_of_app, elem_of_seq, elem_of_delete_from.
    rewrite Forall_forall in Hin. split.
    + intros [Hi|[? _]]; [apply Hin in Hi|]; lia.
    + intros ?. destruct (decide (i ∈ idx)); [by left | right]. split; [lia|done].
Qed.

(** The rows picked by distinct indices and the rows [np.delete] leaves
    are together the rows of the array. *)
Lemma take_delete_partition {A} (l : list A) (idx : list nat) (xs : list A) :
  NoDup idx -> Np.take_idx l idx = Ok xs ->
  xs ++ Np.delete_from 0 l idx ≡ₚ l.
Proof.
  intros Hnd Hxs. apply take_idx_lookup in Hxs.
  assert (Hin : Forall (fun i => i < length l) idx).
  { apply Forall_forall. intros i Hi.
    apply list_elem_of_lookup in Hi as [j Hj].
    destruct (Forall2_lookup_l _ _ _ _ _ Hxs Hj) as (x & _ & Hx).
    by eapply lookup_lt_Some. }
  pose proof (delete_from_lookup 0 l idx) as Hd.
  assert (Hd' : Forall2 (fun i x => l !! i = Some x)
                  (Np.delete_from 0 (seq 0 (length l)) idx) (Np.delete_from 0 l idx)).
  { eapply Forall2_impl; [exact Hd|]. intros i x [_ Hx]. by rewrite Nat.sub_0_r in Hx. }
  rewrite <- (omap_lookup_gather l idx xs Hxs).
  rewrite <- (omap_lookup_gather l _ _ Hd') at 1.
  rewrite <- omap_app, (delete_from_complement (length l) idx Hnd Hin).
  pose proof (omap_lookup_seq [] l) as E. cbn in E. by rewrite E.
Qed.

(** ** The datasets handed to the trainer *)
Section Datasets.
Import euroc_utils.

Lemma delete_inv {A} (a : list A) (idx : list nat) (d : list A) :
  Np.delete a idx = Ok d -> d = Np.delete_from 0 a idx.
Proof. unfold Np.delete. destruct (forallb _ idx); congruence. Qed.

Lemma take_idx_zip {A B} (a : list A) (b : list B) (idx : list nat) xs ys :
  Np.take_idx a idx = Ok xs -> Np.take_idx b idx = Ok ys ->
  Np.take_idx (zip a b) idx = Ok (zip xs ys).
Proof.
  revert xs ys. induction idx as [|i idx IH]; cbn; intros xs ys Hx Hy.
  - by injection Hx as <-.
  - apply bind_Ok in Hx as (x & Hx & Hxs). apply bind_Ok in Hxs as (xs' & Hxs & E1).
    apply bind_Ok in Hy as (y & Hy & Hys). apply bind_Ok in Hys as (ys' & Hys & E2).
    injection E1 as <-. injection E2 as <-.
    apply getitem_Ok in Hx, Hy.
    assert (Hz : getitem (zip a b) i = Ok (x, y)).
    { apply getitem_Ok. rewrite lookup_zip_with, Hx. cbn. by rewrite Hy. }
    rewrite Hz. cbn. by rewrite (IH xs' ys').
Qed.

Lemma delete_from_zip {A B} (k : nat) (a : list A) (b : list B) (idx : list nat) :
  Np.delete_from k (zip a b) idx
  = zip (Np.delete_from k a idx) (Np.delete_from k b idx).
Proof.
  revert k b. induction a as [|x a IH]; intros k [|y b]; try done.
  - cbn [zip_with Np.delete_from]. by rewrite zip_with_nil_r.
  - cbn. destruct (bool_decide (k ∈ idx)); cbn; by rewrite IH.
Qed.

(** X5: the testing dataset holds every window of the file after scaling,
    in file order and paired with its target, in batches of [batch_s] of
    which only the last can be short; the length it reports is the number
    of targets. *)
Theorem testing_dataset_complete (test_file : mat Q)
    (scale_g scale_a : Sklearn.MinMaxScaler) (batch_s : nat)
    (test_ds : dataset (list (list Q) * Q)) (ds_len : nat) :
  generate_cnn_testing_dataset test_file scale_g scale_a batch_s
    = Ok (test_ds, ds_len) ->
  ds_len = length (mat_y test_file) /\
  length (mat_imu test_file) = length (mat_y test_file) /\
  repeated _ test_ds = false /\
  exists scaled,
    scale_channels scale_g scale_a (mat_imu test_file) = Ok scaled /\
    concat (batches _ test_ds) = zip scaled (mat_y test_file) /\
    forall i bt, batches _ test_ds !! i = Some bt ->
      1 <= length bt <= batch_s /\
      (S i < length (batches _ test_ds) -> length bt = batch_s).
Proof.
  unfold generate_cnn_testing_dataset. intros H.
  apply bind_Ok in H as (scaled & Hs & H).
  apply bind_Ok in H as (elems & He & H).
  apply bind_Ok in H as (bs & Hb & H). injection H as <- <-.
  unfold from_tensor_slices in He.
  destruct (length scaled =? length (mat_y test_file)) eqn:E; [|done].
  apply Nat.eqb_eq in E. injection He as <-.
  apply batch_Ok in Hb as (_ & Hc & Hsz).
  rewrite <- (scale_channels_length _ _ _ _ Hs), E.
  repeat split; try done. by exists scaled.
Qed.

Section TrainingMore.
Variable rng : Type.
Variable choice : nat -> nat -> rng -> list nat * rng.
Variable shuffle : nat -> Z -> list (list (list Q) * Q) -> list (list (list Q) * Q).

(** X6: when the draw returns distinct indices and the shuffle permutes
    its input, the validation and training datasets of
    [generate_cnn_training_dataset] are a partition of the scaled windows
    of the training file: the validation set holds the pairs at the drawn
    indices, in drawn order, and the two sets together hold every pair
    exactly once.  The lengths it reports are [ceil(n * 0.1)] and the
    rest, and they are the sizes of the two sets when the draw has that
    many indices. *)
Theorem training_split_is_a_partition (train_file : mat Q)
    (scale_g scale_a : Sklearn.MinMaxScaler) (batch_s : nat) (g g' : rng)
    (train_ds val_ds : dataset (list (list Q) * Q)) (train_ds_len val_ds_len : nat) :
  let n := length (mat_y train_file) in
  let idx := fst (choice n (ceil_tenth n) g) in
  length (mat_imu train_file) = n ->
  NoDup idx ->
  (forall l, shuffle batch_s seed l ≡ₚ l) ->
  generate_cnn_training_dataset rng choice shuffle train_file scale_g scale_a batch_s g
    = Ok (train_ds, val_ds, (train_ds_len, val_ds_len), g') ->
  exists scaled,
    scale_channels scale_g scale_a (mat_imu train_file) = Ok scaled /\
    Forall2 (fun i p => zip scaled (mat_y train_file) !! i = Some p)
      idx (concat (batches _ val_ds)) /\
    concat (batches _ val_ds) ++ concat (batches _ train_ds)
      ≡ₚ zip scaled (mat_y train_file) /\
    val_ds_len = ceil_tenth n /\ train_ds_len = n - ceil_tenth n /\
    (length idx = ceil_tenth n ->
     length (concat (batches _ val_ds)) = val_ds_len /\
     length (concat (batches _ train_ds)) = train_ds_len).
Proof.
  intros n idx Hlen Hnd Hperm H.
  unfold generate_cnn_training_dataset in H.
  apply bind_Ok in H as (scaled & Hs & H). fold n in H.
  apply bind_Ok in H as ([idx' g1] & Hc & H).
  unfold random_choice in Hc. destruct (n <? ceil_tenth n); [done|].
  injection Hc as Hc. assert (idx' = idx) as -> by (subst idx; by rewrite Hc).
  apply bind_Ok in H as (vx_ & Hvx & H). apply bind_Ok in H as (vy_ & Hvy & H).
  apply bind_Ok in H as (tx & Htx%delete_inv & H).
  apply bind_Ok in H as (ty & Hty%delete_inv & H).
  apply bind_Ok in H as (vb & Hvb & H). apply bind_Ok in H as (tb & Htb & H).
  injection H as <- <- <- <- <-. cbn [batches].
  apply batch_Ok in Hvb as (_ & Hvc & _). apply batch_Ok in Htb as (_ & Htc & _).
  pose proof (take_idx_zip _ _ _ _ _ Hvx Hvy) as Hz.
  assert (Hlen' : length scaled = n).
  { change (scale_channels scale_g scale_a (mat_imu train_file) = Ok scaled) in Hs.
    by rewrite (scale_channels_length _ _ _ _ Hs). }
  assert (Hpart : zip vx_ vy_ ++ zip tx ty ≡ₚ zip scaled (mat_y train_file)).
  { subst tx ty. rewrite <- delete_from_zip. by apply take_delete_partition. }
  exists scaled. rewrite Hvc, Htc.
  split; [done|]. split; [by apply take_idx_lookup|].
  split; [by rewrite Hperm|]. split; [done|]. split; [done|].
  intros Hk.
  assert (Hv : length (zip vx_ vy_) = ceil_tenth n).
  { rewrite <- Hk. symmetry.
    apply (Forall2_length _ _ _ (take_idx_lookup _ _ _ Hz)). }
  split; [done|]. rewrite (Permutation_length (Hperm _)).
  apply Permutation_length in Hpart.
  rewrite length_app, (length_zip_with _ scaled), Hlen' in Hpart.
  fold n in Hpart. lia.
Qed.

End TrainingMore.



Section Pipeline.
Variable butter : nat -> Q -> result (list Q * list Q).
Variable norm : vec3 Q -> Q.
Variable rng : Type.
Variable choice : nat -> nat -> rng -> list nat * rng.


End Pipeline.
End Datasets.

(** ** Ground-truth objects *)

(** X8: [read_from_tuple] and [unroll] are inverse to each other. *)
Theorem gt_tuple_round_trip {A : Type} :
  (forall g : GT.t A, GT.read_from_tuple (GT.unroll g) = g) /\
  (forall d : vec3 A * vec3 A * quat A * vec3 A * vec3 A * Q,
     GT.unroll (GT.read_from_tuple d) = d).
Proof.
  split.
  - by intros [].
  - by intros [[[[[p v] q] w] a] ts].
Qed.

(** X9: [integrate] writes the velocity and nothing else, whatever the
    arithmetic computes: timestamp, position, attitude, angular velocity
    and acceleration are kept for every choice of the flags, the object is
    left as it is without [int_pos], and [int_att] has no effect on the
    result. *)
Theorem integrate_writes_velocity_only {A : Type}
    (elapsed : Q -> Q -> A) (sub div : A -> A -> A)
    (self gt_old : GT.t A) (int_pos int_att : bool) :
  GT.timestamp (GT.integrate elapsed sub div self gt_old int_pos int_att)
    = GT.timestamp self /\
  GT.pos (GT.integrate elapsed sub div self gt_old int_pos int_att) = GT.pos self /\
  GT.att (GT.integrate elapsed sub div self gt_old int_pos int_att) = GT.att self /\
  GT.ang_vel (GT.integrate elapsed sub div self gt_old int_pos int_att)
    = GT.ang_vel self /\
  GT.acc (GT.integrate elapsed sub div self gt_old int_pos int_att) = GT.acc self /\
  GT.integrate elapsed sub div self gt_old false int_att = self /\
  GT.integrate elapsed sub div self gt_old int_pos true
    = GT.integrate elapsed sub div self gt_old int_pos false.
Proof.
  unfold GT.integrate. cbn.
  split; [done|]. split; [done|]. split; [done|].
  split; [by destruct int_att|]. split; [done|]. split; [|done].
  by destruct self, int_att.
Qed.

(** ** More on the alignment of [euroc_utils] *)

Lemma traverse_Forall2 {A B} (f : A -> result B) (l : list A) (ys : list B) :
  traverse f l = Ok ys -> Forall2 (fun x y => f x = Ok y) l ys.
Proof.
  revert ys. induction l as [|x l IH]; cbn; intros ys H.
  - injection H as <-. constructor.
  - apply bind_Ok in H as (y & Hy & H). apply bind_Ok in H as (ys' & Hys & H).
    injection H as <-. constructor; [done | by apply IH].
Qed.

Lemma filter_sublist {A} (p : A -> bool) (l : list A) :
  List.filter p l `sublist_of` l.
Proof.
  induction l as [|x l IH]; cbn; [constructor|].
  destruct (p x); by constructor.
Qed.

(** X10: without ground truth the alignment of [euroc_utils] ends in
    [IndexError], whatever the IMU series.  When it returns, the retained
    samples are a subsequence of the series it was given, in the same
    order, with exactly one interpolated velocity each; if no timestamp is
    strictly inside the span both results are empty. *)
Theorem euroc_alignment_edges (raw : list (IMU.t Q)) (gt : list (GT.t Q)) :
  (gt = [] -> euroc_utils.interpolate_ground_truth raw gt = Raise IndexError) /\
  (forall imu' v,
     euroc_utils.interpolate_ground_truth raw gt = Ok (imu', v) ->
     imu' `sublist_of` raw /\ length v = length imu' /\
     exists t_first t_last,
       head (map GT.timestamp gt) = Some t_first /\
       last (map GT.timestamp gt) = Some t_last /\
       (Forall (fun s => in_span t_first t_last (IMU.timestamp s) = false) raw ->
        imu' = [] /\ v = [])).
Proof.
  split; [by intros ->|].
  intros imu' v H.
  destruct (euroc_alignment_trims raw gt imu' v H) as (t_first & t_last & Hf & Hl & E).
  assert (Hlen : length v = length imu').
  { unfold euroc_utils.interpolate_ground_truth in H.
    apply bind_Ok in H as (? & _ & H). apply bind_Ok in H as (? & _ & H).
    apply bind_Ok in H as (? & _ & H). apply bind_Ok in H as (? & _ & H).
    apply bind_Ok in H as (? & _ & H). apply bind_Ok in H as (vi & Hvi & H).
    injection H as <- <-.
    apply traverse_Forall2, Forall2_length in Hvi.
    by rewrite length_map in Hvi. }
  split; [subst imu'; apply filter_sublist|]. split; [done|].
  exists t_first, t_last. split; [done|]. split; [done|].
  intros Hout.
  assert (imu' = []) as ->.
  { subst imu'. apply elem_of_nil_inv. intros s Hs.
    apply list_elem_of_In, filter_In in Hs as [Hs Hin].
    rewrite Forall_forall in Hout. apply list_elem_of_In in Hs.
    rewrite (Hout s Hs) in Hin. done. }
  split; [done|]. by destruct v.
Qed.

(** ** More on [pre_process_data] *)

Lemma lfilter1_Ok (b a_tail x : list Q) (a0 : Q) :
  ~ (a0 == 0)%Q ->
  Scipy.lfilter1 b (a0 :: a_tail) x = Ok (Scipy.lfilter_run b a_tail a0 [] [] x).
Proof.
  intros Hne. unfold Scipy.lfilter1.
  destruct (Qeq_bool a0 0) eqn:E; [|done]. by apply Qeq_bool_iff in E.
Qed.

Lemma lfilter1_inv (b a x y : list Q) :
  Scipy.lfilter1 b a x = Ok y ->
  exists a0 a_tail, a = a0 :: a_tail /\ ~ (a0 == 0)%Q /\
                    y = Scipy.lfilter_run b a_tail a0 [] [] x.
Proof.
  unfold Scipy.lfilter1. destruct a as [|a0 a_tail]; [done|].
  destruct (Qeq_bool a0 0) eqn:E; [done|]. intros [= <-].
  exists a0, a_tail. split; [done|]. split; [|done].
  intros H. apply Qeq_bool_iff in H. congruence.
Qed.

Lemma fit_nonempty (X : list (list Q)) : X <> [] -> returns (Sklearn.fit X).
Proof. destruct X; [done|]. intros _. by eexists. Qed.

Section PreProcessMore.
Variable butter : nat -> Q -> result (list Q * list Q).

(** X12: [pre_process_data] returns only for a series that is not empty,
    with at least two velocities (the speed curve of the figure is a norm
    along axis 1) and with design coefficients whose leading denominator
    coefficient is not zero; it then returns one row per sample and hands
    the velocities back as it got them. *)
Theorem pre_process_data_needs (raw : list (IMU.t Q)) (gt_v : list (vec3 Q))
    filt gt' scalers :
  euroc_utils.pre_process_data butter raw gt_v = Ok (filt, gt', scalers) ->
  raw <> [] /\ 2 <= length gt_v /\
  (exists b a0 a_tail, butter 10 euroc_utils.w0 = Ok (b, a0 :: a_tail) /\
                       ~ (a0 == 0)%Q) /\
  length filt = length raw /\ gt' = gt_v.
Proof.
  destruct scalers as [sg sa]. intros H.
  pose proof (pre_process_data_velocities _ _ _ _ H) as Hv.
  apply pre_process_data_Ok in H as (b & a & fa & Hb & Hne & Hf & -> & Hlen & -> & _).
  split; [done|]. split; [done|]. split.
  - unfold Scipy.lfilter in Hf.
    apply bind_Ok in Hf as (fx & Hfx & _).
    apply lfilter1_inv in Hfx as (a0 & a_tail & -> & Ha0 & _).
    by exists b, a0, a_tail.
  - split; [|done]. rewrite length_zip_with, length_map. lia.
Qed.

(** With fewer than two velocities the run ends in the [AxisError] of the
    figure, whenever it gets that far. *)
Lemma pre_process_data_one_velocity (raw : list (IMU.t Q)) (gt_v : list (vec3 Q))
    b a0 a_tail :
  raw <> [] -> butter 10 euroc_utils.w0 = Ok (b, a0 :: a_tail) -> ~ (a0 == 0)%Q ->
  length gt_v < 2 ->
  euroc_utils.pre_process_data butter raw gt_v = Raise AxisError.
Proof.
  intros Hne Hb Ha0 Hv.
  unfold euroc_utils.pre_process_data. rewrite Hb. cbn [mbind result_bind].
  destruct (decide (map _ raw = [])) as [E|_].
  { apply fmap_nil_inv in E. done. }
  unfold Scipy.lfilter. rewrite !lfilter1_Ok by done. cbn [mbind result_bind].
  cbv zeta. by rewrite (proj2 (Nat.ltb_lt _ _) Hv).
Qed.
End PreProcessMore.

(** ** The filter is causal *)

Lemma lfilter_run_prefix (b a_tail : list Q) (a0 : Q) (xh yh x x' : list Q) :
  take (length x) (Scipy.lfilter_run b a_tail a0 xh yh (x ++ x'))
  = Scipy.lfilter_run b a_tail a0 xh yh x.
Proof.
  revert xh yh. induction x as [|x_n x IH]; intros xh yh; cbn; [done|].
  f_equal. apply IH.
Qed.

Lemma lfilter1_prefix (b a x x' y' : list Q) :
  Scipy.lfilter1 b a (x ++ x') = Ok y' ->
  Scipy.lfilter1 b a x = Ok (take (length x) y').
Proof.
  intros H. apply lfilter1_inv in H as (a0 & a_tail & -> & Ha0 & ->).
  rewrite lfilter1_Ok by done. by rewrite lfilter_run_prefix.
Qed.

Lemma lfilter_prefix (b a : list Q) (x x' y' : list (vec3 Q)) :
  Scipy.lfilter b a (x ++ x') = Ok y' ->
  Scipy.lfilter b a x = Ok (take (length x) y').
Proof.
  unfold Scipy.lfilter. intros H.
  apply bind_Ok in H as (fx & Hx & H). apply bind_Ok in H as (fy & Hy & H).
  apply bind_Ok in H as (fz & Hz & H). injection H as <-.
  rewrite map_app in Hx, Hy, Hz.
  apply lfilter1_prefix in Hx, Hy, Hz. rewrite length_map in Hx, Hy, Hz.
  rewrite Hx, Hy, Hz. cbn [mbind result_bind].
  by rewrite !zip_with_take.
Qed.

(** X13: the filter of [pre_process_data] is a single forward pass: the
    rows it returns for a series are the first rows it returns for any
    longer series that starts with it, so no filtered row depends on a
    later sample. *)
Theorem pre_process_data_is_causal
    (butter : nat -> Q -> result (list Q * list Q))
    (raw more : list (IMU.t Q)) (gt_v gt_w : list (vec3 Q))
    filt gt' scalers filt_long gt'' scalers_long :
  euroc_utils.pre_process_data butter raw gt_v = Ok (filt, gt', scalers) ->
  euroc_utils.pre_process_data butter (raw ++ more) gt_w
    = Ok (filt_long, gt'', scalers_long) ->
  take (length raw) filt_long = filt.
Proof.
  destruct scalers as [sg sa], scalers_long as [sg' sa']. intros H1 H2.
  apply pre_process_data_Ok in H1 as (b & a & fa & Hb & _ & Hf & -> & Hlen & _).
  apply pre_process_data_Ok in H2 as (b' & a' & fa' & Hb' & _ & Hf' & -> & Hlen' & _).
  rewrite Hb in Hb'. injection Hb' as <- <-.
  rewrite map_app in Hf'. apply lfilter_prefix in Hf'.
  rewrite length_map, Hf in Hf'. injection Hf' as ->.
  rewrite zip_with_take, map_app. f_equal.
  rewrite take_app_length'; [done | by rewrite length_map].
Qed.

(** ** More on the class methods *)
Section AbcMore.
Import inertial_ABCs.

(** X14: [basic_preprocessing] returns only for an object whose four
    attributes are set and whose IMU series is not empty (the storage
    directory is asked for last, after filtering and fitting); the ground
    truth it returns is the unrolled ground truth it was given, not
    filtered, and the IMU matrix has one row per sample. *)
Theorem basic_preprocessing_needs butter filter_with_coeffs
    (self : InertialDataset Q) (filter_freq : Q) rows gts scalers :
  basic_preprocessing butter filter_with_coeffs self filter_freq
    = Ok (rows, gts, scalers) ->
  exists imu gt fs dir,
    imu_data self = Some imu /\ gt_data self = Some gt /\
    sampling_freq self = Some fs /\ ds_local_dir self = Some dir /\
    imu <> [] /\ ~ (fs == 0)%Q /\
    gts = map GT.unroll gt /\ length rows = length imu.
Proof.
  destruct scalers as [sg sa]. intros H.
  destruct (basic_preprocessing_set _ _ _ _ _ H) as (imu & gt & fs & Hi & Hg & Hf).
  destruct (basic_preprocessing_Ok _ _ _ _ _ _ _ _ _ _ _ Hi Hg Hf H)
    as (b & a & Hd & Hne & _ & _ & _ & Hlen & Hgts & _).
  unfold basic_preprocessing in H. rewrite Hi, Hg, Hf in H.
  apply bind_Ok in H as (? & _ & H). apply bind_Ok in H as ([? ?] & _ & H).
  apply bind_Ok in H as (? & _ & H). apply bind_Ok in H as (? & _ & H).
  apply bind_Ok in H as (? & _ & H). apply bind_Ok in H as (dir & Hdir & _).
  unfold get_ds_directory in Hdir.
  destruct (ds_local_dir self) as [d|] eqn:Ed; [|done].
  exists imu, gt, fs, d. repeat split; try done.
  intros Hz. unfold design in Hd.
  rewrite py_div_Ok in Hd by done. cbn [mbind result_bind] in Hd.
  rewrite py_div_zero in Hd by (by apply half_zero). done.
Qed.

Section AlignmentMore.
Context {A : Type}.
Variable interpolate_ts :
  list Q -> list Q -> list (vec3 A) -> result (list (vec3 A)).
Variable interpolate_ts_quat :
  list Q -> list Q -> list (quat A) -> result (list (quat A)).

(** X15: the class alignment ends in [TypeError] when either series is
    unset and in [IndexError] when the ground truth is empty, before any
    interpolation is attempted. *)
Theorem class_alignment_rejects (self : InertialDataset A) :
  (imu_data self = None ->
   interpolate_ground_truth interpolate_ts interpolate_ts_quat self
     = Raise TypeError) /\
  (gt_data self = None ->
   interpolate_ground_truth interpolate_ts interpolate_ts_quat self
     = Raise TypeError) /\
  (forall imu, imu_data self = Some imu -> gt_data self = Some [] ->
   interpolate_ground_truth interpolate_ts interpolate_ts_quat self
     = Raise IndexError).
Proof.
  unfold interpolate_ground_truth. repeat split.
  - by intros ->.
  - intros ->. by destruct (imu_data self).
  - by intros imu -> ->.
Qed.

(** X16: when the class alignment returns, the sampling frequency, the
    directory and the plot flag are the ones it was given, every
    interpolated ground-truth object carries the timestamp of the retained
    IMU sample at the same position, and there are as many of them as the
    position interpolation returned rows. *)
Theorem class_alignment_timestamps (self self' : InertialDataset A) :
  interpolate_ground_truth interpolate_ts interpolate_ts_quat self = Ok self' ->
  sampling_freq self' = sampling_freq self /\
  ds_local_dir self' = ds_local_dir self /\
  plot_stft self' = plot_stft self /\
  exists imu' gt',
    imu_data self' = Some imu' /\ gt_data self' = Some gt' /\
    map GT.timestamp gt' = take (length gt') (map IMU.timestamp imu') /\
    length gt' <= length imu'.
Proof.
  unfold interpolate_ground_truth. intros H.
  apply bind_Ok in H as (imu & _ & H). apply bind_Ok in H as (gt & _ & H).
  apply bind_Ok in H as (gts & _ & H). apply bind_Ok in H as (t_first & _ & H).
  apply bind_Ok in H as (t_last & _ & H).
  set (imu' := List.filter _ imu) in H.
  apply bind_Ok in H as (p_i & _ & H). apply bind_Ok in H as (v_i & _ & H).
  apply bind_Ok in H as (q_i & _ & H). apply bind_Ok in H as (w_i & _ & H).
  apply bind_Ok in H as (a_i & _ & H). apply bind_Ok in H as (out & Hout & H).
  injection H as <-. cbn. repeat split.
  exists imu', out. split; [done|]. split; [done|].
  apply traverse_Forall2 in Hout.
  assert (Hts : Forall2 (fun j g => map IMU.timestamp imu' !! j = Some (GT.timestamp g))
                  (seq 0 (length p_i)) out).
  { eapply Forall2_impl; [exact Hout|]. intros j g Hg. cbv beta in Hg.
    apply bind_Ok in Hg as (p & _ & Hg). apply bind_Ok in Hg as (v & _ & Hg).
    apply bind_Ok in Hg as (q & _ & Hg). apply bind_Ok in Hg as (w & _ & Hg).
    apply bind_Ok in Hg as (a & _ & Hg). apply bind_Ok in Hg as (ts & Hts & Hg).
    injection Hg as <-. cbn. by apply getitem_Ok. }
  pose proof (Forall2_length _ _ _ Hts) as Hlen. rewrite length_seq in Hlen.
  assert (Hle : length out <= length imu').
  { destruct out as [|g out _] using rev_ind; [cbn; lia|].
    rewrite length_app in *. cbn in *.
    assert (Hj : seq 0 (length p_i) !! length out = Some (length out)).
    { apply lookup_seq. lia. }
    destruct (Forall2_lookup_l _ _ _ _ _ Hts Hj) as (g' & _ & Hg').
    apply lookup_lt_Some in Hg'. rewrite length_map in Hg'. lia. }
  split; [|done].
  apply list_eq. intros j. rewrite list_lookup_fmap.
  destruct (decide (j < length out)) as [Hj|Hj].
  - rewrite lookup_take_lt by done.
    destruct (lookup_lt_is_Some_2 out j Hj) as [g Hg]. rewrite Hg. cbn.
    assert (Hsj : seq 0 (length p_i) !! j = Some j) by (apply lookup_seq; lia).
    destruct (Forall2_lookup_l _ _ _ _ _ Hts Hsj) as (g' & Hg' & Hgj).
    rewrite Hg in Hg'. injection Hg' as <-. by rewrite Hgj.
  - rewrite lookup_take_ge by lia. by rewrite lookup_ge_None_2 by lia.
Qed.

End AlignmentMore.
End AbcMore.

(** ** Paths *)





Section ScalerFiles.
Import euroc_files.




Lemma dir_is_not_its_pointer (d : string) : d <> d +:+ SCALER_DIR_FILE.
Proof.
  induction d as [|c d IH]; [done|]. cbn. intros [= H]. by apply IH.
Qed.

Lemma gyro_path_is_not_dir (d : string) : d +:+ SCALER_GYRO_FILE <> d.
Proof.
  induction d as [|c d IH]; [done|]. cbn. intros [= H]. by apply IH.
Qed.

Lemma acc_path_is_not_dir (d : string) : d +:+ SCALER_ACC_FILE <> d.
Proof.
  induction d as [|c d IH]; [done|]. cbn. intros [= H]. by apply IH.
Qed.

(** ** The scaler files *)

Lemma exists_true (st : gmap string content) (p : string) :
  exists_ st p = true <-> is_Some (st !! p).
Proof. unfold exists_. apply bool_decide_eq_true. Qed.

Lemma exists_false (st : gmap string content) (p : string) :
  exists_ st p = false <-> st !! p = None.
Proof.
  unfold exists_. rewrite bool_decide_eq_false. by rewrite eq_None_not_Some.
Qed.


Lemma add_scalers_lookup (root destiny : string) (st : gmap string content) :
  (forall old, st !! (destiny +:+ SCALER_DIR_FILE) = Some old ->
     add_scalers_to_training_dir root destiny st !! (destiny +:+ SCALER_DIR_FILE)
     = Some old) /\
  (st !! (destiny +:+ SCALER_DIR_FILE) = None ->
     add_scalers_to_training_dir root destiny st !! (destiny +:+ SCALER_DIR_FILE)
     = Some (Text root)) /\
  (forall p, p <> destiny -> p <> destiny +:+ SCALER_DIR_FILE ->
     add_scalers_to_training_dir root destiny st !! p = st !! p) /\
  (forall p, is_Some (st !! p) ->
     add_scalers_to_training_dir root destiny st !! p = st !! p) /\
  is_Some (add_scalers_to_training_dir root destiny st !! destiny) /\
  is_Some (add_scalers_to_training_dir root destiny st !! (destiny +:+ SCALER_DIR_FILE)).
Proof.
  set (ptr := destiny +:+ SCALER_DIR_FILE).
  assert (Hne : destiny <> ptr) by apply dir_is_not_its_pointer.
  set (st1 := if exists_ st destiny then st else <[destiny := Directory]> st).
  assert (Hptr1 : st1 !! ptr = st !! ptr).
  { unfold st1. destruct (exists_ st destiny); [done|]. by rewrite lookup_insert_ne. }
  assert (Hdir1 : is_Some (st1 !! destiny)).
  { unfold st1. destruct (exists_ st destiny) eqn:E.
    - by apply exists_true.
    - rewrite lookup_insert_eq. by eexists. }
  assert (Hsome1 : forall p, is_Some (st !! p) -> st1 !! p = st !! p).
  { intros p Hp. unfold st1. destruct (exists_ st destiny) eqn:E; [done|].
    apply exists_false in E. rewrite lookup_insert_ne; [done|].
    intros ->. rewrite E in Hp. by destruct Hp. }
  assert (Hadd : add_scalers_to_training_dir root destiny st
                 = if exists_ st1 ptr then st1 else <[ptr := Text root]> st1) by done.
  rewrite Hadd. repeat split.
  - intros old Hold.
    destruct (exists_ st1 ptr) eqn:E; [by rewrite Hptr1|].
    apply exists_false in E. rewrite Hptr1 in E. congruence.
  - intros Hnone.
    destruct (exists_ st1 ptr) eqn:E.
    + apply exists_true in E. rewrite Hptr1, Hnone in E. by destruct E.
    + apply lookup_insert_eq.
  - intros p Hp1 Hp2.
    assert (st1 !! p = st !! p).
    { unfold st1. destruct (exists_ st destiny); [done|]. by rewrite lookup_insert_ne. }
    destruct (exists_ st1 ptr); [done|]. by rewrite lookup_insert_ne.
  - intros p Hp. destruct (exists_ st1 ptr) eqn:E; [by apply Hsome1|].
    apply exists_false in E. rewrite lookup_insert_ne; [by apply Hsome1|].
    intros ->. rewrite Hptr1 in E. rewrite E in Hp. by destruct Hp.
  - destruct (exists_ st1 ptr); [done|]. by rewrite lookup_insert_ne.
  - destruct (exists_ st1 ptr) eqn:E.
    + by apply exists_true.
    + rewrite lookup_insert_eq. by eexists.
Qed.

(** X17: [add_scalers_to_training_dir] writes the pointer file only when
    there is none: an existing pointer file keeps its content whatever
    [root] is, no path that exists is changed, and a second call, with any
    root, changes nothing. *)
Theorem scaler_pointer_written_once (root root' destiny : string)
    (st : gmap string content) :
  (forall p, is_Some (st !! p) ->
     add_scalers_to_training_dir root destiny st !! p = st !! p) /\
  (forall p, p <> destiny -> p <> destiny +:+ SCALER_DIR_FILE ->
     add_scalers_to_training_dir root destiny st !! p = st !! p) /\
  add_scalers_to_training_dir root' destiny
    (add_scalers_to_training_dir root destiny st)
  = add_scalers_to_training_dir root destiny st.
Proof.
  destruct (add_scalers_lookup root destiny st) as (_ & _ & Hother & Hsome & Hd & Hp).
  split; [exact Hsome|]. split; [exact Hother|].
  unfold add_scalers_to_training_dir at 1.
  rewrite (proj2 (exists_true _ destiny) Hd).
  by rewrite (proj2 (exists_true _ (destiny +:+ SCALER_DIR_FILE)) Hp).
Qed.


End ScalerFiles.

(** ** Orientation interpolation along the shorter arc *)

Section SlerpGeometry.
Import data_utils.
Local Open Scope R_scope.

Lemma qdot_combination_r (a b : R) (p q r : quat R) :
  qdot p (qadd (qscale a q) (qscale b r)) = a * qdot p q + b * qdot p r.
Proof. unfold qdot, qadd, qscale. cbn. ring. Qed.

Lemma qdot_comm (p q : quat R) : qdot p q = qdot q p.
Proof. unfold qdot. ring. Qed.

(** Renormalizing a unit quaternion changes nothing. *)
Lemma normalize_of_unit (q : quat R) : qdot q q = 1 -> normalize q = q.
Proof.
  intros H. unfold normalize, qnorm. rewrite H, sqrt_1.
  destruct q as [w x y z]. unfold qscale. cbn. f_equal; field.
Qed.

Lemma shorter_end_unit (q0 q1 : quat R) :
  qdot q1 q1 = 1 -> qdot (shorter_end q0 q1) (shorter_end q0 q1) = 1.
Proof.
  intros H. unfold shorter_end.
  destruct (Rlt_dec (qdot q0 q1) 0); [by rewrite qdot_neg_neg | done].
Qed.

(** The shorter arc: the dot product with its end is not negative. *)
Lemma shorter_end_dot (q0 q1 : quat R) : 0 <= qdot q0 (shorter_end q0 q1).
Proof.
  unfold shorter_end.
  destruct (Rlt_dec (qdot q0 q1) 0); [rewrite qdot_neg_r|]; lra.
Qed.

(** [slerp] in terms of the end and the angle of the shorter arc. *)
Lemma slerp_shorter_arc (q0 q1 : quat R) (t : R) :
  slerp q0 q1 t
  = normalize
      (if Req_dec_T (sin (arc_angle q0 q1)) 0 then q0
       else qadd (qscale (sin ((1 - t) * arc_angle q0 q1) / sin (arc_angle q0 q1)) q0)
                 (qscale (sin (t * arc_angle q0 q1) / sin (arc_angle q0 q1))
                    (shorter_end q0 q1))).
Proof.
  unfold slerp, arc_angle, shorter_end.
  destruct (Rlt_dec (qdot q0 q1) 0); [by rewrite qdot_neg_r | done].
Qed.

Lemma sin_first_weight (t theta : R) :
  sin ((1 - t) * theta) + sin (t * theta) * cos theta = sin theta * cos (t * theta).
Proof.
  replace ((1 - t) * theta) with (theta - t * theta) by ring.
  rewrite sin_minus. ring.
Qed.

Lemma sin_second_weight (t theta : R) :
  sin ((1 - t) * theta) * cos theta + sin (t * theta)
  = sin theta * cos ((1 - t) * theta).
Proof.
  replace (t * theta) with (theta - (1 - t) * theta) at 1 by ring.
  rewrite sin_minus. ring.
Qed.

(** On a unit pair [slerp] is the point of the shorter great-circle arc at
    the fraction [t] of its angle: it is the great-circle combination of
    [q0] and the end of the arc (renormalizing leaves it as it is), it has
    unit norm, and its angles to [q0] and to the end of the arc are [t] and
    [1 - t] times the angle of the arc. *)
Lemma slerp_on_shorter_arc (q0 q1 : quat R) (t : R) :
  unit_quat q0 -> unit_quat q1 ->
  let q1' := shorter_end q0 q1 in
  let theta := arc_angle q0 q1 in
  0 <= qdot q0 q1' /\
  (sin theta <> 0 ->
   slerp q0 q1 t = qadd (qscale (sin ((1 - t) * theta) / sin theta) q0)
                        (qscale (sin (t * theta) / sin theta) q1')) /\
  (sin theta = 0 -> q1' = q0 /\ slerp q0 q1 t = q0) /\
  unit_quat (slerp q0 q1 t) /\
  qdot q0 (slerp q0 q1 t) = cos (t * theta) /\
  qdot q1' (slerp q0 q1 t) = cos ((1 - t) * theta).
Proof.
  intros H0 H1 q1' theta. pose proof (slerp_unit q0 q1 t H0 H1) as Hu.
  apply unit_quat_dot in H0, H1.
  pose proof (shorter_end_unit q0 q1 H1) as H1'. fold q1' in H1'.
  pose proof (shorter_end_dot q0 q1) as Hd. fold q1' in Hd.
  assert (Hb : -1 <= qdot q0 q1' <= 1) by (by apply qdot_unit_bounds).
  assert (Hc : qdot q0 q1' = cos theta).
  { unfold theta, arc_angle. fold q1'. symmetry. by apply cos_acos. }
  assert (Hgen : sin theta <> 0 ->
    slerp q0 q1 t = qadd (qscale (sin ((1 - t) * theta) / sin theta) q0)
                         (qscale (sin (t * theta) / sin theta) q1')).
  { intros Hs. rewrite slerp_shorter_arc. fold theta q1'.
    destruct (Req_dec_T (sin theta) 0) as [E|_]; [done|].
    apply normalize_of_unit. by apply weighted_sum_unit. }
  assert (Hdeg : sin theta = 0 -> q1' = q0 /\ slerp q0 q1 t = q0).
  { intros Hs.
    assert (Hc1 : cos theta = 1).
    { pose proof (sin2_cos2 theta) as H2. unfold Rsqr in H2. rewrite Hs in H2.
      assert (Hsq : (cos theta - 1) * (cos theta + 1) = 0) by lra.
      apply Rmult_integral in Hsq as [?|?]; lra. }
    split.
    - rewrite Hc1 in Hc.
      destruct q0 as [w0 x0 y0 z0], q1' as [w1 x1 y1 z1].
      unfold qdot in *. cbn in *.
      assert (Hz : (w0 - w1) * (w0 - w1) + (x0 - x1) * (x0 - x1)
                   + (y0 - y1) * (y0 - y1) + (z0 - z1) * (z0 - z1) = 0) by lra.
      pose proof (Rle_0_sqr (w0 - w1)). pose proof (Rle_0_sqr (x0 - x1)).
      pose proof (Rle_0_sqr (y0 - y1)). pose proof (Rle_0_sqr (z0 - z1)).
      unfold Rsqr in *.
      assert (w0 - w1 = 0) by (apply Rsqr_0_uniq; unfold Rsqr; lra).
      assert (x0 - x1 = 0) by (apply Rsqr_0_uniq; unfold Rsqr; lra).
      assert (y0 - y1 = 0) by (apply Rsqr_0_uniq; unfold Rsqr; lra).
      assert (z0 - z1 = 0) by (apply Rsqr_0_uniq; unfold Rsqr; lra).
      f_equal; lra.
    - rewrite slerp_shorter_arc. fold theta.
      destruct (Req_dec_T (sin theta) 0) as [_|E]; [|done].
      by apply normalize_of_unit. }
  split; [done|]. split; [done|]. split; [done|]. split; [done|].
  destruct (Req_dec (sin theta) 0) as [Hs|Hs].
  - destruct (Hdeg Hs) as [E1 ->]. rewrite E1, H0.
    assert (Hth : theta = 0).
    { unfold theta, arc_angle. fold q1'. rewrite E1, H0. apply acos_1. }
    rewrite Hth, !Rmult_0_r, cos_0. done.
  - rewrite (Hgen Hs), !qdot_combination_r.
    rewrite H0, H1', (qdot_comm q1' q0), Hc. split.
    + pose proof (sin_first_weight t theta). field_simplify_eq; [|done]. lra.
    + pose proof (sin_second_weight t theta). field_simplify_eq; [|done]. lra.
Qed.

End SlerpGeometry.

Section SlerpOutputs.
Import data_utils.

(** The orientation at a new timestamp is the [slerp] of the first pair of
    consecutive ground-truth samples that brackets it. *)
Lemma slerp_at_bracket (ts : list Q) (qs : list (quat R)) (x : Q) (q : quat R) :
  slerp_at ts qs x = Ok q ->
  exists k t_lo t_hi q_lo q_hi,
    ts !! k = Some t_lo /\ ts !! S k = Some t_hi /\
    qs !! k = Some q_lo /\ qs !! S k = Some q_hi /\
    (t_lo <= x)%Q /\ (x <= t_hi)%Q /\
    q = slerp q_lo q_hi (fraction t_lo t_hi x) /\
    forall k' a b, k' < k -> ts !! k' = Some a -> ts !! S k' = Some b ->
                   ~ ((a <= x)%Q /\ (x <= b)%Q).
Proof.
  revert qs. induction ts as [|t0 ts IH]; intros qs H; [done|].
  destruct ts as [|t1 ts]; [done|].
  destruct qs as [|p0 [|p1 qs]]; try done.
  cbn [slerp_at] in H.
  destruct (Qle_bool t0 x && Qle_bool x t1) eqn:Hb.
  - apply andb_true_iff in Hb as [Hlo%Qle_bool_iff Hhi%Qle_bool_iff].
    injection H as <-. exists 0, t0, t1, p0, p1.
    repeat split; try done. intros k' a b Hk. lia.
  - destruct (IH (p1 :: qs) H)
      as (k & t_lo & t_hi & q_lo & q_hi & H1 & H2 & H3 & H4 & Hlo & Hhi & -> & Hfirst).
    exists (S k), t_lo, t_hi, q_lo, q_hi. repeat split; try done.
    intros [|k'] a b Hk Ha Hb'.
    + cbn in Ha, Hb'. injection Ha as <-. injection Hb' as <-.
      intros [Hl Hh]. apply Qle_bool_iff in Hl, Hh. rewrite Hl, Hh in Hb. done.
    + apply (Hfirst k' a b); [lia | done | done].
Qed.

(** What the class alignment stores as orientation: for every retained
    sample, in order, an object with the timestamp of the sample and the
    [slerp] of the two consecutive ground-truth orientations whose
    timestamps bracket it. *)
Lemma class_alignment_orientations
    (self self' : inertial_ABCs.InertialDataset R) gt imu' gt' :
  inertial_ABCs.gt_data self = Some gt ->
  inertial_ABCs.interpolate_ground_truth interpolate_ts interpolate_ts_quat self
    = Ok self' ->
  inertial_ABCs.imu_data self' = Some imu' ->
  inertial_ABCs.gt_data self' = Some gt' ->
  Forall2 (fun s g =>
    GT.timestamp g = IMU.timestamp s /\
    exists k g_lo g_hi,
      gt !! k = Some g_lo /\ gt !! S k = Some g_hi /\
      (GT.timestamp g_lo <= IMU.timestamp s)%Q /\
      (IMU.timestamp s <= GT.timestamp g_hi)%Q /\
      GT.att g = slerp (GT.att g_lo) (GT.att g_hi)
                   (fraction (GT.timestamp g_lo) (GT.timestamp g_hi)
                      (IMU.timestamp s))) imu' gt'.
Proof.
  intros Hgt H Himu' Hgt'.
  unfold inertial_ABCs.interpolate_ground_truth in H. rewrite Hgt in H.
  apply bind_Ok in H as (imu & _ & H).
  cbn [inertial_ABCs.not_none mbind result_bind] in H.
  apply bind_Ok in H as (gts & Hgts & H).
  apply bind_Ok in H as (t_first & _ & H).
  apply bind_Ok in H as (t_last & _ & H).
  set (kept := List.filter _ imu) in H.
  apply bind_Ok in H as (p_i & Hp & H).
  apply bind_Ok in H as (v_i & _ & H).
  apply bind_Ok in H as (q_i & Hq & H).
  apply bind_Ok in H as (w_i & _ & H).
  apply bind_Ok in H as (a_i & _ & H).
  apply bind_Ok in H as (out & Hout & H).
  injection H as <-. cbn in Himu', Hgt'.
  injection Himu' as <-. injection Hgt' as <-.
  destruct (decide (map GT.unroll gt = [])); [done|]. injection Hgts as <-.
  assert (Ets : map snd (map GT.unroll gt) = map GT.timestamp gt).
  { rewrite map_map. by apply map_ext. }
  rewrite Ets in Hp, Hq.
  apply traverse_Forall2 in Hout, Hp, Hq.
  pose proof (Forall2_length _ _ _ Hp) as Hlp. rewrite length_map in Hlp.
  pose proof (Forall2_length _ _ _ Hout) as Hlo. rewrite length_seq in Hlo.
  apply Forall2_same_length_lookup_2; [congruence|].
  intros j s g Hs Hg.
  assert (Hj : j < length p_i).
  { rewrite Hlo. by eapply lookup_lt_Some. }
  assert (Hsj : seq 0 (length p_i) !! j = Some j) by (by apply lookup_seq).
  pose proof (Forall2_lookup_lr _ _ _ _ _ _ Hout Hsj Hg) as Hrow.
  cbv beta in Hrow.
  apply bind_Ok in Hrow as (p & _ & Hrow).
  apply bind_Ok in Hrow as (v & _ & Hrow).
  apply bind_Ok in Hrow as (q & Hqj & Hrow).
  apply bind_Ok in Hrow as (w & _ & Hrow).
  apply bind_Ok in Hrow as (a & _ & Hrow).
  apply bind_Ok in Hrow as (ts & Hts & Hrow).
  injection Hrow as <-. cbn [GT.read_from_tuple GT.timestamp GT.att].
  apply getitem_Ok in Hqj, Hts.
  rewrite list_lookup_fmap, Hs in Hts. injection Hts as <-.
  split; [done|].
  assert (Hsq : map IMU.timestamp kept !! j = Some (IMU.timestamp s)).
  { by rewrite list_lookup_fmap, Hs. }
  pose proof (Forall2_lookup_lr _ _ _ _ _ _ Hq Hsq Hqj) as Hslerp.
  apply slerp_at_bracket in Hslerp
    as (k & t_lo & t_hi & q_lo & q_hi & H1 & H2 & H3 & H4 & Hlo' & Hhi' & -> & _).
  rewrite list_lookup_fmap in H1. rewrite list_lookup_fmap in H2.
  rewrite list_lookup_fmap in H3. rewrite list_lookup_fmap in H4.
  destruct (gt !! k) as [g_lo|] eqn:Ek; [|done].
  destruct (gt !! S k) as [g_hi|] eqn:ESk; [|done].
  cbn in H1, H2, H3, H4.
  injection H1 as <-. injection H2 as <-. injection H3 as <-. injection H4 as <-.
  by exists k, g_lo, g_hi.
Qed.

(** C4: the orientation interpolation is the spherical one along the
    shorter arc.  For unit quaternions [q0], [q1] and every fraction [t],
    with [q1'] the second quaternion, sign-flipped when its dot product
    with the first is negative, and [theta] the angle between [q0] and
    [q1'], [slerp q0 q1 t] is the great-circle combination of [q0] and
    [q1'] with the weights [sin((1-t) theta) / sin theta] and
    [sin(t theta) / sin theta] (it is [q0] when the arc has length zero),
    it has unit norm, and its angles to [q0] and to [q1'] are [t theta]
    and [(1-t) theta].  The alignment stores, for every retained sample in
    order, the [slerp] of the two consecutive ground-truth orientations
    whose timestamps bracket the timestamp of the sample, at the fraction
    of the timestamp between them; so every orientation it returns has
    unit norm when the orientations it reads do. *)
Theorem interpolated_orientation_is_slerp :
  (forall (q0 q1 : quat R) (t : R),
     unit_quat q0 -> unit_quat q1 ->
     (0 <= qdot q0 (shorter_end q0 q1))%R /\
     (sin (arc_angle q0 q1) <> 0%R ->
      slerp q0 q1 t
      = qadd (qscale (sin ((1 - t) * arc_angle q0 q1) / sin (arc_angle q0 q1)) q0)
             (qscale (sin (t * arc_angle q0 q1) / sin (arc_angle q0 q1))
                (shorter_end q0 q1))) /\
     (sin (arc_angle q0 q1) = 0%R ->
      shorter_end q0 q1 = q0 /\ slerp q0 q1 t = q0) /\
     unit_quat (slerp q0 q1 t) /\
     qdot q0 (slerp q0 q1 t) = cos (t * arc_angle q0 q1) /\
     qdot (shorter_end q0 q1) (slerp q0 q1 t) = cos ((1 - t) * arc_angle q0 q1)) /\
  (forall (self self' : inertial_ABCs.InertialDataset R) gt imu' gt',
     inertial_ABCs.gt_data self = Some gt ->
     inertial_ABCs.interpolate_ground_truth interpolate_ts interpolate_ts_quat self
       = Ok self' ->
     inertial_ABCs.imu_data self' = Some imu' ->
     inertial_ABCs.gt_data self' = Some gt' ->
     Forall2 (fun s g =>
       GT.timestamp g = IMU.timestamp s /\
       exists k g_lo g_hi,
         gt !! k = Some g_lo /\ gt !! S k = Some g_hi /\
         (GT.timestamp g_lo <= IMU.timestamp s)%Q /\
         (IMU.timestamp s <= GT.timestamp g_hi)%Q /\
         GT.att g = slerp (GT.att g_lo) (GT.att g_hi)
                      (fraction (GT.timestamp g_lo) (GT.timestamp g_hi)
                         (IMU.timestamp s))) imu' gt' /\
     (Forall (fun g => unit_quat (GT.att g)) gt ->
      Forall (fun g => unit_quat (GT.att g)) gt')).
Proof.
  split.
  - intros q0 q1 t H0 H1. exact (slerp_on_shorter_arc q0 q1 t H0 H1).
  - intros self self' gt imu' gt' Hgt H Himu' Hgt'.
    pose proof (class_alignment_orientations self self' gt imu' gt' Hgt H Himu' Hgt')
      as Hall.
    split; [exact Hall|]. intros Hunit. rewrite Forall_forall in Hunit.
    apply Forall_forall. intros g Hg.
    apply list_elem_of_lookup_1 in Hg as [j Hg].
    destruct (Forall2_lookup_r _ _ _ _ _ Hall Hg)
      as (s & _ & _ & k & g_lo & g_hi & Hlo & Hhi & _ & _ & ->).
    apply slerp_unit; apply Hunit; by eapply list_elem_of_lookup_2.
Qed.

End SlerpOutputs.

Lemma interpolated_orientation_is_slerp_witness :
  (data_utils.qdot (Quat 1 0 0 0)%R
     (data_utils.slerp (Quat 1 0 0 0)%R (Quat 0 1 0 0)%R (1 / 2)%R)
   = cos (1 / 2 * arc_angle (Quat 1 0 0 0)%R (Quat 0 1 0 0)%R))%R /\
  exists self' imu' gt',
    inertial_ABCs.interpolate_ground_truth
      data_utils.interpolate_ts data_utils.interpolate_ts_quat ds_r = Ok self' /\
    inertial_ABCs.imu_data self' = Some imu' /\
    inertial_ABCs.gt_data self' = Some gt' /\
    map IMU.timestamp imu' = [2%Q] /\
    Forall2 (fun s g =>
      GT.timestamp g = IMU.timestamp s /\
      exists k g_lo g_hi,
        gt_r !! k = Some g_lo /\ gt_r !! S k = Some g_hi /\
        (GT.timestamp g_lo <= IMU.timestamp s)%Q /\
        (IMU.timestamp s <= GT.timestamp g_hi)%Q /\
        GT.att g = data_utils.slerp (GT.att g_lo) (GT.att g_hi)
                     (data_utils.fraction (GT.timestamp g_lo) (GT.timestamp g_hi)
                        (IMU.timestamp s))) imu' gt' /\
    Forall (fun g => data_utils.unit_quat (GT.att g)) gt'.
Proof.
  destruct interpolated_orientation_is_slerp as [Hslerp Halign]. split.
  - apply Hslerp; [apply unit_quat_1000 | apply unit_quat_0100].
  - eexists _, _, _. split; [reflexivity|]. split; [reflexivity|].
    split; [reflexivity|]. split; [reflexivity|].
    edestruct (Halign ds_r) as [Hall Hunit];
      [reflexivity | reflexivity | reflexivity | reflexivity |].
    split; [exact Hall|]. apply Hunit.
    repeat constructor; [apply unit_quat_1000 | apply unit_quat_0100].
Defined.

(** ** The further properties at the concrete series *)

Section ConcreteRuns.
Import euroc_utils.

Lemma build_windows_needs_targets_witness :
  returns (build_windows 0%R norm3 2 raw5 (take 3 gt5)) /\
  build_windows 0%R norm3 2 raw5 (take 2 gt5) = Raise IndexError.
Proof.
  split.
  - apply (build_windows_needs_targets 0%R norm3 2 raw5 (take 3 gt5)). cbn. lia.
  - apply (build_windows_needs_targets 0%R norm3 2 raw5 (take 2 gt5)). cbn. lia.
Defined.

Lemma short_series_all_zero_witness :
  build_windows 0%R norm3 5 raw5 []
  = Ok (replicate 5 (replicate 5 (replicate 6 0%R)), replicate 5 0%R).
Proof. apply (short_series_all_zero 0%R norm3 5 raw5 []). cbn. lia. Defined.

Lemma windows_have_fixed_shape_witness :
  exists T Y,
    build_windows 0%R norm3 2 raw5 gt5 = Ok (T, Y) /\
    length T = 5 /\ length Y = 5 /\
    Forall (fun w => length w = 2 /\ Forall (fun row => length row = 6) w) T.
Proof.
  eexists _, _. split; [reflexivity|].
  apply (windows_have_fixed_shape 0%R norm3 2 raw5 gt5). reflexivity.
Defined.

Lemma early_windows_zero_padded_witness :
  exists T Y,
    build_windows 0%R norm3 3 raw5 gt5 = Ok (T, Y) /\
    T !! 0 = Some [replicate 6 0%R; replicate 6 0%R; replicate 6 1%R].
Proof.
  eexists _, _. split; [reflexivity|].
  eapply (early_windows_zero_padded 0%R norm3 3 raw5 gt5 _ _ 0);
    [reflexivity | lia | cbn; lia].
Defined.

Lemma testing_dataset_complete_witness :
  exists test_ds scaled,
    generate_cnn_testing_dataset train20 scale20 scale20 8 = Ok (test_ds, 20) /\
    scale_channels scale20 scale20 (mat_imu train20) = Ok scaled /\
    concat (batches _ test_ds) = zip scaled (mat_y train20) /\
    map length (batches _ test_ds) = [8; 8; 4].
Proof.
  eexists _, _. split; [reflexivity|].
  edestruct (testing_dataset_complete train20 scale20 scale20 8)
    as (_ & _ & _ & scaled & Hs & Hc & _); [reflexivity|].
  injection Hs as <-. split; [reflexivity|]. split; [exact Hc | reflexivity].
Defined.

Lemma rotate_Permutation {X} (n : nat) (l : list X) : rotate n l ≡ₚ l.
Proof. unfold rotate. by rewrite Permutation_app_comm, take_drop. Qed.

Lemma training_split_is_a_partition_witness :
  exists train_ds val_ds scaled,
    generate_cnn_training_dataset nat alternating_choice rotating_shuffle
      train20 scale20 scale20 4 0 = Ok (train_ds, val_ds, (18, 2), 1) /\
    scale_channels scale20 scale20 (mat_imu train20) = Ok scaled /\
    Forall2 (fun i p => zip scaled (mat_y train20) !! i = Some p)
      [0; 1] (concat (batches _ val_ds)) /\
    concat (batches _ val_ds) ++ concat (batches _ train_ds)
      ≡ₚ zip scaled (mat_y train20).
Proof.
  eexists _, _, _. split; [reflexivity|].
  edestruct (training_split_is_a_partition nat alternating_choice rotating_shuffle
               train20 scale20 scale20 4 0)
    as (scaled & Hs & Hval & Hall & _);
    [reflexivity | apply NoDup_seq | intros l; apply rotate_Permutation | reflexivity |].
  injection Hs as <-. split; [reflexivity|]. split; [exact Hval | exact Hall].
Defined.


Lemma euroc_alignment_edges_witness :
  euroc_utils.interpolate_ground_truth imu_q [] = Raise IndexError /\
  exists imu' v,
    euroc_utils.interpolate_ground_truth imu_q gt_q = Ok (imu', v) /\
    imu' `sublist_of` imu_q /\ length v = length imu'.
Proof.
  split.
  - by apply (euroc_alignment_edges imu_q []).
  - eexists _, _. split; [reflexivity|].
    edestruct (euroc_alignment_edges imu_q gt_q) as [_ H].
    edestruct H as (Hs & Hl & _); [reflexivity|]. split; [exact Hs | exact Hl].
Defined.

Lemma pre_process_data_needs_witness :
  exists filt scalers,
    pre_process_data (checked_butter averaging) imu_q vel_q
      = Ok (filt, vel_q, scalers) /\
    2 <= length vel_q /\ length filt = length imu_q.
Proof.
  eexists _, _. split; [reflexivity|].
  edestruct (pre_process_data_needs (checked_butter averaging) imu_q vel_q)
    as (_ & Hv & _ & Hlen & _); [reflexivity|].
  split; [exact Hv | exact Hlen].
Defined.

Lemma pre_process_data_is_causal_witness :
  exists filt scalers filt_long scalers_long,
    pre_process_data (checked_butter averaging) (map imu_at [0; 1; 2]%Q) vel_q
      = Ok (filt, vel_q, scalers) /\
    pre_process_data (checked_butter averaging) imu_q vel_q
      = Ok (filt_long, vel_q, scalers_long) /\
    take 3 filt_long = filt.
Proof.
  eexists _, _, _, _. split; [reflexivity|]. split; [reflexivity|].
  eapply (pre_process_data_is_causal (checked_butter averaging)
            (map imu_at [0; 1; 2]%Q) (map imu_at [3; 4]%Q) vel_q vel_q); reflexivity.
Defined.

Lemma basic_preprocessing_needs_witness :
  exists rows gts scalers imu gt fs dir,
    inertial_ABCs.basic_preprocessing (checked_butter averaging)
      lfilter_with_coeffs ds_q 10 = Ok (rows, gts, scalers) /\
    inertial_ABCs.imu_data ds_q = Some imu /\ inertial_ABCs.gt_data ds_q = Some gt /\
    inertial_ABCs.sampling_freq ds_q = Some fs /\
    inertial_ABCs.ds_local_dir ds_q = Some dir /\
    imu <> [] /\ ~ (fs == 0)%Q /\
    gts = map GT.unroll gt /\ length rows = length imu.
Proof.
  eexists _, _, _.
  edestruct (basic_preprocessing_needs (checked_butter averaging)
               lfilter_with_coeffs ds_q 10) as (imu & gt & fs & dir & H);
    [reflexivity|].
  exists imu, gt, fs, dir. split; [reflexivity | exact H].
Defined.

Lemma class_alignment_rejects_witness :
  inertial_ABCs.interpolate_ground_truth
    data_utils.interpolate_ts data_utils.interpolate_ts_quat
    (inertial_ABCs.Build_dataset None (Some gt_r) (Some 200%Q) None false)
  = Raise TypeError /\
  inertial_ABCs.interpolate_ground_truth
    data_utils.interpolate_ts data_utils.interpolate_ts_quat
    (inertial_ABCs.Build_dataset (Some imu_r) (Some []) (Some 200%Q) None false)
  = Raise IndexError.
Proof.
  split.
  - destruct (class_alignment_rejects data_utils.interpolate_ts
                data_utils.interpolate_ts_quat
                (inertial_ABCs.Build_dataset None (Some gt_r) (Some 200%Q) None false))
      as (H & _). apply H. reflexivity.
  - destruct (class_alignment_rejects data_utils.interpolate_ts
                data_utils.interpolate_ts_quat
                (inertial_ABCs.Build_dataset (Some imu_r) (Some []) (Some 200%Q)
                   None false))
      as (_ & _ & H). apply (H imu_r); reflexivity.
Defined.

Lemma class_alignment_timestamps_witness :
  exists self' imu' gt',
    inertial_ABCs.interpolate_ground_truth
      data_utils.interpolate_ts data_utils.interpolate_ts_quat ds_r = Ok self' /\
    inertial_ABCs.sampling_freq self' = Some 200%Q /\
    inertial_ABCs.imu_data self' = Some imu' /\
    inertial_ABCs.gt_data self' = Some gt' /\
    map GT.timestamp gt' = take (length gt') (map IMU.timestamp imu').
Proof.
  eexists.
  edestruct (class_alignment_timestamps data_utils.interpolate_ts
               data_utils.interpolate_ts_quat ds_r)
    as (Hf & _ & _ & imu' & gt' & Hi & Hg & Ht & _); [reflexivity|].
  exists imu', gt'. split; [reflexivity|].
  split; [exact Hf|]. split; [exact Hi|]. split; [exact Hg | exact Ht].
Defined.

Import euroc_files.

Lemma scaler_pointer_written_once_witness :
  add_scalers_to_training_dir "new/" "model" stale_store
    !! "model/scaler_files_dir.txt"%string = Some (Text "old/") /\
  add_scalers_to_training_dir "newer/" "model"
    (add_scalers_to_training_dir "new/" "model" stale_store)
  = add_scalers_to_training_dir "new/" "model" stale_store.
Proof.
  destruct (scaler_pointer_written_once "new/" "newer/" "model" stale_store)
    as (Hkeep & _ & Hidem).
  split; [|exact Hidem].
  rewrite Hkeep; [apply lookup_singleton_eq|].
  unfold stale_store. rewrite lookup_singleton_eq. by eexists.
Defined.


End ConcreteRuns.
